(** * A shallow embedding of pkg/storage/gcs.go

    The pooled Google Cloud Storage client of clickhouse-backup: the
    operations of [GCS] (Walk, GetFileReader, PutFile, StatFile, deleteKey,
    CopyObject) and the diagnostic transport, as state-passing functions over
    an explicit world made of the client pool and the object store.

    What gcs.go calls but does not define (package path, strings, errors and
    io of the Go library, the object pool, the storage client) is modelled
    in the first half of the file, each piece under the name the source
    uses. *)

From Stdlib Require Import ZArith Ascii.
From Stdlib.Strings Require Import Byte.
From stdpp Require Import base strings gmap sets list sorting.
From Equations Require Import Equations.

Local Open Scope Z_scope.
Local Open Scope string_scope.

(** ** Errors *)

(** The error values gcs.go tests for or can receive. [wrapped] is an error
    built with fmt.Errorf("...%w", inner): errors.Is looks through it. *)
Inductive error : Type :=
| iterator_Done                 (* google.golang.org/api/iterator.Done *)
| storage_ErrObjectNotExist     (* cloud.google.com/go/storage.ErrObjectNotExist *)
| ErrNotFound                   (* storage.ErrNotFound of this package *)
| io_EOF
| io_ErrShortWrite
| io_errInvalidWrite
| context_DeadlineExceeded      (* a borrow that waited until its context ended *)
| backend_error (msg : string)  (* any other failure of the transport or service *)
| wrapped (msg : string) (inner : error).

Fixpoint error_eqb (a b : error) : bool :=
  match a, b with
  | iterator_Done, iterator_Done => true
  | storage_ErrObjectNotExist, storage_ErrObjectNotExist => true
  | ErrNotFound, ErrNotFound => true
  | io_EOF, io_EOF => true
  | io_ErrShortWrite, io_ErrShortWrite => true
  | io_errInvalidWrite, io_errInvalidWrite => true
  | context_DeadlineExceeded, context_DeadlineExceeded => true
  | backend_error m, backend_error n => bool_decide (m = n)
  | wrapped m x, wrapped n y => bool_decide (m = n) && error_eqb x y
  | _, _ => false
  end.

(** errors.Is(err, target): [err] or one of the errors it wraps is [target]. *)
Fixpoint errors_Is (err target : error) : bool :=
  error_eqb err target ||
  match err with
  | wrapped _ inner => errors_Is inner target
  | _ => false
  end.

(** err.Error(), what %v prints of an error. *)
Fixpoint error_string (e : error) : string :=
  match e with
  | iterator_Done => "no more items in iterator"
  | storage_ErrObjectNotExist => "storage: object doesn't exist"
  | ErrNotFound => "key not found"
  | io_EOF => "EOF"
  | io_ErrShortWrite => "short write"
  | io_errInvalidWrite => "invalid write result"
  | context_DeadlineExceeded => "context deadline exceeded"
  | backend_error msg => msg
  | wrapped msg inner => msg +:+ ": " +:+ error_string inner
  end.

(** A Go result pair (value, error) of which exactly one side is meaningful. *)
Inductive result (A : Type) : Type :=
| Ok (a : A)
| Err (e : error).
Arguments Ok {A} a.
Arguments Err {A} e.

(** ** Package strings *)

(** The rest of [s] after [p] when [s] starts with [p]. *)
Fixpoint strip_prefix (s p : string) : option string :=
  match p with
  | EmptyString => Some s
  | String c p' =>
      match s with
      | EmptyString => None
      | String d s' => if Ascii.eqb c d then strip_prefix s' p' else None
      end
  end.

Definition strings_HasPrefix (s p : string) : bool :=
  match strip_prefix s p with Some _ => true | None => false end.

Definition strings_TrimPrefix (s p : string) : string :=
  match strip_prefix s p with Some r => r | None => s end.

Fixpoint strings_Join (elems : list string) (sep : string) : string :=
  match elems with
  | [] => ""
  | [e] => e
  | e :: rest => e +:+ sep +:+ strings_Join rest sep
  end.

(** ** Package path *)

(** The elements between the slashes of a path. *)
Fixpoint split_slash (s : string) : list string :=
  match s with
  | EmptyString => [""]
  | String c r =>
      if Ascii.eqb c "/"%char then "" :: split_slash r
      else match split_slash r with
           | e :: es => String c e :: es
           | [] => [String c ""]
           end
  end.

(** The loop of path.Clean over the elements of the path; [out] is the
    output so far, last element first. An empty element and "." are dropped;
    ".." removes the element before it, is dropped at the root of a rooted
    path and is kept at the start of a relative one. *)
Fixpoint clean_elems (rooted : bool) (elems out : list string) : list string :=
  match elems with
  | [] => rev out
  | e :: rest =>
      if bool_decide (e = "") || bool_decide (e = ".") then clean_elems rooted rest out
      else if bool_decide (e = "..") then
        match out with
        | top :: out' =>
            if bool_decide (top = "..") then clean_elems rooted rest (".." :: out)
            else clean_elems rooted rest out'
        | [] => if rooted then clean_elems rooted rest [] else clean_elems rooted rest [".."]
        end
      else clean_elems rooted rest (e :: out)
  end.

Definition path_Clean (p : string) : string :=
  if bool_decide (p = "") then "."
  else
    let rooted := strings_HasPrefix p "/" in
    let out := (if rooted then "/" else "") +:+ strings_Join (clean_elems rooted (split_slash p) []) "/" in
    if bool_decide (out = "") then "." else out.

(** path.Join: the elements from the first non-empty one on, joined with
    slashes and cleaned; the empty string when every element is empty. *)
Fixpoint path_Join (elem : list string) : string :=
  match elem with
  | [] => ""
  | e :: rest =>
      if bool_decide (e = "") then path_Join rest
      else path_Clean (strings_Join elem "/")
  end.

(** ** The world: client pool and object store *)

(** A pooled client handle is named by the number the factory made it under. *)
Definition handle := nat.

(** The object pool (github.com/jolestar/go-commons-pool/v2, with the default
    configuration but for MaxTotal), as far as gcs.go uses it: handles are
    idle, borrowed or destroyed; the idle ones are a stack (LIFO). *)
Record Pool : Type := mkPool {
  idle : list handle;
  borrowed : gset handle;
  destroyed : gset handle;
  created : nat;               (* how many handles the factory has made *)
  MaxTotal : Z;                (* a negative bound is no bound *)
}.

(** An object of a bucket. *)
Record Object : Type := mkObject {
  content : list byte;
  storageClass : string;
  metadata : list (string * string);
  updated : Z;
}.

(** The calls that reach the service, each of which can fail. *)
Inductive call : Type :=
| call_NewClient               (* storage.NewClient, in the pool factory *)
| call_Attrs
| call_NewReader
| call_Delete
| call_CopierRun
| call_Next (k : nat)          (* the k-th Next of a listing cursor, from 0 *)
| call_Write (k : nat)         (* the k-th Write of a write stream, from 0 *)
| call_Close.                  (* Close of a write stream *)

(** What the service does to the calls of one operation: the error a call
    fails with, if it fails. *)
Definition faults : Type := call → option error.

Definition no_faults : faults := λ _, None.

(** A line of the process log (github.com/apex/log). *)
Inductive log_entry : Type :=
| log_Debug (msg : string)
| log_Info (msg : string)
| log_Warn (msg : string)
| log_Error (msg : string).

Record World : Type := mkWorld {
  pool : Pool;
  objects : gmap (string * string) Object;   (* by bucket and object name *)
  clock : Z;
  logged : list log_entry;                   (* oldest first *)
  failed : gset handle;   (* ghost: the handles on which a call has failed *)
  missed : gset handle;   (* ghost: the handles on which a call has found
                             its object missing *)
}.

Definition with_pool (p : Pool) (w : World) : World :=
  mkWorld p (objects w) (clock w) (logged w) (failed w) (missed w).

(** The service stores an object, stamped with its clock. *)
Definition store_object (bucket name : string) (o : Object) (w : World) : World :=
  mkWorld (pool w)
          (<[(bucket, name) := mkObject (content o) (storageClass o) (metadata o) (clock w)]> (objects w))
          (clock w + 1) (logged w) (failed w) (missed w).

Definition remove_object (bucket name : string) (w : World) : World :=
  mkWorld (pool w) (delete (bucket, name) (objects w)) (clock w) (logged w) (failed w) (missed w).

Definition mark_failed (h : handle) (w : World) : World :=
  mkWorld (pool w) (objects w) (clock w) (logged w) ({[h]} ∪ failed w) (missed w).

Definition mark_missed (h : handle) (w : World) : World :=
  mkWorld (pool w) (objects w) (clock w) (logged w) (failed w) ({[h]} ∪ missed w).

Definition add_log (l : log_entry) (w : World) : World :=
  mkWorld (pool w) (objects w) (clock w) (logged w ++ [l])%list (failed w) (missed w).

(** An operation reads the faults of the service and changes the world. *)
Definition M (A : Type) : Type := faults → World → A * World.

Definition ret {A : Type} (a : A) : M A := λ _ w, (a, w).

Definition bind {A B : Type} (m : M A) (k : A → M B) : M B := λ f w,
  let '(a, w') := m f w in k a f w'.

Declare Scope M_scope.
Delimit Scope M_scope with M.
Notation "x ← y ; z" := (bind y (λ x, z))
  (at level 20, y at level 100, z at level 200, only parsing) : M_scope.
Notation "' x ← y ; z" := (bind y (λ x, z))
  (at level 20, x pattern, y at level 100, z at level 200, only parsing) : M_scope.
Notation "x ;; z" := (bind x (λ _, z))
  (at level 100, z at level 200, only parsing, right associativity) : M_scope.
Local Open Scope M_scope.

(** *** Pool operations *)

Definition can_create (p : Pool) : bool :=
  bool_decide (MaxTotal p < 0) ||
  bool_decide (Z.of_nat (length (idle p)) + Z.of_nat (size (borrowed p)) < MaxTotal p).

(** BorrowObject: the idle handle returned last; else a new one while the
    bound allows, which fails when the factory's NewClient fails; else the
    call waits, in this sequential setting until its context ends. *)
Definition BorrowObject : M (result handle) := λ f w,
  let p := pool w in
  match idle p with
  | h :: rest =>
      (Ok h, with_pool (mkPool rest ({[h]} ∪ borrowed p) (destroyed p) (created p) (MaxTotal p)) w)
  | [] =>
      if can_create p then
        match f call_NewClient with
        | Some e => (Err e, w)
        | None =>
            let h := created p in
            (Ok h, with_pool (mkPool [] ({[h]} ∪ borrowed p) (destroyed p) (S h) (MaxTotal p)) w)
        end
      else (Err context_DeadlineExceeded, w)
  end.

Definition pool_return (h : handle) (p : Pool) : Pool :=
  if bool_decide (h ∈ borrowed p)
  then mkPool (h :: idle p) (borrowed p ∖ {[h]}) (destroyed p) (created p) (MaxTotal p)
  else p.

Definition pool_invalidate (h : handle) (p : Pool) : Pool :=
  if bool_decide (h ∈ borrowed p)
  then mkPool (idle p) (borrowed p ∖ {[h]}) ({[h]} ∪ destroyed p) (created p) (MaxTotal p)
  else p.

Definition ReturnObject (h : handle) : M unit := λ _ w,
  (tt, with_pool (pool_return h (pool w)) w).

Definition InvalidateObject (h : handle) : M unit := λ _ w,
  (tt, with_pool (pool_invalidate h (pool w)) w).

(** *** Logging *)

Definition log_Debugf (msg : string) : M unit := λ _ w, (tt, add_log (log_Debug msg) w).
Definition log_Warnf (msg : string) : M unit := λ _ w, (tt, add_log (log_Warn msg) w).
Definition log_Errorf (msg : string) : M unit := λ _ w, (tt, add_log (log_Error msg) w).

(** ** Package io *)

(** An input stream (io.ReadCloser): the bytes it still holds, the most
    bytes one Read delivers (0: as many as the buffer takes) and the error
    it reports once the bytes are out, io.EOF for a stream that ends well. *)
Record Reader : Type := mkReader {
  r_data : list byte;
  r_most : nat;
  r_end : error;
}.

(** Read into a buffer of [cap] bytes: the bytes read, the error, and the
    stream after the call. *)
Definition Reader_Read (cap : positive) (r : Reader) : (list byte * option error) * Reader :=
  match r_data r with
  | [] => (([], Some (r_end r)), r)
  | _ :: _ =>
      let len := Z.of_nat (length (r_data r)) in
      let most := if bool_decide (r_most r = 0%nat) then len else Z.of_nat (r_most r) in
      let n := Z.to_nat (Z.min (Z.pos cap) (Z.min most len)) in
      ((take n (r_data r), None), mkReader (drop n (r_data r)) (r_most r) (r_end r))
  end.

(** What the loop of io.CopyBuffer does with the bytes of one Read: write
    them, check the count written, and say whether the loop breaks. *)
Definition write_chunk {W : Type} (Write : W → list byte → M ((Z * option error) * W))
    (buf : list byte) (dst : W) (written : Z) : M ((Z * option error) * W) :=
  let nr := Z.of_nat (length buf) in
  if bool_decide (0 < nr) then
    '((nw, ew), dst) ← Write dst buf;
    let '(nw, ew) :=
      if bool_decide (nw < 0) || bool_decide (nr < nw)
      then (0, match ew with None => Some io_errInvalidWrite | _ => ew end)
      else (nw, ew) in
    let written := written + nw in
    match ew with
    | Some _ => ret ((written, ew), dst)
    | None =>
        if bool_decide (nr ≠ nw) then ret ((written, Some io_ErrShortWrite), dst)
        else ret ((written, None), dst)
    end
  else ret ((written, None), dst).

Definition inspect {A : Type} (a : A) : {b : A | a = b} := exist _ a eq_refl.

(** The loop of io.CopyBuffer(dst, src, buf) with len(buf) = [cap]. It ends
    because a Read that reports no error has delivered a byte. *)
Equations? copy_loop {W : Type} (Write : W → list byte → M ((Z * option error) * W))
    (cap : positive) (src : Reader) (dst : W) (written : Z) (f : faults) (w : World)
    : ((Z * option error) * W) * World by wf (length (r_data src)) lt :=
copy_loop Write cap src dst written f w with inspect (Reader_Read cap src) := {
  | exist _ ((buf, None), src') Hr with write_chunk Write buf dst written f w := {
      | (((written', Some ew), dst'), w') => (((written', Some ew), dst'), w')
      | (((written', None), dst'), w') => copy_loop Write cap src' dst' written' f w' };
  | exist _ ((buf, Some er), src') Hr with write_chunk Write buf dst written f w := {
      | (((written', Some ew), dst'), w') => (((written', Some ew), dst'), w')
      | (((written', None), dst'), w') =>
          (((written', if error_eqb er io_EOF then None else Some er), dst'), w') } }.
Proof.
  unfold Reader_Read in Hr. destruct (r_data src) as [|b l] eqn:Hd; [discriminate|].
  injection Hr as _ <-. cbn [r_data]. rewrite length_drop.
  case_bool_decide; cbn [length]; lia.
Qed.

Definition io_CopyBuffer {W : Type} (Write : W → list byte → M ((Z * option error) * W))
    (dst : W) (src : Reader) (cap : positive) : M ((Z * option error) * W) :=
  copy_loop Write cap src dst 0.

(** ** The storage client (cloud.google.com/go/storage) *)

(** A call to the service through the client of handle [h]: it fails as the
    faults say. Two of the errors the API returns are answers, not failures
    of the call: iterator.Done, the end of a listing, and ErrObjectNotExist,
    the absence of an object. Any other error is remembered against the
    handle as a failed call, and the absence of an object as such. *)
Definition service_call (h : handle) (c : call) : M (option error) := λ f w,
  match f c with
  | Some e =>
      (Some e,
       if errors_Is e iterator_Done then w
       else if errors_Is e storage_ErrObjectNotExist then mark_missed h w
       else mark_failed h w)
  | None => (None, w)
  end.

(** The service has no object of the name asked for. *)
Definition object_missing {A : Type} (h : handle) : M (result A) := λ _ w,
  (Err storage_ErrObjectNotExist, mark_missed h w).

Module storage.

Record ObjectAttrs : Type := mkAttrs {
  Name : string;
  Prefix : string;     (* set, with nothing else, for a common prefix *)
  Size : Z;
  Updated : Z;
}.

Definition attrs_of (name : string) (o : Object) : ObjectAttrs :=
  mkAttrs name "" (Z.of_nat (length (content o))) (updated o).

(** ObjectHandle.Attrs *)
Definition Attrs (h : handle) (bucket name : string) : M (result ObjectAttrs) :=
  e ← service_call h call_Attrs;
  match e with
  | Some e => ret (Err e)
  | None => λ f w,
      match objects w !! (bucket, name) with
      | Some o => (Ok (attrs_of name o), w)
      | None => object_missing h f w
      end
  end.

(** ObjectHandle.NewReader: a stream of the object's bytes. *)
Definition NewReader (h : handle) (bucket name : string) : M (result Reader) :=
  e ← service_call h call_NewReader;
  match e with
  | Some e => ret (Err e)
  | None => λ f w,
      match objects w !! (bucket, name) with
      | Some o => (Ok (mkReader (content o) 0 io_EOF), w)
      | None => object_missing h f w
      end
  end.

(** ObjectHandle.Delete *)
Definition Delete (h : handle) (bucket name : string) : M (option error) :=
  e ← service_call h call_Delete;
  match e with
  | Some e => ret (Some e)
  | None => λ _ w,
      match objects w !! (bucket, name) with
      | Some _ => (None, remove_object bucket name w)
      | None => (Some storage_ErrObjectNotExist, mark_missed h w)
      end
  end.

(** dst.CopierFrom(src).Run: the copy is made by the service. *)
Definition CopierRun (h : handle) (srcBucket srcName dstBucket dstName : string)
    : M (result ObjectAttrs) :=
  e ← service_call h call_CopierRun;
  match e with
  | Some e => ret (Err e)
  | None => λ f w,
      match objects w !! (srcBucket, srcName) with
      | Some o => (Ok (attrs_of dstName o), store_object dstBucket dstName o w)
      | None => object_missing h f w
      end
  end.

(** *** Listing *)

Definition name_le (a b : string * Object) : Prop := String.leb a.1 b.1 = true.

Global Instance name_le_dec (a b : string * Object) : Decision (name_le a b) :=
  decide (String.leb a.1 b.1 = true).

(** The objects of a bucket, in the order of their names. *)
Definition bucket_objects (objs : gmap (string * string) Object) (bucket : string)
    : list (string * Object) :=
  merge_sort name_le
    (omap (λ kv, if bool_decide (kv.1.1 = bucket) then Some (kv.1.2, kv.2) else None)
          (map_to_list objs)).

(** The common prefix a name is listed under: the name up to and with the
    first delimiter after the query's prefix. *)
Definition common_prefix (prefix delimiter name : string) : option string :=
  if bool_decide (delimiter = "") then None
  else
    match strip_prefix name prefix with
    | None => None
    | Some rest =>
        match String.index 0 delimiter rest with
        | Some i => Some (prefix +:+ String.substring 0 (i + String.length delimiter) rest)
        | None => None
        end
    end.

(** What a listing with Query{Prefix, Delimiter} returns: the objects
    under the prefix that are not grouped, then the common prefixes. *)
Definition list_objects (objs : gmap (string * string) Object)
    (bucket prefix delimiter : string) : list ObjectAttrs :=
  let under :=
    omap (λ no : string * Object, if strings_HasPrefix no.1 prefix then Some no else None)
         (bucket_objects objs bucket) in
  let items :=
    omap (λ no : string * Object,
            match common_prefix prefix delimiter no.1 with
            | None => Some (attrs_of no.1 no.2)
            | Some _ => None
            end) under in
  let prefixes :=
    remove_dups (omap (λ no : string * Object, common_prefix prefix delimiter no.1) under) in
  (items ++ ((λ p, mkAttrs "" p 0 0) <$> prefixes))%list.

(** The cursor of BucketHandle.Objects. *)
Record ObjectIterator : Type := mkIterator {
  it_client : handle;
  it_items : list ObjectAttrs;
  it_calls : nat;
}.

Definition Objects (h : handle) (bucket prefix delimiter : string) : M ObjectIterator :=
  λ _ w, (mkIterator h (list_objects (objects w) bucket prefix delimiter) 0, w).

(** ObjectIterator.Next: the next item, iterator.Done after the last. *)
Definition Next (it : ObjectIterator) : M (result ObjectAttrs * ObjectIterator) :=
  e ← service_call (it_client it) (call_Next (it_calls it));
  match e with
  | Some e => ret (Err e, it)
  | None =>
      match it_items it with
      | [] => ret (Err iterator_Done, it)
      | o :: rest => ret (Ok o, mkIterator (it_client it) rest (S (it_calls it)))
      end
  end.

(** *** Write streams *)

Record Writer : Type := mkWriter {
  wr_client : handle;
  wr_bucket : string;
  wr_name : string;
  StorageClass : string;
  Metadata : list (string * string);
  wr_sent : list byte;         (* the bytes written so far *)
  wr_writes : nat;             (* the Write calls so far *)
  wr_err : option error;       (* the error the upload has failed with *)
}.

(** ObjectHandle.NewWriter: nothing is sent before the first Write. *)
Definition NewWriter (h : handle) (bucket name : string) : Writer :=
  mkWriter h bucket name "" [] [] 0 None.

Definition set_StorageClass (c : string) (wr : Writer) : Writer :=
  mkWriter (wr_client wr) (wr_bucket wr) (wr_name wr) c (Metadata wr)
           (wr_sent wr) (wr_writes wr) (wr_err wr).

Definition set_Metadata (m : list (string * string)) (wr : Writer) : Writer :=
  mkWriter (wr_client wr) (wr_bucket wr) (wr_name wr) (StorageClass wr) m
           (wr_sent wr) (wr_writes wr) (wr_err wr).

(** Writer.Write: all of [p] is taken unless the upload fails; a failed
    upload keeps its error. *)
Definition Write (wr : Writer) (p : list byte) : M ((Z * option error) * Writer) :=
  match wr_err wr with
  | Some e => ret ((0, Some e), wr)
  | None =>
      e ← service_call (wr_client wr) (call_Write (wr_writes wr));
      match e with
      | Some e =>
          ret ((0, Some e),
                mkWriter (wr_client wr) (wr_bucket wr) (wr_name wr) (StorageClass wr)
                         (Metadata wr) (wr_sent wr) (S (wr_writes wr)) (Some e))
      | None =>
          ret ((Z.of_nat (length p), None),
                mkWriter (wr_client wr) (wr_bucket wr) (wr_name wr) (StorageClass wr)
                         (Metadata wr) (wr_sent wr ++ p)%list (S (wr_writes wr)) None)
      end
  end.

(** Writer.Close: reports the error of a failed upload; else finalizes the
    object, which can fail too and then leaves no object. *)
Definition Close (wr : Writer) : M (option error) :=
  match wr_err wr with
  | Some e => ret (Some e)
  | None =>
      e ← service_call (wr_client wr) call_Close;
      match e with
      | Some e => ret (Some e)
      | None => λ _ w,
          (None, store_object (wr_bucket wr) (wr_name wr)
                   (mkObject (wr_sent wr) (StorageClass wr) (Metadata wr) 0) w)
      end
  end.

End storage.

(** * pkg/storage/gcs.go *)

(** Modelled from the spec: config.GCSConfig, declared in pkg/config, with
    the options the operations read: bucket name, root path, object-disk
    root path, storage class and object labels for uploads, pool size. *)
Record GCSConfig : Type := mkGCSConfig {
  Bucket : string;
  Path : string;
  ObjectDiskPath : string;
  StorageClass : string;
  ObjectLabels : list (string * string);
  ClientPoolSize : Z;
}.

(** GCS - presents methods for manipulate data on GCS. The pool it points
    to lives in the world. *)
Record GCS : Type := mkGCS {
  Config : GCSConfig;
}.

Record gcsFile : Type := mkGcsFile {
  size : Z;
  lastModified : Z;     (* a time.Time, 0 for the zero time *)
  name : string;
}.

(** Modelled from the spec: the RemoteFile interface of this package, the
    descriptor of one entry (name, size, modification time). *)
Class RemoteFile (T : Type) : Type := {
  Size : T → Z;
  Name : T → string;
  LastModified : T → Z;
}.

Global Instance gcsFile_RemoteFile : RemoteFile gcsFile := {
  Size f := size f;
  Name f := name f;
  LastModified f := lastModified f;
}.

Definition Kind (gcs : GCS) : string := "GCS".

(** The part of Connect that sets up the pool: an empty pool bounded by
    ClientPoolSize, over the objects the service holds. *)
Definition Connect (gcs : GCS) (objs : gmap (string * string) Object) (now : Z) : World :=
  mkWorld (mkPool [] ∅ ∅ 0 (ClientPoolSize (Config gcs))) objs now [] ∅ ∅.

(** ** Walk *)

Definition Walk_rootPath (gcs : GCS) (gcsPath : string) : string :=
  path_Join [Path (Config gcs); gcsPath].

(** Lines 146-150: the prefix of the listing. *)
Definition Walk_prefix (gcs : GCS) (gcsPath : string) : string :=
  let rootPath := Walk_rootPath gcs gcsPath in
  if bool_decide (rootPath = "/") then "" else rootPath +:+ "/".

(** Lines 151-154. *)
Definition Walk_delimiter (recursive : bool) : string :=
  if negb recursive then "/" else "".

(** The for loop of Walk. [process] is the caller's callback, with the state
    of the caller threaded through it. *)
Equations? Walk_loop {A : Type} (pClientObj : handle) (rootPath : string)
    (process : A → gcsFile → A * option error) (it : storage.ObjectIterator) (acc : A)
    (f : faults) (w : World)
    : (option error * A) * World by wf (length (storage.it_items it)) lt :=
Walk_loop pClientObj rootPath process it acc f w with inspect (storage.Next it f w) := {
  | exist _ ((Err err, _), w1) _ =>
      if errors_Is err iterator_Done
      then ((None, acc), snd (ReturnObject pClientObj f w1))
      else ((Some err, acc), snd (InvalidateObject pClientObj f w1));
  | exist _ ((Ok object, it'), w1) Hn with bool_decide (storage.Prefix object ≠ "") := {
      | true with process acc (mkGcsFile 0 0 (strings_TrimPrefix (storage.Prefix object) rootPath)) := {
          | (acc', Some err) => ((Some err, acc'), snd (InvalidateObject pClientObj f w1))
          | (acc', None) => Walk_loop pClientObj rootPath process it' acc' f w1 };
      | false with process acc (mkGcsFile (storage.Size object) (storage.Updated object)
                                          (strings_TrimPrefix (storage.Name object) rootPath)) := {
          | (acc', Some err) => ((Some err, acc'), snd (InvalidateObject pClientObj f w1))
          | (acc', None) => Walk_loop pClientObj rootPath process it' acc' f w1 } } }.
Proof.
  all: unfold storage.Next, bind, service_call, ret in Hn;
    destruct (f _); [discriminate|];
    destruct (storage.it_items it) as [|o rest]; [discriminate|];
    injection Hn as _ <- _; cbn; lia.
Qed.

Definition Walk {A : Type} (gcs : GCS) (gcsPath : string) (recursive : bool)
    (process : A → gcsFile → A * option error) (acc : A) : M (option error * A) :=
  b ← BorrowObject;
  match b with
  | Err err =>
      log_Errorf ("can't get client connection from pool: " +:+ error_string err);;
      ret (Some err, acc)
  | Ok pClientObj =>
      let rootPath := Walk_rootPath gcs gcsPath in
      let prefix := Walk_prefix gcs gcsPath in
      let delimiter := Walk_delimiter recursive in
      it ← storage.Objects pClientObj (Bucket (Config gcs)) prefix delimiter;
      Walk_loop pClientObj rootPath process it acc
  end.

(** ** GetFileReader *)

Definition GetFileReader (gcs : GCS) (key : string) : M (result Reader) :=
  b ← BorrowObject;
  match b with
  | Err err =>
      log_Errorf ("can't get client connection from pool: " +:+ error_string err);;
      ret (Err err)
  | Ok pClientObj =>
      r ← storage.NewReader pClientObj (Bucket (Config gcs)) (path_Join [Path (Config gcs); key]);
      match r with
      | Err err => InvalidateObject pClientObj;; ret (Err err)
      | Ok reader => ReturnObject pClientObj;; ret (Ok reader)
      end
  end.

Definition GetFileReaderWithLocalPath (gcs : GCS) (key _localPath : string) : M (result Reader) :=
  GetFileReader gcs key.

(** ** PutFile *)

(** The deferred function of PutFile. *)
Definition PutFile_deferred (pClientObj : handle) (writer : storage.Writer) : M unit :=
  err ← storage.Close writer;
  match err with
  | Some err =>
      log_Warnf ("can't close writer: " +:+ error_string err);;
      InvalidateObject pClientObj
  | None => ReturnObject pClientObj
  end.

Definition PutFile (gcs : GCS) (key : string) (r : Reader) : M (option error) :=
  b ← BorrowObject;
  match b with
  | Err err =>
      log_Errorf ("can't get client connection from pool: " +:+ error_string err);;
      ret (Some err)
  | Ok pClientObj =>
      let key := path_Join [Path (Config gcs); key] in
      let writer := storage.NewWriter pClientObj (Bucket (Config gcs)) key in
      let writer := storage.set_StorageClass (StorageClass (Config gcs)) writer in
      let writer :=
        if bool_decide (0 < length (ObjectLabels (Config gcs)))%nat
        then storage.set_Metadata (ObjectLabels (Config gcs)) writer
        else writer in
      '((_, err), writer) ← io_CopyBuffer storage.Write writer r (512 * 1024)%positive;
      (* the result is set to err, then the deferred function runs *)
      PutFile_deferred pClientObj writer;;
      ret err
  end.

(** ** StatFile *)

Definition StatFile (gcs : GCS) (key : string) : M (result gcsFile) :=
  b ← BorrowObject;
  match b with
  | Err err =>
      log_Errorf ("can't get client connection from pool: " +:+ error_string err);;
      ret (Err err)
  | Ok pClientObj =>
      a ← storage.Attrs pClientObj (Bucket (Config gcs)) (path_Join [Path (Config gcs); key]);
      match a with
      | Err err =>
          if errors_Is err storage_ErrObjectNotExist then ret (Err ErrNotFound)
          else InvalidateObject pClientObj;; ret (Err err)
      | Ok objAttr =>
          ReturnObject pClientObj;;
          ret (Ok (mkGcsFile (storage.Size objAttr) (storage.Updated objAttr) (storage.Name objAttr)))
      end
  end.

(** ** Delete *)

Definition deleteKey (gcs : GCS) (key : string) : M (option error) :=
  b ← BorrowObject;
  match b with
  | Err err =>
      log_Errorf ("can't get client connection from pool: " +:+ error_string err);;
      ret (Some err)
  | Ok pClientObj =>
      err ← storage.Delete pClientObj (Bucket (Config gcs)) key;
      match err with
      | Some err => InvalidateObject pClientObj;; ret (Some err)
      | None => ReturnObject pClientObj;; ret None
      end
  end.

Definition DeleteFile (gcs : GCS) (key : string) : M (option error) :=
  deleteKey gcs (path_Join [Path (Config gcs); key]).

Definition DeleteFileFromObjectDiskBackup (gcs : GCS) (key : string) : M (option error) :=
  deleteKey gcs (path_Join [ObjectDiskPath (Config gcs); key]).

(** ** CopyObject *)

Definition CopyObject (gcs : GCS) (srcBucket srcKey dstKey : string) : M (Z * option error) :=
  b ← BorrowObject;
  match b with
  | Err err =>
      log_Errorf ("can't get client connection from pool: " +:+ error_string err);;
      ret (0, Some err)
  | Ok pClientObj =>
      let dstKey := path_Join [ObjectDiskPath (Config gcs); dstKey] in
      a ← storage.Attrs pClientObj srcBucket srcKey;
      match a with
      | Err err => InvalidateObject pClientObj;; ret (0, Some err)
      | Ok attrs =>
          c ← storage.CopierRun pClientObj srcBucket srcKey (Bucket (Config gcs)) dstKey;
          match c with
          | Err err => InvalidateObject pClientObj;; ret (0, Some err)
          | Ok _ =>
              log_Debugf ("GCS->CopyObject " +:+ srcBucket +:+ "/" +:+ srcKey +:+ " -> "
                          +:+ Bucket (Config gcs) +:+ "/" +:+ dstKey);;
              ReturnObject pClientObj;;
              ret (storage.Size attrs, None)
          end
      end
  end.

(** ** The diagnostic transport *)

Module Request.
(** The fields of http.Request the transport reads, and the body. A header
    is listed in the order the range loop goes through it. *)
Record t : Type := mk {
  Method : string;
  URL : string;
  Header : list (string * list string);
  Body : list byte;
}.
End Request.

Module Response.
Record t : Type := mk {
  StatusCode : Z;
  Header : list (string * list string);
  Body : list byte;
}.
End Response.

Definition newline : string := String (ascii_of_nat 10) "".

(** The two nested range loops over a header: a line "name: value" for
    every value of every name, appended to [logMsg]. *)
Definition header_lines (logMsg : string) (header : list (string * list string)) : string :=
  foldl (λ msg hv, foldl (λ msg v, msg +:+ hv.1 +:+ ": " +:+ v +:+ newline) msg hv.2)
        logMsg header.

(** An http.RoundTripper over a network in state [N]: RoundTrip returns a
    response and an error, each of which can be nil. *)
Definition RoundTripper (N : Type) : Type :=
  Request.t → N → (option Response.t * option error) * N.

Record debugGCSTransport (N : Type) : Type := mkDebugGCSTransport {
  base : RoundTripper N;
}.
Arguments base {N} _.
Arguments mkDebugGCSTransport {N} _.

(** debugGCSTransport.RoundTrip, over the network and the process log.
    [None] is a panic: the headers of a nil response are ranged over when
    the base transport returns neither a response nor an error. *)
Definition RoundTrip {N : Type} (w : debugGCSTransport N) (r : Request.t)
    (net : N) (log : list log_entry)
    : option (((option Response.t * option error) * N) * list log_entry) :=
  let logMsg := ">>> [GCS_REQUEST] >>> " +:+ Request.Method r +:+ " " +:+ Request.URL r +:+ newline in
  let logMsg := header_lines logMsg (Request.Header r) in
  let log := (log ++ [log_Info logMsg])%list in
  let '((resp, err), net) := base w r net in
  match err with
  | Some e =>
      Some (((resp, err), net), (log ++ [log_Error ("GCS_ERROR: " +:+ error_string e)])%list)
  | None =>
      match resp with
      | None => None
      | Some rs =>
          let logMsg := "<<< [GCS_RESPONSE] <<< " +:+ Request.Method r +:+ " " +:+ Request.URL r +:+ newline in
          let logMsg := header_lines logMsg (Response.Header rs) in
          Some (((resp, err), net), (log ++ [log_Info logMsg])%list)
      end
  end.

(** ** Connect: the options of the client *)

(** The fields of config.GCSConfig that Connect reads to choose the options
    of the client. *)
Record GCSConnectConfig : Type := mkGCSConnectConfig {
  Endpoint : string;
  CredentialsJSON : string;
  CredentialsJSONEncoded : string;
  CredentialsFile : string;
  Debug : bool;
}.

Inductive Scope : Type := ScopeFullControl.

(** option.ClientOption, the ones Connect uses; the HTTP client of the debug
    mode is given by its transport. *)
Inductive ClientOption (N : Type) : Type :=
| WithTelemetryDisabled
| WithoutAuthentication
| WithEndpoint (url : string)
| WithCredentialsJSON (p : string)
| WithCredentialsFile (filename : string)
| WithScopes (scope : Scope)
| WithDefaultEndpoint (url : string)
| WithDefaultMTLSEndpoint (url : string)
| WithHTTPClient (transport : debugGCSTransport N).
Arguments WithTelemetryDisabled {N}.
Arguments WithoutAuthentication {N}.
Arguments WithEndpoint {N} url.
Arguments WithCredentialsJSON {N} p.
Arguments WithCredentialsFile {N} filename.
Arguments WithScopes {N} scope.
Arguments WithDefaultEndpoint {N} url.
Arguments WithDefaultMTLSEndpoint {N} url.
Arguments WithHTTPClient {N} transport.

(** What lines 72-104 of Connect end with: the options for the clients, or
    the error made by fmt.Errorf with %v, which is its text. *)
Inductive Connect_options (N : Type) : Type :=
| options_ready (clientOptions : list (ClientOption N))
| options_error (text : string).
Arguments options_ready {N} clientOptions.
Arguments options_error {N} text.

(** Lines 72-104. [DecodeString] is base64.StdEncoding.DecodeString, whose
    error Connect drops; [NewClient] is googleHTTPTransport.NewClient, given
    by the transport of the HTTP client it returns. *)
Definition Connect_clientOptions {N : Type}
    (DecodeString : string → string * option error)
    (NewClient : list (ClientOption N) → result (RoundTripper N))
    (cfg : GCSConnectConfig) : Connect_options N :=
  let clientOptions := [WithTelemetryDisabled] in
  let endpoint := "https://storage.googleapis.com/storage/v1/" in
  let '(endpoint, clientOptions) :=
    if bool_decide (Endpoint cfg ≠ "") then
      (Endpoint cfg,
       (([WithoutAuthentication] ++ clientOptions) ++ [WithEndpoint (Endpoint cfg)])%list)
    else if bool_decide (CredentialsJSON cfg ≠ "") then
      (endpoint, (clientOptions ++ [WithCredentialsJSON (CredentialsJSON cfg)])%list)
    else if bool_decide (CredentialsJSONEncoded cfg ≠ "") then
      let '(d, _) := DecodeString (CredentialsJSONEncoded cfg) in
      (endpoint, (clientOptions ++ [WithCredentialsJSON d])%list)
    else if bool_decide (CredentialsFile cfg ≠ "") then
      (endpoint, (clientOptions ++ [WithCredentialsFile (CredentialsFile cfg)])%list)
    else (endpoint, clientOptions) in
  if Debug cfg then
    let clientOptions :=
      if bool_decide (Endpoint cfg = "")
      then ([WithScopes ScopeFullControl] ++ clientOptions)%list
      else clientOptions in
    let clientOptions := (clientOptions ++ [WithDefaultEndpoint endpoint])%list in
    let clientOptions :=
      if strings_HasPrefix endpoint "https://"
      then (clientOptions ++ [WithDefaultMTLSEndpoint endpoint])%list
      else clientOptions in
    match NewClient clientOptions with
    | Err err =>
        options_error ("googleHTTPTransport.NewClient error: " +:+ error_string err)
    | Ok transport =>
        options_ready (clientOptions ++ [WithHTTPClient (mkDebugGCSTransport transport)])%list
    end
  else options_ready clientOptions.

(** ** Vocabulary of the statements *)

(** The descriptor Walk shows its callback for an item of the cursor: a
    directory for a common prefix, else a file. *)
Definition Walk_entry (rootPath : string) (object : storage.ObjectAttrs) : gcsFile :=
  if bool_decide (storage.Prefix object ≠ "")
  then mkGcsFile 0 0 (strings_TrimPrefix (storage.Prefix object) rootPath)
  else mkGcsFile (storage.Size object) (storage.Updated object)
                 (strings_TrimPrefix (storage.Name object) rootPath).

(** How the loop of a walk comes to its end. *)
Inductive Walk_end : Type :=
| end_Done                         (* the cursor signalled iterator.Done *)
| end_cursor_error (e : error)     (* the cursor failed with another error *)
| end_visit_error (e : error).     (* the callback returned an error *)

Definition Walk_result (r : Walk_end) : option error :=
  match r with
  | end_Done => None
  | end_cursor_error e | end_visit_error e => Some e
  end.

(** The exchange between a cursor over [items], at its k-th call, and the
    callback: what the service answers and what the callback returns, up to
    the first of the three ends. *)
Inductive cursor_run {A : Type} (rootPath : string) (process : A → gcsFile → A * option error)
    (f : faults) : list storage.ObjectAttrs → nat → A → Walk_end → A → Prop :=
| run_done_signalled items k acc e :
    f (call_Next k) = Some e → errors_Is e iterator_Done = true →
    cursor_run rootPath process f items k acc end_Done acc
| run_cursor_error items k acc e :
    f (call_Next k) = Some e → errors_Is e iterator_Done = false →
    cursor_run rootPath process f items k acc (end_cursor_error e) acc
| run_done k acc :
    f (call_Next k) = None →
    cursor_run rootPath process f [] k acc end_Done acc
| run_visit_error object items k acc acc' e :
    f (call_Next k) = None →
    process acc (Walk_entry rootPath object) = (acc', Some e) →
    cursor_run rootPath process f (object :: items) k acc (end_visit_error e) acc'
| run_visit object items k acc acc' r acc'' :
    f (call_Next k) = None →
    process acc (Walk_entry rootPath object) = (acc', None) →
    cursor_run rootPath process f items (S k) acc' r acc'' →
    cursor_run rootPath process f (object :: items) k acc r acc''.

(** Lines 217-224 of PutFile: the write stream as PutFile sets it up. *)
Definition PutFile_writer (gcs : GCS) (pClientObj : handle) (key : string) : storage.Writer :=
  let writer :=
    storage.set_StorageClass (StorageClass (Config gcs))
      (storage.NewWriter pClientObj (Bucket (Config gcs)) (path_Join [Path (Config gcs); key])) in
  if bool_decide (0 < length (ObjectLabels (Config gcs)))%nat
  then storage.set_Metadata (ObjectLabels (Config gcs)) writer
  else writer.

(** Two write streams to the same object with the same settings. *)
Definition same_target (a b : storage.Writer) : Prop :=
  storage.wr_client a = storage.wr_client b ∧ storage.wr_bucket a = storage.wr_bucket b
  ∧ storage.wr_name a = storage.wr_name b ∧ storage.StorageClass a = storage.StorageClass b
  ∧ storage.Metadata a = storage.Metadata b.

(** From [w] to [w'] nothing has changed but, at most, that a failed call
    was remembered against [h]. *)
Definition only_marks (h : handle) (w w' : World) : Prop :=
  pool w' = pool w ∧ objects w' = objects w ∧ clock w' = clock w ∧ logged w' = logged w
  ∧ failed w ⊆ failed w' ∧ failed w' ⊆ {[h]} ∪ failed w
  ∧ missed w ⊆ missed w' ∧ missed w' ⊆ {[h]} ∪ missed w.

(** A pool is well formed: no handle is in two states or twice idle, and
    every handle was made by the factory. *)
Definition pool_ok (p : Pool) : Prop :=
  NoDup (idle p)
  ∧ (∀ h, h ∈ idle p → (h ∉ borrowed p) ∧ (h ∉ destroyed p) ∧ (h < created p)%nat)
  ∧ (∀ h, h ∈ borrowed p → (h ∉ destroyed p) ∧ (h < created p)%nat)
  ∧ (∀ h, h ∈ destroyed p → (h < created p)%nat).

(** Between two operations: every handle on which a call failed has been
    destroyed, and every handle on which a call found its object missing has
    been destroyed or is still borrowed. *)
Definition settled (w : World) : Prop :=
  pool_ok (pool w) ∧ failed w ⊆ destroyed (pool w)
  ∧ missed w ⊆ destroyed (pool w) ∪ borrowed (pool w).

(** Inside an operation that has borrowed [h]: every call on it has
    succeeded so far ([clean]), or one may have failed ([dirty]). *)
Definition clean (h : handle) (w : World) : Prop :=
  settled w ∧ h ∈ borrowed (pool w) ∧ (h ∉ missed w).

Definition dirty (h : handle) (w : World) : Prop :=
  pool_ok (pool w) ∧ h ∈ borrowed (pool w) ∧ failed w ⊆ {[h]} ∪ destroyed (pool w)
  ∧ missed w ⊆ destroyed (pool w) ∪ borrowed (pool w).

(** From [w] to [w'] the pool is the same, and at most a failed call or a
    missing object was remembered against [h] ([marks]) or nothing was
    ([quiet]). *)
Definition marks (h : handle) (w w' : World) : Prop :=
  pool w' = pool w ∧ failed w ⊆ failed w' ∧ failed w' ⊆ {[h]} ∪ failed w
  ∧ missed w ⊆ missed w' ∧ missed w' ⊆ {[h]} ∪ missed w.

Definition quiet (w w' : World) : Prop :=
  pool w' = pool w ∧ failed w' = failed w ∧ missed w' = missed w.

(** The ghost records only grow. *)
Definition grows (w w' : World) : Prop :=
  failed w ⊆ failed w' ∧ missed w ⊆ missed w'.

(** One operation of the client, under any faults of the service and, for
    Walk, any callback. *)
Inductive step (gcs : GCS) : World → World → Prop :=
| step_Walk (A : Type) gcsPath recursive (process : A → gcsFile → A * option error) acc f w :
    step gcs w (snd (Walk gcs gcsPath recursive process acc f w))
| step_GetFileReader key f w :
    step gcs w (snd (GetFileReader gcs key f w))
| step_PutFile key r f w :
    step gcs w (snd (PutFile gcs key r f w))
| step_StatFile key f w :
    step gcs w (snd (StatFile gcs key f w))
| step_deleteKey key f w :
    step gcs w (snd (deleteKey gcs key f w))
| step_CopyObject srcBucket srcKey dstKey f w :
    step gcs w (snd (CopyObject gcs srcBucket srcKey dstKey f w)).

(** The worlds a sequence of operations leads to after Connect. *)
Definition reachable (gcs : GCS) (w : World) : Prop :=
  ∃ objs now, rtc (step gcs) (Connect gcs objs now) w.

(** The key an item of a listing stands for: the common prefix, else the
    object's name. *)
Definition listed_key (object : storage.ObjectAttrs) : string :=
  if bool_decide (storage.Prefix object ≠ "") then storage.Prefix object
  else storage.Name object.

(** The handles a pool holds, idle or lent. *)
Definition live_handles (p : Pool) : Z :=
  Z.of_nat (length (idle p)) + Z.of_nat (stdpp.base.size (borrowed p)).

(** A caller that asks StatFile about one key after another. *)
Fixpoint StatFile_each (gcs : GCS) (keys : list string) : M (list (result gcsFile)) :=
  match keys with
  | [] => ret []
  | key :: keys =>
      r ← StatFile gcs key;
      rs ← StatFile_each gcs keys;
      ret (r :: rs)
  end.

(** An option that says how the client authenticates. *)
Definition is_authentication {N : Type} (o : ClientOption N) : bool :=
  match o with
  | WithoutAuthentication | WithCredentialsJSON _ | WithCredentialsFile _ => true
  | _ => false
  end.

(** An option that carries credentials. *)
Definition is_credentials {N : Type} (o : ClientOption N) : bool :=
  match o with
  | WithCredentialsJSON _ | WithCredentialsFile _ => true
  | _ => false
  end.

(** The borrow of [h], lent in [w1], is over in [w']: ReturnObject or
    InvalidateObject was called on the handle. *)
Definition borrow_ended (h : handle) (w1 w' : World) : Prop :=
  pool w' = pool_return h (pool w1) ∨ pool w' = pool_invalidate h (pool w1).

(** The handle is destroyed: neither idle nor lent. *)
Definition handle_invalidated (h : handle) (w : World) : Prop :=
  h ∈ destroyed (pool w) ∧ (h ∉ idle (pool w)) ∧ (h ∉ borrowed (pool w)).

(** * Properties *)

(** ** Concrete data for the examples *)

Definition gcs0 : GCS := mkGCS (mkGCSConfig "bkt" "" "disks" "STANDARD" [] 1).

Definition obj0 (c : list byte) : Object := mkObject c "STANDARD" [] 0.

(** A bucket that holds exactly the keys a/x, a/y and b. *)
Definition three_keys (cx cy cb : list byte) : gmap (string * string) Object :=
  <[("bkt", "a/x") := obj0 cx]> (<[("bkt", "a/y") := obj0 cy]> (<[("bkt", "b") := obj0 cb]> ∅)).

(** A callback that records what it is shown. *)
Definition collect (acc : list gcsFile) (file : gcsFile) : list gcsFile * option error :=
  ((acc ++ [file])%list, None).

Definition close_fails : faults :=
  λ c, match c with call_Close => Some (backend_error "503") | _ => None end.

Definition delete_fails : faults :=
  λ c, match c with call_Delete => Some (backend_error "503") | _ => None end.

Definition second_Next_fails : faults :=
  λ c, match c with call_Next 1 => Some (backend_error "503") | _ => None end.

(** The world after Connect over a bucket with the three keys, all empty. *)
Definition world0 : World := Connect gcs0 (three_keys [] [] []) 0.

(** A base transport that counts the requests and answers 200 to GET and
    fails on anything else. *)
Definition counting_transport : RoundTripper nat := λ r n,
  if bool_decide (Request.Method r = "GET")
  then ((Some (Response.mk 200 [("Content-Length", ["0"])] []), None), S n)
  else ((None, Some (backend_error "method not allowed")), S n).

Definition first_Write_fails : faults :=
  λ c, match c with call_Write 0 => Some (backend_error "503") | _ => None end.

Definition NewClient_fails : faults :=
  λ c, match c with call_NewClient => Some (backend_error "dial") | _ => None end.

(** A configuration with an endpoint of its own and credentials besides. *)
Definition emulator_config : GCSConnectConfig :=
  mkGCSConnectConfig "http://localhost:4443/storage/v1/" "{}" "" "/etc/key.json" true.

(** The options Connect builds from it in debug mode. *)
Definition emulator_options : list (ClientOption nat) :=
  [WithoutAuthentication; WithTelemetryDisabled;
   WithEndpoint "http://localhost:4443/storage/v1/";
   WithDefaultEndpoint "http://localhost:4443/storage/v1/";
   WithHTTPClient (mkDebugGCSTransport counting_transport)].

(** A request that carries a token. *)
Definition signed_request : Request.t :=
  Request.mk "GET" "https://storage.googleapis.com/storage/v1/b/bkt/o"
    [("Accept", ["*/*"]); ("Authorization", ["Bearer ya29.token"])] [].

(** ** The library models on known values *)

Example path_Join_ex1 : path_Join ["a"; "b/c"] = "a/b/c". Proof. reflexivity. Qed.
Example path_Join_ex2 : path_Join ["a/b"; "../../../xyz"] = "../xyz". Proof. reflexivity. Qed.
Example path_Join_ex3 : path_Join [""; ""] = "". Proof. reflexivity. Qed.
Example path_Join_ex4 : path_Join ["a"; ""] = "a". Proof. reflexivity. Qed.
Example path_Join_ex5 : path_Join [""; "/"] = "/". Proof. reflexivity. Qed.
Example path_Join_ex6 : path_Join ["/backup/"; "/shard0//x"] = "/backup/shard0/x".
Proof. reflexivity. Qed.
Example path_Clean_ex1 : path_Clean "/../a/b/../././/c" = "/a/c". Proof. reflexivity. Qed.
Example path_Clean_ex2 : path_Clean "a/../.." = "..". Proof. reflexivity. Qed.
Example path_Clean_ex3 : path_Clean "./" = ".". Proof. reflexivity. Qed.
Example TrimPrefix_ex1 : strings_TrimPrefix "backup/a" "backup" = "/a". Proof. reflexivity. Qed.
Example TrimPrefix_ex2 : strings_TrimPrefix "a" "a" = "". Proof. reflexivity. Qed.
Example TrimPrefix_ex3 : strings_TrimPrefix "a/" "/" = "a/". Proof. reflexivity. Qed.
Example errors_Is_ex1 :
  errors_Is (wrapped "stat" storage_ErrObjectNotExist) storage_ErrObjectNotExist = true.
Proof. reflexivity. Qed.

Example list_objects_ex1 cx cy cb :
  storage.Name <$> storage.list_objects (three_keys cx cy cb) "bkt" "" "" = ["a/x"; "a/y"; "b"].
Proof. reflexivity. Qed.
Example list_objects_ex2 cx cy cb :
  (λ a, (storage.Name a, storage.Prefix a)) <$> storage.list_objects (three_keys cx cy cb) "bkt" "" "/"
  = [("b", ""); ("", "a/")].
Proof. reflexivity. Qed.
Example list_objects_ex3 cx cy cb :
  storage.list_objects (three_keys cx cy cb) "bkt" "/" "/" = [].
Proof. reflexivity. Qed.

(** ** The pool *)

Lemma BorrowObject_Ok f w h w1 :
  BorrowObject f w = (Ok h, w1) →
  h ∈ borrowed (pool w1) ∧ objects w1 = objects w ∧ clock w1 = clock w
  ∧ logged w1 = logged w ∧ failed w1 = failed w ∧ missed w1 = missed w.
Proof.
  unfold BorrowObject. intros H.
  destruct (idle (pool w)) as [|h' rest].
  - destruct (can_create (pool w)); [|discriminate].
    destruct (f call_NewClient); [discriminate|].
    injection H as <- <-. cbn. split; [set_solver | done].
  - injection H as <- <-. cbn. split; [set_solver | done].
Qed.

Lemma service_call_pool h c f w oe w' :
  service_call h c f w = (oe, w') →
  pool w' = pool w ∧ objects w' = objects w ∧ clock w' = clock w ∧ logged w' = logged w.
Proof.
  unfold service_call. intros H. destruct (f c) as [e|].
  - injection H as <- <-.
    by destruct (errors_Is e iterator_Done), (errors_Is e storage_ErrObjectNotExist).
  - by injection H as <- <-.
Qed.

Lemma Attrs_pool h bucket key f w r w' :
  storage.Attrs h bucket key f w = (r, w') →
  pool w' = pool w ∧ objects w' = objects w ∧ clock w' = clock w ∧ logged w' = logged w.
Proof.
  unfold storage.Attrs, bind, ret. intros H.
  destruct (service_call h call_Attrs f w) as [oe w1] eqn:Hc.
  apply service_call_pool in Hc. destruct oe; [by injection H as <- <-|].
  unfold object_missing in H. destruct (objects w1 !! _); by injection H as <- <-.
Qed.

(** ** StatFile on a missing object *)

(** C1 (what the code does): when the attributes fetch reports that the
    object is missing, StatFile returns ErrNotFound, and it returns at once:
    the pool is as the borrow left it, the handle still counted as borrowed,
    neither returned nor invalidated. *)
Theorem StatFile_missing_keeps_handle_borrowed gcs key f w h w1 e w2 :
  BorrowObject f w = (Ok h, w1) →
  storage.Attrs h (Bucket (Config gcs)) (path_Join [Path (Config gcs); key]) f w1 = (Err e, w2) →
  errors_Is e storage_ErrObjectNotExist = true →
  StatFile gcs key f w = (Err ErrNotFound, w2)
  ∧ pool w2 = pool w1 ∧ h ∈ borrowed (pool w2).
Proof.
  intros Hb Ha He. unfold StatFile, bind. rewrite Hb, Ha, He.
  split; [done|]. apply Attrs_pool in Ha as (Hp & _).
  apply BorrowObject_Ok in Hb as (Hh & _). rewrite Hp. done.
Qed.

(** At a pool of one handle: StatFile of a missing key answers ErrNotFound
    and leaves the only handle borrowed, no handle idle; the next call
    finds the pool exhausted although the object it asks for exists. *)
Lemma StatFile_missing_keeps_handle_borrowed_witness :
  ∃ w2, StatFile gcs0 "zz" no_faults world0 = (Err ErrNotFound, w2)
        ∧ idle (pool w2) = [] ∧ 0%nat ∈ borrowed (pool w2)
        ∧ fst (StatFile gcs0 "b" no_faults w2) = Err context_DeadlineExceeded.
Proof.
  destruct (StatFile_missing_keeps_handle_borrowed gcs0 "zz" no_faults world0 0%nat
              (snd (BorrowObject no_faults world0)) storage_ErrObjectNotExist
              (mark_missed 0%nat (snd (BorrowObject no_faults world0))))
    as (Hs & Hp & Hh); [reflexivity | reflexivity | reflexivity |].
  eexists. split; [exact Hs|]. split; [reflexivity|]. split; [exact Hh|]. reflexivity.
Defined.

(** ** GetFileReaderWithLocalPath *)

(** C10: GetFileReaderWithLocalPath ignores its local path: for every key
    and every local path it is GetFileReader on the key, as an operation on
    the world. *)
Theorem GetFileReaderWithLocalPath_is_GetFileReader gcs key localPath :
  GetFileReaderWithLocalPath gcs key localPath = GetFileReader gcs key.
Proof. reflexivity. Qed.

(** ** The prefix of a walk *)

(** C4 (as the claim states it, refuted): under an empty configured root the
    empty relative path joins to the empty string, not to "/", and the
    prefix of the listing is "/", not the empty string. *)
Lemma Walk_prefix_of_empty_path_is_slash :
  Path (Config gcs0) = "" ∧ Walk_rootPath gcs0 "" = "" ∧ Walk_prefix gcs0 "" = "/"
  ∧ Walk_prefix gcs0 "" ≠ "".
Proof. repeat split; discriminate. Qed.

Example Walk_prefix_of_root_path : Walk_prefix gcs0 "/" = "".
Proof. reflexivity. Qed.

Example Walk_prefix_of_dir : Walk_prefix gcs0 "shadow/1" = "shadow/1/".
Proof. reflexivity. Qed.

(** C4 (amended): the cursor of a walk lists the bucket under the joined
    key followed by "/", and under the empty prefix exactly when the joined
    key is "/" itself. *)
Theorem Walk_lists_under_prefix {A : Type} gcs gcsPath recursive
    (process : A → gcsFile → A * option error) acc f w h w1 :
  BorrowObject f w = (Ok h, w1) →
  let rootPath := path_Join [Path (Config gcs); gcsPath] in
  let prefix := if bool_decide (rootPath = "/") then "" else rootPath +:+ "/" in
  Walk gcs gcsPath recursive process acc f w
  = Walk_loop h rootPath process
      (storage.mkIterator h
         (storage.list_objects (objects w1) (Bucket (Config gcs)) prefix
            (if recursive then "" else "/")) 0)
      acc f w1
  ∧ (prefix = "" ↔ rootPath = "/").
Proof.
  intros Hb rootPath prefix. split.
  - unfold Walk, bind. rewrite Hb. unfold storage.Objects.
    unfold Walk_prefix, Walk_rootPath, Walk_delimiter. fold rootPath. fold prefix.
    by destruct recursive.
  - unfold prefix. case_bool_decide as Hr; [done|].
    split; [|done]. intros He. destruct rootPath; discriminate.
Qed.

Lemma Walk_lists_under_prefix_witness :
  Walk gcs0 "/" false collect [] no_faults world0
  = Walk_loop 0%nat "/" collect
      (storage.mkIterator 0%nat (storage.list_objects (three_keys [] [] []) "bkt" "" "/") 0)
      [] no_faults (snd (BorrowObject no_faults world0)).
Proof.
  apply (Walk_lists_under_prefix gcs0 "/" false collect [] no_faults world0 0%nat
           (snd (BorrowObject no_faults world0))).
  reflexivity.
Defined.

(** ** A walk over three keys *)

(** C5 (as the claim states it, refuted): rooted at the empty path under an
    empty configured root, a walk over the keys a/x, a/y and b visits
    nothing, recursive or not: it lists under the prefix "/". *)
Lemma Walk_three_keys_at_empty_path_visits_nothing :
  fst (Walk gcs0 "" false collect [] no_faults world0) = (None, [])
  ∧ fst (Walk gcs0 "" true collect [] no_faults world0) = (None, []).
Proof. split; reflexivity. Qed.

(** C5 (amended): rooted at "/" under an empty configured root, a walk over
    exactly the keys a/x, a/y and b that is not recursive visits two
    entries, the object b and the directory a/, and nothing below a/; a
    recursive walk visits the three objects a/x, a/y and b. *)
Theorem Walk_three_keys_at_root cx cy cb now :
  fst (Walk gcs0 "/" false collect [] no_faults (Connect gcs0 (three_keys cx cy cb) now))
  = (None, [mkGcsFile (Z.of_nat (length cb)) 0 "b"; mkGcsFile 0 0 "a/"])
  ∧ fst (Walk gcs0 "/" true collect [] no_faults (Connect gcs0 (three_keys cx cy cb) now))
  = (None, [mkGcsFile (Z.of_nat (length cx)) 0 "a/x";
            mkGcsFile (Z.of_nat (length cy)) 0 "a/y";
            mkGcsFile (Z.of_nat (length cb)) 0 "b"]).
Proof. split; vm_compute; reflexivity. Qed.

(** ** CopyObject *)

(** C8: a CopyObject that succeeds has fetched the attributes of the source
    object, returns the size they report, and has made the service store
    the source's content under the object-disk root joined with the
    caller's destination path, in the configured bucket. *)
Theorem CopyObject_success gcs srcBucket srcKey dstKey f w n w' :
  CopyObject gcs srcBucket srcKey dstKey f w = ((n, None), w') →
  ∃ h w1 attrs o,
    BorrowObject f w = (Ok h, w1)
    ∧ storage.Attrs h srcBucket srcKey f w1 = (Ok attrs, w1)
    ∧ n = storage.Size attrs
    ∧ objects w !! (srcBucket, srcKey) = Some o
    ∧ n = Z.of_nat (length (content o))
    ∧ objects w'
      = <[(Bucket (Config gcs), path_Join [ObjectDiskPath (Config gcs); dstKey])
          := mkObject (content o) (storageClass o) (metadata o) (clock w)]> (objects w).
Proof.
  unfold CopyObject, bind. intros H.
  destruct (BorrowObject f w) as [[h|e] w1] eqn:Hb; [|discriminate].
  pose proof (BorrowObject_Ok _ _ _ _ Hb) as (_ & Ho & Hc & _).
  unfold storage.Attrs, storage.CopierRun, bind, ret, service_call in *.
  destruct (f call_Attrs); [discriminate|].
  destruct (objects w1 !! (srcBucket, srcKey)) as [o|] eqn:Hl; [|discriminate].
  destruct (f call_CopierRun); [discriminate|].
  rewrite Hl in H. cbn in H. injection H as <- <-.
  exists h, w1, (storage.attrs_of srcKey o), o.
  rewrite Hl, <- Ho, <- Hc. done.
Qed.

Lemma CopyObject_success_witness :
  objects (snd (CopyObject gcs0 "bkt" "a/y" "d/1" no_faults
                  (Connect gcs0 (three_keys [] [x01; x02] []) 7)))
  = <[("bkt", "disks/d/1") := mkObject [x01; x02] "STANDARD" [] 7]> (three_keys [] [x01; x02] []).
Proof.
  destruct (CopyObject_success gcs0 "bkt" "a/y" "d/1" no_faults
              (Connect gcs0 (three_keys [] [x01; x02] []) 7) 2
              (snd (CopyObject gcs0 "bkt" "a/y" "d/1" no_faults
                      (Connect gcs0 (three_keys [] [x01; x02] []) 7))))
    as (h & w1 & attrs & o & _ & _ & _ & Ho & _ & Hw); [vm_compute; reflexivity|].
  rewrite Hw. vm_compute in Ho. injection Ho as <-. reflexivity.
Defined.

(** ** The diagnostic transport *)

Lemma RoundTrip_nil_nil_panics {N : Type} (t : debugGCSTransport N) r net log :
  fst (base t r net) = (None, None) → RoundTrip t r net log = None.
Proof. unfold RoundTrip. destruct (base t r net) as [[resp err] net']. by intros [= -> ->]. Qed.

(** C9: for every request the diagnostic transport hands the request itself
    to the base transport and returns what the base transport returns,
    response, error and network state, and only adds lines to the log. The
    base transport keeps the contract of http.RoundTripper: it does not
    return a nil response with a nil error. *)
Theorem RoundTrip_returns_base {N : Type} (t : debugGCSTransport N) r net log :
  fst (base t r net) ≠ (None, None) →
  ∃ entries, RoundTrip t r net log = Some (base t r net, (log ++ entries)%list).
Proof.
  unfold RoundTrip. destruct (base t r net) as [[resp err] net'] eqn:Hb. cbn. intros Hn.
  destruct err as [e|]; [|destruct resp as [rs|]; [|done]]; eexists;
    rewrite <- app_assoc; reflexivity.
Qed.

Lemma RoundTrip_returns_base_witness :
  ∃ entries,
    RoundTrip (mkDebugGCSTransport counting_transport)
      (Request.mk "GET" "https://storage.googleapis.com/b" [("Accept", ["a"; "b"])] []) 0%nat []
    = Some (((Some (Response.mk 200 [("Content-Length", ["0"])] []), None), 1%nat), ([] ++ entries)%list).
Proof.
  apply (RoundTrip_returns_base (mkDebugGCSTransport counting_transport)
           (Request.mk "GET" "https://storage.googleapis.com/b" [("Accept", ["a"; "b"])] []) 0%nat []).
  discriminate.
Defined.

Example RoundTrip_log_lines :
  snd <$> RoundTrip (mkDebugGCSTransport counting_transport)
      (Request.mk "GET" "u" [("Accept", ["a"; "b"])] []) 0%nat []
  = Some [log_Info (">>> [GCS_REQUEST] >>> GET u" +:+ newline +:+ "Accept: a" +:+ newline
                    +:+ "Accept: b" +:+ newline);
          log_Info ("<<< [GCS_RESPONSE] <<< GET u" +:+ newline +:+ "Content-Length: 0" +:+ newline)].
Proof. reflexivity. Qed.

(** ** The loops, one turn at a time *)

Lemma Walk_loop_step {A : Type} h rootPath (process : A → gcsFile → A * option error)
    it acc f w :
  Walk_loop h rootPath process it acc f w
  = match storage.Next it f w with
    | ((Err err, _), w1) =>
        if errors_Is err iterator_Done
        then ((None, acc), snd (ReturnObject h f w1))
        else ((Some err, acc), snd (InvalidateObject h f w1))
    | ((Ok object, it'), w1) =>
        match process acc (Walk_entry rootPath object) with
        | (acc', Some err) => ((Some err, acc'), snd (InvalidateObject h f w1))
        | (acc', None) => Walk_loop h rootPath process it' acc' f w1
        end
    end.
Proof.
  funelim (Walk_loop h rootPath process it acc f w);
    try (rewrite Hn; unfold Walk_entry; rewrite Heq0, Heq; cbn; congruence).
  rewrite e. reflexivity.
Qed.

Lemma copy_loop_step {W : Type} (Write : W → list byte → M ((Z * option error) * W))
    cap src dst written f w :
  copy_loop Write cap src dst written f w
  = match Reader_Read cap src with
    | ((buf, er), src') =>
        match write_chunk Write buf dst written f w with
        | (((written', Some ew), dst'), w') => (((written', Some ew), dst'), w')
        | (((written', None), dst'), w') =>
            match er with
            | None => copy_loop Write cap src' dst' written' f w'
            | Some er =>
                (((written', if error_eqb er io_EOF then None else Some er), dst'), w')
            end
        end
    end.
Proof.
  funelim (copy_loop Write cap src dst written f w);
    rewrite Hr, Heq; cbn; congruence.
Qed.

(** ** How a walk ends *)

Lemma cursor_run_total {A : Type} rootPath (process : A → gcsFile → A * option error) f items :
  ∀ k acc, ∃ r acc', cursor_run rootPath process f items k acc r acc'.
Proof.
  induction items as [|object items IH]; intros k acc.
  - destruct (f (call_Next k)) as [e|] eqn:Hf.
    + destruct (errors_Is e iterator_Done) eqn:He; eauto using @cursor_run.
    + eauto using @cursor_run.
  - destruct (f (call_Next k)) as [e|] eqn:Hf.
    + destruct (errors_Is e iterator_Done) eqn:He; eauto using @cursor_run.
    + destruct (process acc (Walk_entry rootPath object)) as [acc' [e|]] eqn:Hp.
      * eauto using @cursor_run.
      * destruct (IH (S k) acc') as (r & acc'' & Hr). eauto using @cursor_run.
Qed.

Lemma Walk_loop_ends {A : Type} h rootPath (process : A → gcsFile → A * option error)
    f items k acc r acc' :
  cursor_run rootPath process f items k acc r acc' →
  ∀ w, ∃ w',
    Walk_loop h rootPath process (storage.mkIterator h items k) acc f w
    = ((Walk_result r, acc'), w')
    ∧ objects w' = objects w
    ∧ pool w' = match r with
                | end_Done => pool_return h (pool w)
                | _ => pool_invalidate h (pool w)
                end.
Proof.
  induction 1 as [items k acc e Hf He | items k acc e Hf He | k acc Hf
                 | object items k acc acc' e Hf Hp
                 | object items k acc acc' r acc'' Hf Hp Hrun IH]; intros w;
    rewrite Walk_loop_step; unfold storage.Next, bind, service_call, ret; cbn;
    rewrite Hf.
  - rewrite He. eexists. split; [reflexivity|]. done.
  - rewrite He. eexists. split; [reflexivity|].
    by destruct (errors_Is e storage_ErrObjectNotExist).
  - eexists. split; [reflexivity|]. done.
  - rewrite Hp. eexists. split; [reflexivity|]. done.
  - rewrite Hp. apply IH.
Qed.

(** C6: in every Walk that has borrowed a handle, the exchange between the
    cursor and the callback ends in one of three ways. When the cursor
    signals iterator.Done, Walk returns nil and hands the handle back to the
    pool, where it is idle. When the cursor fails with any other error, or
    the callback returns an error, Walk stops there, invalidates the handle,
    which is destroyed and not idle, and returns exactly that error. *)
Theorem Walk_end_of_cursor {A : Type} gcs gcsPath recursive
    (process : A → gcsFile → A * option error) acc acc' f w h w1 r :
  BorrowObject f w = (Ok h, w1) →
  cursor_run (Walk_rootPath gcs gcsPath) process f
    (storage.list_objects (objects w1) (Bucket (Config gcs)) (Walk_prefix gcs gcsPath)
       (Walk_delimiter recursive))
    0 acc r acc' →
  ∃ w', Walk gcs gcsPath recursive process acc f w = ((Walk_result r, acc'), w')
    ∧ match r with
      | end_Done =>
          pool w' = pool_return h (pool w1)
          ∧ idle (pool w') = h :: idle (pool w1) ∧ (h ∉ borrowed (pool w'))
          ∧ destroyed (pool w') = destroyed (pool w1)
      | end_cursor_error e | end_visit_error e =>
          pool w' = pool_invalidate h (pool w1)
          ∧ h ∈ destroyed (pool w') ∧ (h ∉ borrowed (pool w'))
          ∧ idle (pool w') = idle (pool w1)
      end.
Proof.
  intros Hb Hrun. unfold Walk, bind. rewrite Hb. unfold storage.Objects.
  destruct (Walk_loop_ends h _ _ _ _ _ _ _ _ Hrun w1) as (w' & Hw & _ & Hp).
  exists w'. split; [exact Hw|].
  apply BorrowObject_Ok in Hb as (Hh & _).
  assert (Hret : pool_return h (pool w1)
                 = mkPool (h :: idle (pool w1)) (borrowed (pool w1) ∖ {[h]})
                     (destroyed (pool w1)) (created (pool w1)) (MaxTotal (pool w1))).
  { unfold pool_return. by rewrite bool_decide_eq_true_2. }
  assert (Hinv : pool_invalidate h (pool w1)
                 = mkPool (idle (pool w1)) (borrowed (pool w1) ∖ {[h]})
                     ({[h]} ∪ destroyed (pool w1)) (created (pool w1)) (MaxTotal (pool w1))).
  { unfold pool_invalidate. by rewrite bool_decide_eq_true_2. }
  destruct r; rewrite Hp; (split; [done|]);
    rewrite ?Hret, ?Hinv; cbn; set_solver.
Qed.

Lemma Walk_end_of_cursor_witness :
  ∃ w', Walk gcs0 "/" false collect [] second_Next_fails world0
        = ((Some (backend_error "503"), [mkGcsFile 0 0 "b"]), w')
        ∧ pool w' = pool_invalidate 0%nat (pool (snd (BorrowObject second_Next_fails world0)))
        ∧ 0%nat ∈ destroyed (pool w') ∧ (0%nat ∉ borrowed (pool w'))
        ∧ idle (pool w') = [].
Proof.
  apply (Walk_end_of_cursor gcs0 "/" false collect [] [mkGcsFile 0 0 "b"]
           second_Next_fails world0 0%nat (snd (BorrowObject second_Next_fails world0))
           (end_cursor_error (backend_error "503"))).
  - reflexivity.
  - vm_compute storage.list_objects.
    eapply run_visit; [reflexivity | reflexivity |].
    eapply run_cursor_error; reflexivity.
Defined.

(** ** Write streams and the copy loop *)

Lemma only_marks_refl h w : only_marks h w w.
Proof. unfold only_marks. set_solver. Qed.

Lemma only_marks_trans h w1 w2 w3 :
  only_marks h w1 w2 → only_marks h w2 w3 → only_marks h w1 w3.
Proof.
  unfold only_marks. intros (-> & -> & -> & -> & ? & ?) (-> & -> & -> & -> & ? & ?).
  set_solver.
Qed.

Lemma service_call_spec h c f w oe w' :
  service_call h c f w = (oe, w') →
  oe = f c ∧ only_marks h w w' ∧ (oe = None → w' = w).
Proof.
  unfold service_call. intros H. destruct (f c) as [e|].
  - injection H as <- <-. split; [done|]. split; [|done].
    destruct (errors_Is e iterator_Done); [apply only_marks_refl|].
    destruct (errors_Is e storage_ErrObjectNotExist);
      unfold only_marks, mark_failed, mark_missed; cbn; set_solver.
  - injection H as <- <-. split; [done|]. split; [apply only_marks_refl | done].
Qed.

Lemma Write_spec wr p f w n e wr' w' :
  storage.Write wr p f w = (((n, e), wr'), w') →
  same_target wr wr'
  ∧ only_marks (storage.wr_client wr) w w'
  ∧ (storage.wr_err wr ≠ None → storage.wr_err wr' ≠ None)
  ∧ (storage.wr_err wr' = None → w' = w)
  ∧ (e = None →
     storage.wr_err wr = None ∧ storage.wr_err wr' = None
     ∧ storage.wr_sent wr' = (storage.wr_sent wr ++ p)%list
     ∧ n = Z.of_nat (length p)).
Proof.
  unfold storage.Write, bind, ret. intros H.
  destruct (storage.wr_err wr) as [e0|] eqn:He0.
  - injection H as <- <- <- <-. rewrite He0.
    split; [done|]. split; [apply only_marks_refl | done].
  - destruct (service_call _ _ f w) as [oe w1] eqn:Hc.
    apply service_call_spec in Hc as (_ & Hm & Hn).
    destruct oe as [e1|]; injection H as <- <- <- <-; cbn;
      (split; [done|]); (split; [done|]); (split; [done|]); split; try done.
    all: intros _; by apply Hn.
Qed.

Lemma write_chunk_spec buf dst written f w written' ew dst' w' :
  write_chunk storage.Write buf dst written f w = (((written', ew), dst'), w') →
  same_target dst dst'
  ∧ only_marks (storage.wr_client dst) w w'
  ∧ (storage.wr_err dst ≠ None → storage.wr_err dst' ≠ None)
  ∧ (storage.wr_err dst' = None → w' = w)
  ∧ (ew = None →
     storage.wr_err dst' = storage.wr_err dst
     ∧ storage.wr_sent dst' = (storage.wr_sent dst ++ buf)%list).
Proof.
  unfold write_chunk, bind, ret. intros H. case_bool_decide as Hnr.
  - destruct (storage.Write dst buf f w) as [[[nw e] dst1] w1] eqn:HW.
    apply Write_spec in HW as (Ht & Hm & Hmono & Hclean & He).
    destruct e as [e|].
    + destruct (bool_decide (nw < 0) || bool_decide (Z.of_nat (length buf) < nw));
        injection H as <- <- <- <-; done.
    + destruct He as (He1 & He2 & Hs & ->); [done|].
      rewrite !bool_decide_eq_false_2 in H by lia. cbn in H.
      rewrite bool_decide_eq_false_2 in H by (intros Hne; by apply Hne).
      injection H as <- <- <- <-.
      split; [done|]. split; [done|]. split; [done|]. split; [done|].
      intros _. split; [congruence | done].
  - injection H as <- <- <- <-. destruct buf; [|cbn in Hnr; lia].
    rewrite app_nil_r. split; [done|]. split; [apply only_marks_refl | done].
Qed.

Lemma Reader_Read_data cap src buf er src' :
  Reader_Read cap src = ((buf, er), src') →
  r_data src = (buf ++ r_data src')%list ∧ r_end src' = r_end src
  ∧ match er with
    | None => True
    | Some e => e = r_end src ∧ r_data src = []
    end.
Proof.
  unfold Reader_Read. destruct (r_data src) as [|b l] eqn:Hd.
  - intros [= <- <- <-]. by rewrite Hd.
  - intros [= <- <- <-]. cbn [r_data r_end]. by rewrite take_drop.
Qed.

Lemma Reader_Read_progress cap src buf src' :
  Reader_Read cap src = ((buf, None), src') →
  (length (r_data src') < length (r_data src))%nat.
Proof.
  unfold Reader_Read. destruct (r_data src) as [|b l] eqn:Hd; [discriminate|].
  intros [= <- <-]. cbn [r_data]. rewrite length_drop.
  case_bool_decide; cbn [length]; lia.
Qed.

Lemma same_target_trans a b c : same_target a b → same_target b c → same_target a c.
Proof. unfold same_target. intuition congruence. Qed.

(** Whatever a copy into a write stream returns, it has changed nothing in
    the world but the record of failed calls, and that only if the stream
    has failed. *)
Lemma copy_loop_world cap f src :
  ∀ dst written w res dst' w',
  copy_loop storage.Write cap src dst written f w = ((res, dst'), w') →
  same_target dst dst'
  ∧ only_marks (storage.wr_client dst) w w'
  ∧ (storage.wr_err dst ≠ None → storage.wr_err dst' ≠ None)
  ∧ (storage.wr_err dst' = None → w' = w).
Proof.
  remember (length (r_data src)) as m eqn:Hm. revert src Hm.
  induction m as [m IH] using lt_wf_ind. intros src -> dst written w res dst' w' Hres.
  rewrite copy_loop_step in Hres.
  destruct (Reader_Read cap src) as [[buf er] src'] eqn:Hr.
  destruct (write_chunk storage.Write buf dst written f w) as [[[written' ew] dst1] w1] eqn:Hw.
  apply write_chunk_spec in Hw as (Ht & Hm & Hmono & Hclean & _).
  destruct ew as [ew|]; [by injection Hres as <- <- <-|].
  destruct er as [er|]; [by injection Hres as <- <- <-|].
  apply Reader_Read_progress in Hr.
  destruct (IH _ Hr src' eq_refl _ _ _ _ _ _ Hres) as (Ht1 & Hm1 & Hmono1 & Hclean1).
  assert (Hc : storage.wr_client dst1 = storage.wr_client dst) by (symmetry; apply Ht).
  rewrite Hc in Hm1.
  split; [by eapply same_target_trans|]. split; [by eapply only_marks_trans|].
  split; [auto|]. intros Hnone.
  rewrite (Hclean1 Hnone). apply Hclean.
  destruct (storage.wr_err dst1) as [e1|] eqn:He1; [|done].
  exfalso. apply Hmono1; [congruence | done].
Qed.

(** A copy that reports no error has read its source to the end, which was
    io.EOF, and has written every byte of it once, in order. *)
Lemma copy_loop_sends_all cap f src :
  ∀ dst written w n dst' w',
  copy_loop storage.Write cap src dst written f w = (((n, None), dst'), w') →
  storage.wr_err dst = None →
  storage.wr_sent dst' = (storage.wr_sent dst ++ r_data src)%list
  ∧ storage.wr_err dst' = None ∧ r_end src = io_EOF.
Proof.
  remember (length (r_data src)) as m eqn:Hm. revert src Hm.
  induction m as [m IH] using lt_wf_ind. intros src -> dst written w n dst' w' Hres Herr.
  rewrite copy_loop_step in Hres.
  destruct (Reader_Read cap src) as [[buf er] src'] eqn:Hr.
  destruct (write_chunk storage.Write buf dst written f w) as [[[written' ew] dst1] w1] eqn:Hw.
  destruct ew as [ew|]; [discriminate|].
  apply write_chunk_spec in Hw as (_ & _ & _ & _ & He).
  destruct He as (He & Hs); [done|].
  pose proof (Reader_Read_data _ _ _ _ _ Hr) as (Hd & Hend & Her).
  destruct er as [er|].
  - destruct Her as [-> Hnil].
    destruct (error_eqb (r_end src) io_EOF) eqn:Heof; [|discriminate].
    injection Hres as <- <- <-.
    rewrite Hnil in Hd. symmetry in Hd. apply app_eq_nil in Hd as [-> _].
    rewrite Hs, Hnil. repeat split; try done; try congruence.
    destruct (r_end src); try discriminate; reflexivity.
  - apply Reader_Read_progress in Hr.
    destruct (IH _ Hr src' eq_refl _ _ _ _ _ _ Hres) as (Hs1 & He1 & Hend1); [congruence|].
    rewrite Hs1, Hs, Hd, <- app_assoc. repeat split; try done; congruence.
Qed.

Lemma Close_spec wr f w oe w' :
  storage.Close wr f w = (oe, w') →
  match oe with
  | Some e =>
      only_marks (storage.wr_client wr) w w'
      ∧ (storage.wr_err wr = Some e ∨ (storage.wr_err wr = None ∧ f call_Close = Some e))
  | None =>
      storage.wr_err wr = None ∧ f call_Close = None
      ∧ w' = store_object (storage.wr_bucket wr) (storage.wr_name wr)
               (mkObject (storage.wr_sent wr) (storage.StorageClass wr) (storage.Metadata wr) 0) w
  end.
Proof.
  unfold storage.Close, bind, ret. intros H.
  destruct (storage.wr_err wr) as [e0|] eqn:He0.
  - injection H as <- <-. split; [apply only_marks_refl | by left].
  - destruct (service_call _ _ f w) as [oe1 w1] eqn:Hc.
    apply service_call_spec in Hc as (Hf & Hm & Hn).
    destruct oe1 as [e1|]; injection H as <- <-.
    + split; [done | by right].
    + rewrite (Hn eq_refl). done.
Qed.

(** ** PutFile *)

Lemma PutFile_borrowed gcs key r f w h w1 :
  BorrowObject f w = (Ok h, w1) →
  PutFile gcs key r f w
  = let '(((_, err), writer), w2) :=
      io_CopyBuffer storage.Write (PutFile_writer gcs h key) r (512 * 1024) f w1 in
    (err, snd (PutFile_deferred h writer f w2)).
Proof.
  intros Hb. unfold PutFile, bind. rewrite Hb. fold (PutFile_writer gcs h key).
  destruct (io_CopyBuffer _ _ _ _ f w1) as [[[n err] writer] w2].
  by destruct (PutFile_deferred h writer f w2).
Qed.

Lemma pool_invalidate_borrowed h p :
  h ∈ borrowed p →
  pool_invalidate h p
  = mkPool (idle p) (borrowed p ∖ {[h]}) ({[h]} ∪ destroyed p) (created p) (MaxTotal p).
Proof. intros Hh. unfold pool_invalidate. by rewrite bool_decide_eq_true_2. Qed.

Lemma pool_return_borrowed h p :
  h ∈ borrowed p →
  pool_return h p
  = mkPool (h :: idle p) (borrowed p ∖ {[h]}) (destroyed p) (created p) (MaxTotal p).
Proof. intros Hh. unfold pool_return. by rewrite bool_decide_eq_true_2. Qed.

(** C2 (the failing input): the copy reports no error, the close of the
    write stream fails, and PutFile returns nil, not the failure of the
    close. *)
Lemma PutFile_returns_nil_when_close_fails :
  close_fails call_Close = Some (backend_error "503")
  ∧ fst (PutFile gcs0 "c" (mkReader [x68; x69] 0 io_EOF) close_fails world0) = None.
Proof. split; reflexivity. Qed.

(** C2 (what the code does): when the close of the write stream fails,
    PutFile invalidates the borrowed handle and writes the failure to the
    log as a warning, and there the failure ends: what PutFile returns is
    the error of the copy, so nil when the copy reported none, whatever the
    close failed with. Nothing is stored. *)
Theorem PutFile_close_failure gcs key r f w h w1 n err writer w2 e w3 :
  BorrowObject f w = (Ok h, w1) →
  io_CopyBuffer storage.Write (PutFile_writer gcs h key) r (512 * 1024) f w1
  = (((n, err), writer), w2) →
  storage.Close writer f w2 = (Some e, w3) →
  ∃ w', PutFile gcs key r f w = (err, w')
    ∧ pool w' = pool_invalidate h (pool w1)
    ∧ h ∈ destroyed (pool w') ∧ (h ∉ borrowed (pool w')) ∧ idle (pool w') = idle (pool w1)
    ∧ objects w' = objects w
    ∧ logged w' = (logged w ++ [log_Warn ("can't close writer: " +:+ error_string e)])%list.
Proof.
  intros Hb Hcopy Hclose. rewrite (PutFile_borrowed _ _ _ _ _ _ _ Hb), Hcopy.
  eexists. split; [reflexivity|].
  unfold PutFile_deferred, bind. rewrite Hclose. cbn.
  apply copy_loop_world in Hcopy as (_ & (Hp & Ho & _ & Hl & _) & _).
  apply Close_spec in Hclose as ((Hp3 & Ho3 & _ & Hl3 & _) & _).
  apply BorrowObject_Ok in Hb as (Hh & Ho1 & _ & Hl1 & _).
  rewrite Hp3, Hp, Ho3, Ho, Ho1, Hl3, Hl, Hl1.
  rewrite (pool_invalidate_borrowed _ _ Hh). cbn.
  split; [done|]. split; [set_solver|]. split; [set_solver|]. done.
Qed.

Lemma PutFile_close_failure_witness :
  ∃ w', PutFile gcs0 "c" (mkReader [x68; x69] 0 io_EOF) close_fails world0 = (None, w')
    ∧ pool w' = pool_invalidate 0%nat (pool (snd (BorrowObject close_fails world0)))
    ∧ 0%nat ∈ destroyed (pool w') ∧ (0%nat ∉ borrowed (pool w')) ∧ idle (pool w') = []
    ∧ objects w' = three_keys [] [] []
    ∧ logged w' = [log_Warn "can't close writer: 503"].
Proof.
  apply (PutFile_close_failure gcs0 "c" (mkReader [x68; x69] 0 io_EOF) close_fails world0
           0%nat (snd (BorrowObject close_fails world0)) 2 None
           (storage.mkWriter 0%nat "bkt" "c" "STANDARD" [] [x68; x69] 1 None)
           (snd (BorrowObject close_fails world0)) (backend_error "503")
           (mark_failed 0%nat (snd (BorrowObject close_fails world0)))).
  - reflexivity.
  - vm_compute. reflexivity.
  - reflexivity.
Defined.

(** ** Round trip *)

(** C7 (the failing input): PutFile returns nil although the close of the
    write stream failed, and the stream GetFileReader then opens on the
    same path carries the bytes of the object as it was, not the input. *)
Lemma PutFile_nil_then_GetFileReader_old_bytes :
  fst (PutFile gcs0 "b" (mkReader [x6e; x65; x77] 0 io_EOF) close_fails
         (Connect gcs0 (three_keys [] [] [x6f; x6c; x64]) 0)) = None
  ∧ fst (GetFileReader gcs0 "b" no_faults
           (snd (PutFile gcs0 "b" (mkReader [x6e; x65; x77] 0 io_EOF) close_fails
                   (Connect gcs0 (three_keys [] [] [x6f; x6c; x64]) 0))))
    = Ok (mkReader [x6f; x6c; x64] 0 io_EOF).
Proof. split; vm_compute; reflexivity. Qed.

Lemma GetFileReader_Ok gcs key f w stream w' :
  GetFileReader gcs key f w = (Ok stream, w') →
  ∃ o, objects w !! (Bucket (Config gcs), path_Join [Path (Config gcs); key]) = Some o
       ∧ stream = mkReader (content o) 0 io_EOF.
Proof.
  unfold GetFileReader, bind. intros H.
  destruct (BorrowObject f w) as [[h|e] w1] eqn:Hb; [|discriminate].
  apply BorrowObject_Ok in Hb as (_ & Ho & _).
  unfold storage.NewReader, bind, ret in H.
  destruct (service_call h call_NewReader f w1) as [oe w2] eqn:Hc.
  apply service_call_spec in Hc as (_ & _ & Hn).
  destruct oe as [e|]; [discriminate|]. rewrite (Hn eq_refl), Ho in H.
  destruct (objects w !! _) as [o|]; [|discriminate].
  injection H as <- _. by exists o.
Qed.

(** C7 (what the code does): when PutFile returns nil, the stream
    GetFileReader then opens on the same path ends with io.EOF and carries

    - exactly the bytes of the input, once and in order, when the close of
      the write stream did not fail: for every path and every input stream,
      of any length and delivered in pieces of any size, copied through the
      buffer of 512 KiB;
    - the bytes of the object that was there before the call, when the
      close failed: PutFile has returned nil all the same, and nothing was
      stored. *)
Theorem PutFile_GetFileReader_round_trip gcs key r f w w1 f' stream w2 :
  PutFile gcs key r f w = (None, w1) →
  GetFileReader gcs key f' w1 = (Ok stream, w2) →
  r_end stream = io_EOF
  ∧ (f call_Close = None → r_data stream = r_data r)
  ∧ (∀ e, f call_Close = Some e →
       ∃ o, objects w !! (Bucket (Config gcs), path_Join [Path (Config gcs); key]) = Some o
            ∧ r_data stream = content o).
Proof.
  intros Hput Hget.
  apply GetFileReader_Ok in Hget as (o & Hlook & ->). cbn [r_data r_end].
  split; [done|].
  unfold PutFile, bind in Hput.
  destruct (BorrowObject f w) as [[h|e] w0] eqn:Hb; [|discriminate].
  fold (PutFile_writer gcs h key) in Hput.
  destruct (io_CopyBuffer _ _ _ _ f w0) as [[[n err] writer] w3] eqn:Hcopy.
  destruct (PutFile_deferred h writer f w3) as [[] w4] eqn:Hdef.
  injection Hput as -> ->.
  pose proof (copy_loop_world _ _ _ _ _ _ _ _ _ Hcopy) as (Ht & (_ & Ho3 & _) & _).
  apply copy_loop_sends_all in Hcopy as (Hsent & Herr & _);
    [|unfold PutFile_writer; by case_bool_decide].
  apply BorrowObject_Ok in Hb as (_ & Ho0 & _).
  unfold PutFile_deferred, bind in Hdef.
  destruct (storage.Close writer f w3) as [oe w5] eqn:HC.
  apply Close_spec in HC.
  destruct oe as [e|].
  - destruct HC as ((_ & Ho5 & _) & [He | [_ He]]); [congruence|].
    injection Hdef as <-. cbn in Hlook. rewrite Ho5, Ho3, Ho0 in Hlook.
    split; [congruence|]. intros _ _. by exists o.
  - destruct HC as (_ & Hclose & ->). injection Hdef as <-.
    split; [|congruence]. intros _.
    destruct Ht as (_ & Hbk & Hnm & _).
    rewrite <- Hbk, <- Hnm in Hlook.
    assert (Hb0 : storage.wr_bucket (PutFile_writer gcs h key) = Bucket (Config gcs))
      by (unfold PutFile_writer; by case_bool_decide).
    assert (Hn0 : storage.wr_name (PutFile_writer gcs h key) = path_Join [Path (Config gcs); key])
      by (unfold PutFile_writer; by case_bool_decide).
    assert (Hs0 : storage.wr_sent (PutFile_writer gcs h key) = [])
      by (unfold PutFile_writer; by case_bool_decide).
    rewrite Hb0, Hn0 in Hlook. cbn in Hlook.
    rewrite lookup_insert_eq in Hlook. injection Hlook as <-. cbn.
    by rewrite Hsent, Hs0.
Qed.

Lemma PutFile_GetFileReader_round_trip_witness :
  fst (PutFile gcs0 "b" (mkReader [x6e; x65; x77] 2 io_EOF) no_faults
         (Connect gcs0 (three_keys [] [] [x6f; x6c; x64]) 0)) = None
  ∧ fst (GetFileReader gcs0 "b" no_faults
           (snd (PutFile gcs0 "b" (mkReader [x6e; x65; x77] 2 io_EOF) no_faults
                   (Connect gcs0 (three_keys [] [] [x6f; x6c; x64]) 0))))
    = Ok (mkReader [x6e; x65; x77] 0 io_EOF)
  ∧ r_data (mkReader [x6e; x65; x77] 0 io_EOF) = r_data (mkReader [x6e; x65; x77] 2 io_EOF)
  ∧ ∃ o, objects (Connect gcs0 (three_keys [] [] [x6f; x6c; x64]) 0) !! ("bkt", "b") = Some o
         ∧ r_data (mkReader [x6f; x6c; x64] 0 io_EOF) = content o.
Proof.
  split; [vm_compute; reflexivity|]. split; [vm_compute; reflexivity|].
  split.
  - destruct (PutFile_GetFileReader_round_trip gcs0 "b" (mkReader [x6e; x65; x77] 2 io_EOF)
                no_faults (Connect gcs0 (three_keys [] [] [x6f; x6c; x64]) 0)
                (snd (PutFile gcs0 "b" (mkReader [x6e; x65; x77] 2 io_EOF) no_faults
                        (Connect gcs0 (three_keys [] [] [x6f; x6c; x64]) 0)))
                no_faults (mkReader [x6e; x65; x77] 0 io_EOF)
                (snd (GetFileReader gcs0 "b" no_faults
                        (snd (PutFile gcs0 "b" (mkReader [x6e; x65; x77] 2 io_EOF) no_faults
                                (Connect gcs0 (three_keys [] [] [x6f; x6c; x64]) 0))))))
      as (_ & Hstored & _).
    + vm_compute. reflexivity.
    + vm_compute. reflexivity.
    + apply Hstored. reflexivity.
  - destruct (PutFile_GetFileReader_round_trip gcs0 "b" (mkReader [x6e; x65; x77] 0 io_EOF)
                close_fails (Connect gcs0 (three_keys [] [] [x6f; x6c; x64]) 0)
                (snd (PutFile gcs0 "b" (mkReader [x6e; x65; x77] 0 io_EOF) close_fails
                        (Connect gcs0 (three_keys [] [] [x6f; x6c; x64]) 0)))
                no_faults (mkReader [x6f; x6c; x64] 0 io_EOF)
                (snd (GetFileReader gcs0 "b" no_faults
                        (snd (PutFile gcs0 "b" (mkReader [x6e; x65; x77] 0 io_EOF) close_fails
                                (Connect gcs0 (three_keys [] [] [x6f; x6c; x64]) 0))))))
      as (_ & _ & Hold).
    + vm_compute. reflexivity.
    + vm_compute. reflexivity.
    + apply (Hold (backend_error "503")). reflexivity.
Defined.

(** Without faults, and with a handle to borrow, PutFile of an input that
    ends in io.EOF returns nil and stores the input, whatever its length
    and the size of its pieces. *)
Lemma copy_loop_no_faults cap src :
  r_end src = io_EOF →
  ∀ dst written w, storage.wr_err dst = None →
  ∃ n dst', copy_loop storage.Write cap src dst written no_faults w = (((n, None), dst'), w).
Proof.
  intros Hend. remember (length (r_data src)) as m eqn:Hm. revert src Hm Hend.
  induction m as [m IH] using lt_wf_ind. intros src -> Hend dst written w Herr.
  rewrite copy_loop_step.
  destruct (Reader_Read cap src) as [[buf er] src'] eqn:Hr.
  assert (Hw : ∃ written' dst1,
             write_chunk storage.Write buf dst written no_faults w = (((written', None), dst1), w)
             ∧ storage.wr_err dst1 = None).
  { unfold write_chunk, bind, ret, storage.Write, service_call, no_faults. rewrite Herr.
    case_bool_decide; [|by eauto]. cbn.
    rewrite !bool_decide_eq_false_2 by lia. cbn.
    rewrite bool_decide_eq_false_2 by (intros Hne; by apply Hne). eauto. }
  destruct Hw as (written' & dst1 & -> & Herr1).
  pose proof (Reader_Read_data _ _ _ _ _ Hr) as (_ & Hend' & Her).
  destruct er as [er|].
  - destruct Her as [-> _]. rewrite Hend. cbn. eauto.
  - apply Reader_Read_progress in Hr.
    apply (IH _ Hr src' eq_refl); congruence.
Qed.

Lemma PutFile_no_faults gcs key data most w h w1 :
  BorrowObject no_faults w = (Ok h, w1) →
  ∃ w', PutFile gcs key (mkReader data most io_EOF) no_faults w = (None, w')
    ∧ (content <$> objects w' !! (Bucket (Config gcs), path_Join [Path (Config gcs); key]))
      = Some data.
Proof.
  intros Hb. rewrite (PutFile_borrowed _ _ _ _ _ _ _ Hb).
  assert (He0 : storage.wr_err (PutFile_writer gcs h key) = None)
    by (unfold PutFile_writer; by case_bool_decide).
  unfold io_CopyBuffer.
  destruct (copy_loop_no_faults (512 * 1024) (mkReader data most io_EOF) eq_refl
              (PutFile_writer gcs h key) 0 w1 He0) as (n & writer & Hcopy).
  rewrite Hcopy. eexists. split; [reflexivity|].
  pose proof (copy_loop_world _ _ _ _ _ _ _ _ _ Hcopy) as ((_ & Hbk & Hnm & _) & _).
  apply copy_loop_sends_all in Hcopy as (Hsent & Herr & _); [|done].
  unfold PutFile_deferred, bind, storage.Close, service_call, ret, no_faults.
  rewrite Herr. cbn. rewrite <- Hbk, <- Hnm, Hsent.
  replace (storage.wr_bucket (PutFile_writer gcs h key)) with (Bucket (Config gcs))
    by (unfold PutFile_writer; by case_bool_decide).
  replace (storage.wr_name (PutFile_writer gcs h key)) with (path_Join [Path (Config gcs); key])
    by (unfold PutFile_writer; by case_bool_decide).
  replace (storage.wr_sent (PutFile_writer gcs h key)) with (@nil byte)
    by (unfold PutFile_writer; by case_bool_decide).
  by rewrite lookup_insert_eq.
Qed.

(** ** Failed handles *)

Lemma quiet_marks h w w' : quiet w w' → marks h w w'.
Proof. unfold quiet, marks. intros (-> & -> & ->). set_solver. Qed.

Lemma marks_grows h w w' : marks h w w' → grows w w'.
Proof. unfold marks, grows. tauto. Qed.

Lemma grows_trans w1 w2 w3 : grows w1 w2 → grows w2 w3 → grows w1 w3.
Proof. unfold grows. set_solver. Qed.

Lemma only_marks_marks h w w' : only_marks h w w' → marks h w w'.
Proof. unfold only_marks, marks. tauto. Qed.

Lemma marks_trans h w1 w2 w3 : marks h w1 w2 → marks h w2 w3 → marks h w1 w3.
Proof. unfold marks. intros (-> & ? & ? & ? & ?) (-> & ? & ? & ? & ?). set_solver. Qed.

Lemma clean_dirty h w : clean h w → dirty h w.
Proof. unfold clean, dirty, settled. intros ((? & ? & ?) & ? & ?). set_solver. Qed.

Lemma dirty_marks h w w' : dirty h w → marks h w w' → dirty h w'.
Proof.
  unfold dirty, marks. intros (? & ? & ? & ?) (-> & ? & ? & ? & ?).
  split; [done|]. split; [done|]. split; set_solver.
Qed.

Lemma clean_quiet h w w' : clean h w → quiet w w' → clean h w'.
Proof. unfold clean, settled, quiet. intros ((? & ? & ?) & ? & ?) (-> & -> & ->). done. Qed.

(** After a call found its object missing, and none failed, the world is
    settled with the handle still borrowed. *)
Lemma clean_missed_settled h w w' :
  clean h w → marks h w w' → failed w' = failed w → settled w'.
Proof.
  unfold clean, settled, marks. intros ((? & ? & ?) & ? & ?) (-> & ? & ? & ? & ?) ->.
  split; [done|]. split; set_solver.
Qed.

Lemma BorrowObject_Err f w e w1 : BorrowObject f w = (Err e, w1) → w1 = w.
Proof.
  unfold BorrowObject. destruct (idle (pool w)); [|discriminate].
  destruct (can_create (pool w)); [|by intros [= _ <-]].
  destruct (f call_NewClient); [by intros [= _ <-] | discriminate].
Qed.

Lemma BorrowObject_clean f w h w1 :
  settled w → BorrowObject f w = (Ok h, w1) →
  clean h w1 ∧ failed w1 = failed w ∧ missed w1 = missed w.
Proof.
  unfold settled, pool_ok, clean, settled, pool_ok, BorrowObject.
  intros ((Hnd & Hi & Hb & Hd) & Hf & Hm) H.
  destruct (idle (pool w)) as [|h' rest] eqn:Hidle.
  - destruct (can_create (pool w)); [|discriminate].
    destruct (f call_NewClient); [discriminate|].
    injection H as <- <-. cbn.
    assert (Hfresh : created (pool w) ∉ missed w).
    { intros [Hx%Hd | Hx%Hb]%Hm%elem_of_union; lia. }
    split; [|done]. split; [|set_solver].
    split; [|set_solver]. split; [constructor|]. split; [set_solver|].
    split.
    + intros h [->%elem_of_singleton | Hin]%elem_of_union.
      * split; [|lia]. intros Hin%Hd. lia.
      * destruct (Hb h Hin). split; [done | lia].
    + intros h Hin%Hd. lia.
  - injection H as <- <-. cbn.
    apply NoDup_cons in Hnd as [Hnin Hnd].
    destruct (Hi h') as (Hnb & Hndes & Hlt); [set_solver|].
    assert (Hfresh : h' ∉ missed w) by set_solver.
    split; [|done]. split; [|set_solver].
    split; [|set_solver]. split; [done|]. split.
    + intros h Hin. destruct (Hi h) as (? & ? & ?); [set_solver|].
      split; [|done]. intros [->%elem_of_singleton | ?]%elem_of_union; done.
    + split; [|done].
      intros h [->%elem_of_singleton | Hin]%elem_of_union; [done | by apply Hb].
Qed.

Lemma clean_ReturnObject h f w : clean h w → settled (snd (ReturnObject h f w)).
Proof.
  unfold clean, settled, pool_ok. intros (((Hnd & Hi & Hb & Hd) & Hf & Hm) & Hh & Hnm). cbn.
  rewrite (pool_return_borrowed _ _ Hh). cbn. split; [|set_solver].
  split. { apply NoDup_cons. split; [|done]. intros Hin. by destruct (Hi h Hin). }
  split.
  - intros h0 [-> | Hin]%elem_of_cons.
    + destruct (Hb h Hh). split; [set_solver | done].
    + destruct (Hi h0 Hin) as (? & ? & ?). split; [set_solver | done].
  - split; [|done]. intros h0 Hin. apply Hb. set_solver.
Qed.

Lemma dirty_InvalidateObject h f w : dirty h w → settled (snd (InvalidateObject h f w)).
Proof.
  unfold dirty, settled, pool_ok. intros ((Hnd & Hi & Hb & Hd) & Hh & Hf & Hm). cbn.
  rewrite (pool_invalidate_borrowed _ _ Hh). cbn.
  split; [|split; [set_solver|]].
  - split; [done|]. split.
    + intros h0 Hin. destruct (Hi h0 Hin) as (? & ? & ?). split; [set_solver|].
      split; [|done]. intros [->%elem_of_singleton | ?]%elem_of_union; done.
    + split.
      * intros h0 [Hin Hne]%elem_of_difference. destruct (Hb h0 Hin). split; [|done].
        intros [?%elem_of_singleton | ?]%elem_of_union; [set_solver | done].
      * intros h0 [->%elem_of_singleton | Hin]%elem_of_union; [by apply Hb | by apply Hd].
  - intros h0 Hin. destruct (decide (h0 = h)) as [-> | Hne]; [set_solver|].
    apply Hm in Hin. set_solver.
Qed.

Lemma service_call_marks h c f w oe w' :
  service_call h c f w = (oe, w') →
  marks h w w'
  ∧ match oe with
    | None => w' = w
    | Some e =>
        (errors_Is e iterator_Done = true → w' = w)
        ∧ (errors_Is e storage_ErrObjectNotExist = true → failed w' = failed w)
    end.
Proof.
  intros H. pose proof (service_call_spec _ _ _ _ _ _ H) as (_ & Hm & Hn).
  split; [by apply only_marks_marks|].
  destruct oe as [e|]; [|by apply Hn].
  unfold service_call in H. destruct (f c) as [e'|]; [|discriminate].
  injection H as -> <-.
  split; intros He; [by rewrite He|].
  rewrite He. by destruct (errors_Is e iterator_Done).
Qed.

Lemma object_missing_marks {A : Type} h f w (r : result A) w' :
  object_missing h f w = (r, w') →
  marks h w w' ∧ failed w' = failed w ∧ r = Err storage_ErrObjectNotExist.
Proof.
  unfold object_missing. intros [= <- <-]. unfold marks, mark_missed. cbn. set_solver.
Qed.

Lemma Attrs_marks h bucket key f w r w' :
  storage.Attrs h bucket key f w = (r, w') →
  marks h w w'
  ∧ match r with
    | Ok _ => w' = w
    | Err e => errors_Is e storage_ErrObjectNotExist = true → failed w' = failed w
    end.
Proof.
  unfold storage.Attrs, bind, ret. intros H.
  destruct (service_call h call_Attrs f w) as [oe w1] eqn:Hc.
  apply service_call_marks in Hc as (Hm & Hq).
  destruct oe as [e|].
  - injection H as <- <-. split; [done | apply Hq].
  - subst w1. destruct (objects w !! _).
    + by injection H as <- <-.
    + apply object_missing_marks in H as (? & ? & ->). done.
Qed.

Lemma NewReader_marks h bucket key f w r w' :
  storage.NewReader h bucket key f w = (r, w') →
  marks h w w' ∧ match r with Ok _ => w' = w | Err _ => True end.
Proof.
  unfold storage.NewReader, bind, ret. intros H.
  destruct (service_call h call_NewReader f w) as [oe w1] eqn:Hc.
  apply service_call_marks in Hc as (Hm & Hq).
  destruct oe as [e|].
  - by injection H as <- <-.
  - subst w1. destruct (objects w !! _).
    + by injection H as <- <-.
    + apply object_missing_marks in H as (? & ? & ->). done.
Qed.

Lemma Delete_marks h bucket key f w oe w' :
  storage.Delete h bucket key f w = (oe, w') →
  marks h w w' ∧ match oe with None => quiet w w' | Some _ => True end.
Proof.
  unfold storage.Delete, bind, ret. intros H.
  destruct (service_call h call_Delete f w) as [oe1 w1] eqn:Hc.
  apply service_call_marks in Hc as (Hm & Hq).
  destruct oe1 as [e|].
  - by injection H as <- <-.
  - subst w1. destruct (objects w !! _); injection H as <- <-.
    + split; [apply quiet_marks|]; done.
    + split; [|done]. unfold marks, mark_missed. cbn. set_solver.
Qed.

Lemma CopierRun_marks h sb sk db dk f w r w' :
  storage.CopierRun h sb sk db dk f w = (r, w') →
  marks h w w' ∧ match r with Ok _ => quiet w w' | Err _ => True end.
Proof.
  unfold storage.CopierRun, bind, ret. intros H.
  destruct (service_call h call_CopierRun f w) as [oe1 w1] eqn:Hc.
  apply service_call_marks in Hc as (Hm & Hq).
  destruct oe1 as [e|].
  - by injection H as <- <-.
  - subst w1. destruct (objects w !! _).
    + injection H as <- <-. split; [apply quiet_marks|]; done.
    + apply object_missing_marks in H as (? & ? & ->). done.
Qed.

Lemma Close_marks wr f w oe w' :
  storage.Close wr f w = (oe, w') →
  marks (storage.wr_client wr) w w'
  ∧ match oe with None => storage.wr_err wr = None ∧ quiet w w' | Some _ => True end.
Proof.
  intros H. apply Close_spec in H. destruct oe as [e|].
  - destruct H as [Hm _]. split; [by apply only_marks_marks | done].
  - destruct H as (He & _ & ->). split; [by apply quiet_marks | done].
Qed.

Lemma dirty_add_log h l w : dirty h (add_log l w) ↔ dirty h w.
Proof. done. Qed.

Lemma marks_refl h w : marks h w w.
Proof. unfold marks. set_solver. Qed.

Lemma borrow_grows h w w1 w2 w3 :
  failed w1 = failed w → missed w1 = missed w → marks h w1 w2 →
  failed w3 = failed w2 → missed w3 = missed w2 → grows w w3.
Proof. unfold marks, grows. intros <- <- (_ & ? & _ & ? & _) -> ->. done. Qed.

Ltac grown :=
  eapply borrow_grows;
  [eassumption | eassumption | first [eassumption | apply marks_refl | by apply quiet_marks]
  | reflexivity | reflexivity].

Ltac invalidated h f w1 :=
  apply (dirty_InvalidateObject h f), (dirty_marks h w1); [by apply clean_dirty | done].

Lemma Walk_loop_settled {A : Type} h rootPath (process : A → gcsFile → A * option error)
    f items :
  ∀ k acc w, clean h w →
  settled (snd (Walk_loop h rootPath process (storage.mkIterator h items k) acc f w))
  ∧ grows w (snd (Walk_loop h rootPath process (storage.mkIterator h items k) acc f w)).
Proof.
  induction items as [|object items IH]; intros k acc w Hc;
    rewrite Walk_loop_step; unfold storage.Next, bind, ret;
    cbn [storage.it_client storage.it_calls storage.it_items];
    destruct (service_call h (call_Next k) f w) as [oe w1] eqn:Hs;
    apply service_call_marks in Hs as (Hm & Hq);
    pose proof (marks_grows _ _ _ Hm) as Hg.
  - destruct oe as [e|].
    + destruct Hq as [Hq _]. destruct (errors_Is e iterator_Done) eqn:He.
      * rewrite Hq by done. split; [by apply (clean_ReturnObject h f) | done].
      * split; [invalidated h f w | done].
    + subst w1. cbn. split; [by apply (clean_ReturnObject h f) | done].
  - destruct oe as [e|].
    + destruct Hq as [Hq _]. destruct (errors_Is e iterator_Done) eqn:He.
      * rewrite Hq by done. split; [by apply (clean_ReturnObject h f) | done].
      * split; [invalidated h f w | done].
    + subst w1. destruct (process acc (Walk_entry rootPath object)) as [acc' [e|]].
      * split; [|done]. by apply (dirty_InvalidateObject h f), clean_dirty.
      * by apply IH.
Qed.

Lemma Walk_settled {A : Type} gcs gcsPath recursive (process : A → gcsFile → A * option error)
    acc f w :
  settled w →
  settled (snd (Walk gcs gcsPath recursive process acc f w))
  ∧ grows w (snd (Walk gcs gcsPath recursive process acc f w)).
Proof.
  intros Hs. unfold Walk, bind.
  destruct (BorrowObject f w) as [[h|e] w1] eqn:Hb.
  - apply BorrowObject_clean in Hb as (Hc & Hf & Hmi); [|done].
    unfold storage.Objects.
    destruct (Walk_loop_settled h (Walk_rootPath gcs gcsPath) process f
                (storage.list_objects (objects w1) (Bucket (Config gcs))
                   (Walk_prefix gcs gcsPath) (Walk_delimiter recursive)) 0 acc w1 Hc)
      as [Hs' Hg].
    split; [done|]. unfold grows in *. by rewrite <- Hf, <- Hmi.
  - apply BorrowObject_Err in Hb as ->. done.
Qed.

Lemma GetFileReader_settled gcs key f w :
  settled w →
  settled (snd (GetFileReader gcs key f w)) ∧ grows w (snd (GetFileReader gcs key f w)).
Proof.
  intros Hs. unfold GetFileReader, bind.
  destruct (BorrowObject f w) as [[h|e] w1] eqn:Hb.
  - apply BorrowObject_clean in Hb as (Hc & Hf & Hmi); [|done].
    destruct (storage.NewReader _ _ _ f w1) as [[r|e] w2] eqn:Hr;
      apply NewReader_marks in Hr as (Hm & Hq).
    + subst w2. split; [by apply (clean_ReturnObject h f) | grown].
    + split; [invalidated h f w1 | grown].
  - apply BorrowObject_Err in Hb as ->. done.
Qed.

Lemma StatFile_settled gcs key f w :
  settled w →
  settled (snd (StatFile gcs key f w)) ∧ grows w (snd (StatFile gcs key f w)).
Proof.
  intros Hs. unfold StatFile, bind.
  destruct (BorrowObject f w) as [[h|e] w1] eqn:Hb.
  - apply BorrowObject_clean in Hb as (Hc & Hf & Hmi); [|done].
    destruct (storage.Attrs _ _ _ f w1) as [[a|e] w2] eqn:Ha;
      apply Attrs_marks in Ha as (Hm & Hq).
    + subst w2. split; [by apply (clean_ReturnObject h f) | grown].
    + destruct (errors_Is e storage_ErrObjectNotExist) eqn:He.
      * split; [by apply (clean_missed_settled h w1 w2); auto | grown].
      * split; [invalidated h f w1 | grown].
  - apply BorrowObject_Err in Hb as ->. done.
Qed.

Lemma deleteKey_settled gcs key f w :
  settled w →
  settled (snd (deleteKey gcs key f w)) ∧ grows w (snd (deleteKey gcs key f w)).
Proof.
  intros Hs. unfold deleteKey, bind.
  destruct (BorrowObject f w) as [[h|e] w1] eqn:Hb.
  - apply BorrowObject_clean in Hb as (Hc & Hf & Hmi); [|done].
    destruct (storage.Delete _ _ _ f w1) as [[e|] w2] eqn:Hd;
      apply Delete_marks in Hd as (Hm & Hq).
    + split; [invalidated h f w1 | grown].
    + split; [by apply (clean_ReturnObject h f), (clean_quiet h w1) | grown].
  - apply BorrowObject_Err in Hb as ->. done.
Qed.

Lemma CopyObject_settled gcs srcBucket srcKey dstKey f w :
  settled w →
  settled (snd (CopyObject gcs srcBucket srcKey dstKey f w))
  ∧ grows w (snd (CopyObject gcs srcBucket srcKey dstKey f w)).
Proof.
  intros Hs. unfold CopyObject, bind.
  destruct (BorrowObject f w) as [[h|e] w1] eqn:Hb.
  - apply BorrowObject_clean in Hb as (Hc & Hf & Hmi); [|done].
    destruct (storage.Attrs _ _ _ f w1) as [[a|e] w2] eqn:Ha;
      apply Attrs_marks in Ha as (Hm & Hq).
    + subst w2.
      destruct (storage.CopierRun _ _ _ _ _ f w1) as [[c|e] w3] eqn:Hr;
        apply CopierRun_marks in Hr as (Hm3 & Hq3).
      * split; [|grown].
        apply (clean_ReturnObject h f), (clean_quiet h w1); [done|].
        destruct Hq3 as (Hp3 & Hf3 & Hmi3). split; done.
      * split; [invalidated h f w1 | grown].
    + split; [invalidated h f w1 | grown].
  - apply BorrowObject_Err in Hb as ->. done.
Qed.

Lemma PutFile_settled gcs key r f w :
  settled w →
  settled (snd (PutFile gcs key r f w)) ∧ grows w (snd (PutFile gcs key r f w)).
Proof.
  intros Hs. destruct (BorrowObject f w) as [[h|e] w1] eqn:Hb.
  - rewrite (PutFile_borrowed _ _ _ _ _ _ _ Hb).
    apply BorrowObject_clean in Hb as (Hc & Hf & Hmi); [|done].
    destruct (io_CopyBuffer _ _ _ _ f w1) as [[[n err] writer] w2] eqn:Hcopy.
    apply copy_loop_world in Hcopy as ((Hcl & _) & Hom & _ & Hclean).
    assert (Hh : storage.wr_client (PutFile_writer gcs h key) = h)
      by (unfold PutFile_writer; by case_bool_decide).
    rewrite Hh in Hom, Hcl. apply only_marks_marks in Hom as Hm.
    unfold PutFile_deferred, bind. cbn [snd].
    destruct (storage.Close writer f w2) as [[e|] w3] eqn:HC;
      apply Close_marks in HC as (Hm3 & Hq3); rewrite <- Hcl in Hm3;
      pose proof (marks_trans _ _ _ _ Hm Hm3) as Hm13.
    + split; [|grown].
      apply (dirty_InvalidateObject h f), dirty_add_log, (dirty_marks h w1);
        [by apply clean_dirty | done].
    + destruct Hq3 as (Hnone & Hq3). rewrite (Hclean Hnone) in Hq3.
      split; [by apply (clean_ReturnObject h f), (clean_quiet h w1) | grown].
  - unfold PutFile, bind. rewrite Hb. apply BorrowObject_Err in Hb as ->. done.
Qed.

Lemma step_settled gcs w w' :
  step gcs w w' → settled w → settled w' ∧ grows w w'.
Proof.
  destruct 1; auto using @Walk_settled, GetFileReader_settled, PutFile_settled,
    StatFile_settled, deleteKey_settled, CopyObject_settled.
Qed.

Lemma steps_settled gcs w w' :
  rtc (step gcs) w w' → settled w → settled w' ∧ grows w w'.
Proof.
  induction 1 as [w | w w1 w2 Hstep _ IH]; [done|]. intros Hs.
  destruct (step_settled _ _ _ Hstep Hs) as [Hs1 Hg1].
  destruct (IH Hs1) as [Hs2 Hg2]. split; [done | by eapply grows_trans].
Qed.

Lemma Connect_settled gcs objs now : settled (Connect gcs objs now).
Proof.
  unfold settled, pool_ok, Connect. cbn. split; [|set_solver].
  split; [constructor|]. split; [set_solver|]. split; set_solver.
Qed.

Lemma settled_failed h w :
  settled w → h ∈ failed w →
  h ∈ destroyed (pool w) ∧ (h ∉ borrowed (pool w)).
Proof.
  unfold settled, pool_ok. intros ((Hnd & Hi & Hb & Hd) & Hf & Hm) Hin.
  assert (Hdes : h ∈ destroyed (pool w)) by set_solver.
  split; [done|]. intros Hx. by destruct (Hb h Hx).
Qed.

Lemma settled_not_idle h w :
  settled w → h ∈ failed w ∪ missed w →
  (h ∉ idle (pool w)) ∧ ∀ f h' w', BorrowObject f w = (Ok h', w') → h' ≠ h.
Proof.
  unfold settled, pool_ok. intros ((Hnd & Hi & Hb & Hd) & Hf & Hm) Hin.
  assert (Hout : h ∈ destroyed (pool w) ∪ borrowed (pool w)) by set_solver.
  assert (Hni : h ∉ idle (pool w)).
  { intros Hx. destruct (Hi h Hx) as (? & ? & _). set_solver. }
  split; [done|].
  intros f h' w' Hbor ->. unfold BorrowObject in Hbor.
  destruct (idle (pool w)) as [|h0 rest] eqn:Hidle.
  - destruct (can_create (pool w)); [|discriminate].
    destruct (f call_NewClient); [discriminate|].
    injection Hbor as Hh _.
    apply elem_of_union in Hout as [Hx%Hd | Hx%Hb]; lia.
  - injection Hbor as -> _. set_solver.
Qed.

(** *** How each operation ends its borrow *)

Lemma errors_Is_Done_not_missing e :
  errors_Is e iterator_Done = true → errors_Is e storage_ErrObjectNotExist = false.
Proof. induction e; cbn; try done. Qed.

Lemma Attrs_missing_marked h bucket key f w e w' :
  storage.Attrs h bucket key f w = (Err e, w') →
  errors_Is e storage_ErrObjectNotExist = true →
  h ∈ missed w'.
Proof.
  unfold storage.Attrs, bind, service_call, ret, object_missing. intros H His.
  destruct (f call_Attrs) as [e1|].
  - injection H as <- <-.
    destruct (errors_Is e1 iterator_Done) eqn:Hd.
    + apply errors_Is_Done_not_missing in Hd. congruence.
    + rewrite His. cbn. set_solver.
  - destruct (objects w !! (bucket, key)); [discriminate|].
    injection H as <- <-. cbn. set_solver.
Qed.

(** A write of the copy loop into a write stream that has not failed
    returns the error the stream has then failed with, if any. *)
Lemma write_chunk_error buf dst written f w written' ew dst1 w1 :
  write_chunk storage.Write buf dst written f w = (((written', ew), dst1), w1) →
  storage.wr_err dst = None →
  storage.wr_err dst1 = ew.
Proof.
  intros Hw Herr. unfold write_chunk, bind, ret in Hw.
  case_bool_decide as Hnr; [|by injection Hw as <- <- <- <-].
  destruct (storage.Write dst buf f w) as [[[nw e1] dst2] w2] eqn:HW.
  assert (HW' : match e1 with
                | Some x => storage.wr_err dst2 = Some x
                | None => storage.wr_err dst2 = None ∧ nw = Z.of_nat (length buf)
                end).
  { unfold storage.Write in HW. rewrite Herr in HW. unfold bind in HW.
    destruct (service_call (storage.wr_client dst) (call_Write (storage.wr_writes dst)) f w)
      as [[e2|] w3]; by injection HW as <- <- <- <-. }
  destruct e1 as [e1|].
  - destruct (bool_decide (nw < 0) || bool_decide (Z.of_nat (length buf) < nw));
      by injection Hw as <- <- <- <-.
  - destruct HW' as [HW' ->].
    rewrite !bool_decide_eq_false_2 in Hw by lia. cbn in Hw.
    rewrite bool_decide_eq_false_2 in Hw by (intros Hne; by apply Hne).
    by injection Hw as <- <- <- <-.
Qed.

(** The error a copy returns is the error its write stream has failed
    with, or else the error its source ended with. *)
Lemma copy_loop_error cap f src :
  ∀ dst written w n e dst' w',
  copy_loop storage.Write cap src dst written f w = (((n, Some e), dst'), w') →
  storage.wr_err dst = None →
  storage.wr_err dst' = Some e ∨ (storage.wr_err dst' = None ∧ e = r_end src).
Proof.
  remember (length (r_data src)) as m eqn:Hm. revert src Hm.
  induction m as [m IH] using lt_wf_ind.
  intros src -> dst written w n e dst' w' Hres Herr.
  rewrite copy_loop_step in Hres.
  destruct (Reader_Read cap src) as [[buf er] src'] eqn:Hr.
  destruct (write_chunk storage.Write buf dst written f w) as [[[written' ew] dst1] w1] eqn:Hw.
  apply write_chunk_error in Hw; [|done].
  pose proof (Reader_Read_data _ _ _ _ _ Hr) as (_ & Hend & Her).
  destruct ew as [e1|].
  - injection Hres as <- <- <- <-. by left.
  - destruct er as [er|].
    + destruct Her as [-> _]. destruct (error_eqb (r_end src) io_EOF); [discriminate|].
      injection Hres as <- <- <- <-. by right.
    + apply Reader_Read_progress in Hr.
      destruct (IH _ Hr src' eq_refl _ _ _ _ _ _ _ Hres Hw) as [Hx | [Hx ->]];
        [by left | right; by rewrite Hend].
Qed.

Lemma Walk_ends {A : Type} gcs gcsPath recursive (process : A → gcsFile → A * option error)
    acc f w h w1 oe acc' w' :
  BorrowObject f w = (Ok h, w1) →
  Walk gcs gcsPath recursive process acc f w = ((oe, acc'), w') →
  pool w' = match oe with
            | None => pool_return h (pool w1)
            | Some _ => pool_invalidate h (pool w1)
            end.
Proof.
  intros Hb. unfold Walk, bind. rewrite Hb. unfold storage.Objects.
  destruct (cursor_run_total (Walk_rootPath gcs gcsPath) process f
              (storage.list_objects (objects w1) (Bucket (Config gcs))
                 (Walk_prefix gcs gcsPath) (Walk_delimiter recursive)) 0 acc)
    as (r & acc1 & Hrun).
  destruct (Walk_loop_ends h _ _ _ _ _ _ _ _ Hrun w1) as (w2 & -> & _ & Hp).
  intros [= <- <- <-]. by destruct r.
Qed.

Lemma GetFileReader_ends gcs key f w h w1 r w' :
  BorrowObject f w = (Ok h, w1) →
  GetFileReader gcs key f w = (r, w') →
  pool w' = match r with
            | Ok _ => pool_return h (pool w1)
            | Err _ => pool_invalidate h (pool w1)
            end.
Proof.
  intros Hb. unfold GetFileReader, bind. rewrite Hb.
  destruct (storage.NewReader _ _ _ f w1) as [[rd|e] w2] eqn:Hr;
    apply NewReader_marks in Hr as ((Hp & _) & _); intros [= <- <-]; cbn; by rewrite Hp.
Qed.

Lemma PutFile_ends gcs key r f w h w1 oe w' :
  settled w →
  BorrowObject f w = (Ok h, w1) →
  PutFile gcs key r f w = (oe, w') →
  pool w' = pool_invalidate h (pool w1)
  ∨ (pool w' = pool_return h (pool w1)
     ∧ (h ∉ failed w') ∧ (h ∉ missed w')
     ∧ (oe = None ∨ oe = Some (r_end r))).
Proof.
  intros Hs Hb. rewrite (PutFile_borrowed _ _ _ _ _ _ _ Hb).
  destruct (io_CopyBuffer _ _ _ _ f w1) as [[[n err] writer] w2] eqn:Hcopy.
  intros [= <- <-]. unfold io_CopyBuffer in Hcopy.
  assert (Herr0 : storage.wr_err (PutFile_writer gcs h key) = None)
    by (unfold PutFile_writer; by case_bool_decide).
  pose proof (copy_loop_world _ _ _ _ _ _ _ _ _ Hcopy) as (_ & (Hp & _) & _ & Hclean).
  unfold PutFile_deferred, bind.
  destruct (storage.Close writer f w2) as [[e|] w3] eqn:HC; apply Close_spec in HC.
  - destruct HC as ((Hp3 & _) & _). left. cbn. by rewrite Hp3, Hp.
  - destruct HC as (Hnone & _ & ->). right. rewrite (Hclean Hnone) in *. cbn.
    apply BorrowObject_clean in Hb as (((Hok & Hf & _) & Hh & Hm) & _); [|done].
    split; [done|]. split.
    { intros Hx%Hf. destruct Hok as (_ & _ & Hbor & _). by destruct (Hbor h Hh). }
    split; [done|].
    destruct err as [e|]; [|by left]. right.
    destruct (copy_loop_error _ _ _ _ _ _ _ _ _ _ Hcopy Herr0) as [Hx | [_ ->]];
      [congruence | done].
Qed.

Lemma StatFile_ends gcs key f w h w1 r w' :
  BorrowObject f w = (Ok h, w1) →
  StatFile gcs key f w = (r, w') →
  match r with
  | Ok _ => pool w' = pool_return h (pool w1)
  | Err e =>
      pool w' = pool_invalidate h (pool w1)
      ∨ (e = ErrNotFound ∧ pool w' = pool w1 ∧ h ∈ missed w')
  end.
Proof.
  intros Hb. unfold StatFile, bind. rewrite Hb.
  destruct (storage.Attrs _ _ _ f w1) as [[a|e] w2] eqn:Ha.
  - apply Attrs_pool in Ha as (Hp & _). intros [= <- <-]. cbn. by rewrite Hp.
  - pose proof (Attrs_pool _ _ _ _ _ _ _ Ha) as (Hp & _).
    destruct (errors_Is e storage_ErrObjectNotExist) eqn:His; intros [= <- <-].
    + right. split; [done|]. split; [done|]. by eapply Attrs_missing_marked.
    + left. cbn. by rewrite Hp.
Qed.

Lemma deleteKey_ends gcs key f w h w1 oe w' :
  BorrowObject f w = (Ok h, w1) →
  deleteKey gcs key f w = (oe, w') →
  pool w' = match oe with
            | None => pool_return h (pool w1)
            | Some _ => pool_invalidate h (pool w1)
            end.
Proof.
  intros Hb. unfold deleteKey, bind. rewrite Hb.
  destruct (storage.Delete _ _ _ f w1) as [[e|] w2] eqn:Hd;
    apply Delete_marks in Hd as ((Hp & _) & _); intros [= <- <-]; cbn; by rewrite Hp.
Qed.

Lemma CopyObject_ends gcs srcBucket srcKey dstKey f w h w1 n oe w' :
  BorrowObject f w = (Ok h, w1) →
  CopyObject gcs srcBucket srcKey dstKey f w = ((n, oe), w') →
  pool w' = match oe with
            | None => pool_return h (pool w1)
            | Some _ => pool_invalidate h (pool w1)
            end.
Proof.
  intros Hb. unfold CopyObject, bind. rewrite Hb.
  destruct (storage.Attrs _ _ _ f w1) as [[a|e] w2] eqn:Ha;
    apply Attrs_pool in Ha as (Hp & _).
  - destruct (storage.CopierRun _ _ _ _ _ f w2) as [[c|e] w3] eqn:Hc;
      apply CopierRun_marks in Hc as ((Hp3 & _) & _); intros [= <- <- <-]; cbn;
      by rewrite Hp3, Hp.
  - intros [= <- <- <-]. cbn. by rewrite Hp.
Qed.

(** After a borrow that succeeded, an operation leaves the pool with the
    borrow ended, or, StatFile alone, as the borrow left it. *)
Lemma step_ends gcs w w' :
  step gcs w w' →
  pool w' = pool w
  ∨ ∃ f h w1, BorrowObject f w = (Ok h, w1)
      ∧ (borrow_ended h w1 w' ∨ pool w' = pool w1).
Proof.
  unfold borrow_ended.
  destruct 1 as [A gcsPath recursive process acc f w | key f w | key r f w | key f w
                 | key f w | srcBucket srcKey dstKey f w];
    (destruct (BorrowObject f w) as [[h|e] w1] eqn:Hb;
     [right; exists f, h, w1; split; [done|]
     | left; unfold Walk, GetFileReader, PutFile, StatFile, deleteKey, CopyObject, bind;
       rewrite Hb; by apply BorrowObject_Err in Hb as ->]).
  - destruct (Walk gcs gcsPath recursive process acc f w) as [[oe acc'] w'] eqn:H. cbn [snd].
    rewrite (Walk_ends _ _ _ _ _ _ _ _ _ _ _ _ Hb H). destruct oe; auto.
  - destruct (GetFileReader gcs key f w) as [rd w'] eqn:H. cbn [snd].
    rewrite (GetFileReader_ends _ _ _ _ _ _ _ _ Hb H). destruct rd; auto.
  - unfold PutFile, bind. rewrite Hb. fold (PutFile_writer gcs h key).
    destruct (io_CopyBuffer _ _ _ _ f w1) as [[[n err] writer] w2] eqn:Hcopy.
    apply copy_loop_world in Hcopy as (_ & (Hp & _) & _).
    unfold PutFile_deferred, bind.
    destruct (storage.Close writer f w2) as [[e|] w3] eqn:HC; apply Close_spec in HC.
    + destruct HC as ((Hp3 & _) & _). left. right. cbn. by rewrite Hp3, Hp.
    + destruct HC as (_ & _ & ->). left. left. cbn. by rewrite Hp.
  - destruct (StatFile gcs key f w) as [rd w'] eqn:H. cbn [snd].
    pose proof (StatFile_ends _ _ _ _ _ _ _ _ Hb H) as He.
    destruct rd; [auto|]. destruct He as [He | (_ & He & _)]; auto.
  - destruct (deleteKey gcs key f w) as [oe w'] eqn:H. cbn [snd].
    rewrite (deleteKey_ends _ _ _ _ _ _ _ _ Hb H). destruct oe; auto.
  - destruct (CopyObject gcs srcBucket srcKey dstKey f w) as [[n oe] w'] eqn:H. cbn [snd].
    rewrite (CopyObject_ends _ _ _ _ _ _ _ _ _ _ _ Hb H). destruct oe; auto.
Qed.

Lemma BorrowObject_destroyed f w h w1 :
  BorrowObject f w = (Ok h, w1) →
  destroyed (pool w1) = destroyed (pool w) ∧ h ∈ borrowed (pool w1).
Proof.
  unfold BorrowObject. intros H.
  destruct (idle (pool w)) as [|h' rest].
  - destruct (can_create (pool w)); [|discriminate].
    destruct (f call_NewClient); [discriminate|].
    injection H as <- <-. cbn. set_solver.
  - injection H as <- <-. cbn. set_solver.
Qed.

(** A handle that is destroyed stays destroyed. *)
Lemma steps_destroyed gcs w w' :
  rtc (step gcs) w w' → destroyed (pool w) ⊆ destroyed (pool w').
Proof.
  induction 1 as [w | w w1 w' Hstep _ IH]; [done|].
  etrans; [|exact IH].
  destruct (step_ends _ _ _ Hstep) as [-> | (f & h & w0 & Hb & Hend)]; [done|].
  apply BorrowObject_destroyed in Hb as (<- & Hh).
  destruct Hend as [[-> | ->] | ->]; [| |done].
  - by rewrite (pool_return_borrowed _ _ Hh).
  - rewrite (pool_invalidate_borrowed _ _ Hh). cbn. set_solver.
Qed.

Lemma settled_out_not_idle h w :
  settled w → h ∈ destroyed (pool w) ∪ borrowed (pool w) →
  (h ∉ idle (pool w)) ∧ ∀ f h' w', BorrowObject f w = (Ok h', w') → h' ≠ h.
Proof.
  unfold settled, pool_ok. intros ((Hnd & Hi & Hb & Hd) & Hf & Hm) Hout.
  assert (Hni : h ∉ idle (pool w)).
  { intros Hx. destruct (Hi h Hx) as (? & ? & _). set_solver. }
  split; [done|].
  intros f h' w' Hbor ->. unfold BorrowObject in Hbor.
  destruct (idle (pool w)) as [|h0 rest] eqn:Hidle.
  - destruct (can_create (pool w)); [|discriminate].
    destruct (f call_NewClient); [discriminate|].
    injection Hbor as Hh _.
    apply elem_of_union in Hout as [Hx%Hd | Hx%Hb]; lia.
  - injection Hbor as -> _. set_solver.
Qed.

Lemma settled_destroyed h w :
  settled w → h ∈ destroyed (pool w) → handle_invalidated h w.
Proof.
  intros Hs Hd. split; [done|].
  destruct (settled_out_not_idle h w Hs) as [Hni _]; [set_solver|]. split; [done|].
  destruct Hs as ((_ & _ & Hb & _) & _). intros Hx. by destruct (Hb h Hx).
Qed.

(** An operation that has invalidated the handle it borrowed leaves it
    destroyed. *)
Lemma invalidated_after gcs f w h w1 w' :
  settled w → step gcs w w' →
  BorrowObject f w = (Ok h, w1) →
  pool w' = pool_invalidate h (pool w1) →
  handle_invalidated h w'.
Proof.
  intros Hs Hstep Hb Hp. apply settled_destroyed; [by apply (step_settled gcs w)|].
  apply BorrowObject_destroyed in Hb as (_ & Hh).
  rewrite Hp, (pool_invalidate_borrowed _ _ Hh). cbn. set_solver.
Qed.

(** C3: after Connect and any sequence of Walk, GetFileReader, PutFile,
    StatFile, deleteKey and CopyObject, under any faults of the service and
    any callbacks:

    - an operation that returns an error has invalidated, by the time it
      returns, the handle it borrowed, which is destroyed, not idle and not
      lent. This holds of every error, the absence of an object
      (ErrObjectNotExist) and the error of a callback among them, with two
      exceptions: PutFile can return the error its input ended with when no
      call on the handle has failed, and StatFile answers ErrNotFound to
      the absence of an object, the one signal the specification sets
      apart, with the handle still lent;
    - a handle on which a call has failed, or that is destroyed, is never
      idle again and never the handle a borrow hands out, whatever
      operations follow; if the failure was another than the absence of an
      object, or the handle is destroyed, it is destroyed for ever.

    The end of a listing (iterator.Done) is not a failed call. *)
Theorem failed_handle_never_idle_again gcs w :
  reachable gcs w →
  (∀ f h w1, BorrowObject f w = (Ok h, w1) →
     (∀ (A : Type) gcsPath recursive (process : A → gcsFile → A * option error) acc e acc' w',
        Walk gcs gcsPath recursive process acc f w = ((Some e, acc'), w') →
        handle_invalidated h w')
     ∧ (∀ key e w', GetFileReader gcs key f w = (Err e, w') → handle_invalidated h w')
     ∧ (∀ key r e w', PutFile gcs key r f w = (Some e, w') →
          handle_invalidated h w'
          ∨ (e = r_end r ∧ (h ∉ failed w') ∧ (h ∉ missed w')))
     ∧ (∀ key e w', StatFile gcs key f w = (Err e, w') →
          handle_invalidated h w'
          ∨ (e = ErrNotFound ∧ h ∈ missed w' ∧ h ∈ borrowed (pool w')))
     ∧ (∀ key e w', deleteKey gcs key f w = (Some e, w') → handle_invalidated h w')
     ∧ (∀ srcBucket srcKey dstKey n e w',
          CopyObject gcs srcBucket srcKey dstKey f w = ((n, Some e), w') →
          handle_invalidated h w'))
  ∧ (∀ h, h ∈ failed w ∪ missed w ∪ destroyed (pool w) →
     ∀ w', rtc (step gcs) w w' →
       (h ∉ idle (pool w'))
       ∧ (∀ f h' w'', BorrowObject f w' = (Ok h', w'') → h' ≠ h)
       ∧ (h ∈ failed w ∪ destroyed (pool w) →
          h ∈ destroyed (pool w') ∧ (h ∉ borrowed (pool w')))).
Proof.
  intros (objs & now & Hreach).
  destruct (steps_settled _ _ _ Hreach (Connect_settled _ _ _)) as [Hs _].
  split.
  - intros f h w1 Hb. split; [|split; [|split; [|split; [|split]]]].
    + intros A gcsPath recursive process acc e acc' w' H.
      apply (invalidated_after gcs f w h w1); [done | | done |].
      * replace w' with (snd (Walk gcs gcsPath recursive process acc f w)) by (by rewrite H).
        apply step_Walk.
      * apply (Walk_ends _ _ _ _ _ _ _ _ _ _ _ _ Hb H).
    + intros key e w' H.
      apply (invalidated_after gcs f w h w1); [done | | done |].
      * replace w' with (snd (GetFileReader gcs key f w)) by (by rewrite H).
        apply step_GetFileReader.
      * apply (GetFileReader_ends _ _ _ _ _ _ _ _ Hb H).
    + intros key r e w' H.
      destruct (PutFile_ends _ _ _ _ _ _ _ _ _ Hs Hb H)
        as [Hp | (_ & Hf & Hm & [Hx | [= ->]])]; [left | done | by right].
      apply (invalidated_after gcs f w h w1); [done | | done | done].
      replace w' with (snd (PutFile gcs key r f w)) by (by rewrite H).
      apply step_PutFile.
    + intros key e w' H.
      destruct (StatFile_ends _ _ _ _ _ _ _ _ Hb H) as [Hp | (-> & Hp & Hm)].
      * left. apply (invalidated_after gcs f w h w1); [done | | done | done].
        replace w' with (snd (StatFile gcs key f w)) by (by rewrite H).
        apply step_StatFile.
      * right. split; [done|]. split; [done|].
        rewrite Hp. by apply BorrowObject_destroyed in Hb as (_ & Hh).
    + intros key e w' H.
      apply (invalidated_after gcs f w h w1); [done | | done |].
      * replace w' with (snd (deleteKey gcs key f w)) by (by rewrite H).
        apply step_deleteKey.
      * apply (deleteKey_ends _ _ _ _ _ _ _ _ Hb H).
    + intros srcBucket srcKey dstKey n e w' H.
      apply (invalidated_after gcs f w h w1); [done | | done |].
      * replace w' with (snd (CopyObject gcs srcBucket srcKey dstKey f w)) by (by rewrite H).
        apply step_CopyObject.
      * apply (CopyObject_ends _ _ _ _ _ _ _ _ _ _ _ Hb H).
  - intros h Hin w' Hlater.
    destruct (steps_settled _ _ _ Hlater Hs) as [Hs' [Hgf Hgm]].
    pose proof (steps_destroyed _ _ _ Hlater) as Hgd.
    assert (Hout : h ∈ destroyed (pool w') ∪ borrowed (pool w')).
    { destruct Hs' as (_ & Hf' & Hm'). set_solver. }
    destruct (settled_out_not_idle h w' Hs' Hout) as [Hni Hnb].
    split; [done|]. split; [done|].
    intros Hfd. destruct (settled_destroyed h w' Hs') as (Hd & _ & Hb); [|done].
    destruct Hs' as (_ & Hf' & _). set_solver.
Qed.

Lemma failed_handle_never_idle_again_witness :
  (∀ e w', deleteKey gcs0 "zz" no_faults world0 = (Some e, w') → handle_invalidated 0%nat w')
  ∧ (0%nat ∉ idle (pool (snd (StatFile gcs0 "b" no_faults
                                (snd (deleteKey gcs0 "b" delete_fails world0))))))
  ∧ (∀ f h' w'',
       BorrowObject f (snd (StatFile gcs0 "b" no_faults
                              (snd (deleteKey gcs0 "b" delete_fails world0))))
       = (Ok h', w'') → h' ≠ 0%nat)
  ∧ (0%nat ∈ destroyed (pool (snd (StatFile gcs0 "b" no_faults
                                     (snd (deleteKey gcs0 "b" delete_fails world0)))))
     ∧ (0%nat ∉ borrowed (pool (snd (StatFile gcs0 "b" no_faults
                                       (snd (deleteKey gcs0 "b" delete_fails world0))))))).
Proof.
  split.
  - destruct (failed_handle_never_idle_again gcs0 world0) as [Hends _].
    { exists (three_keys [] [] []), 0. apply rtc_refl. }
    destruct (Hends no_faults 0%nat (snd (BorrowObject no_faults world0)) eq_refl)
      as (_ & _ & _ & _ & Hdelete & _).
    exact (Hdelete "zz").
  - destruct (failed_handle_never_idle_again gcs0 (snd (deleteKey gcs0 "b" delete_fails world0)))
      as [_ Hlater].
    { exists (three_keys [] [] []), 0. apply rtc_once. apply step_deleteKey. }
    destruct (Hlater 0%nat) with (w' := snd (StatFile gcs0 "b" no_faults
                                     (snd (deleteKey gcs0 "b" delete_fails world0))))
      as (Hidle & Hborrow & Hdestroyed).
    { apply (bool_decide_unpack
               (0%nat ∈ failed (snd (deleteKey gcs0 "b" delete_fails world0))
                        ∪ missed (snd (deleteKey gcs0 "b" delete_fails world0))
                        ∪ destroyed (pool (snd (deleteKey gcs0 "b" delete_fails world0))))).
      vm_compute. exact I. }
    { apply rtc_once. apply step_StatFile. }
    split; [exact Hidle|]. split; [exact Hborrow|]. apply Hdestroyed.
    apply (bool_decide_unpack
             (0%nat ∈ failed (snd (deleteKey gcs0 "b" delete_fails world0))
                      ∪ destroyed (pool (snd (deleteKey gcs0 "b" delete_fails world0))))).
    vm_compute. exact I.
Defined.

(** An object that is not there is an error like another to deleteKey: the
    handle is destroyed when the error is returned. *)
Example deleteKey_of_missing_key_invalidates :
  fst (deleteKey gcs0 "zz" no_faults world0) = Some storage_ErrObjectNotExist
  ∧ elements (missed (snd (deleteKey gcs0 "zz" no_faults world0))) = [0%nat]
  ∧ elements (destroyed (pool (snd (deleteKey gcs0 "zz" no_faults world0)))) = [0%nat]
  ∧ elements (borrowed (pool (snd (deleteKey gcs0 "zz" no_faults world0)))) = [].
Proof. repeat split; vm_compute; reflexivity. Qed.

Example failed_after_delete_failure :
  fst (deleteKey gcs0 "b" delete_fails world0) = Some (backend_error "503")
  ∧ elements (failed (snd (deleteKey gcs0 "b" delete_fails world0))) = [0%nat]
  ∧ elements (destroyed (pool (snd (deleteKey gcs0 "b" delete_fails world0)))) = [0%nat]
  ∧ idle (pool (snd (deleteKey gcs0 "b" delete_fails world0))) = [].
Proof. repeat split; vm_compute; reflexivity. Qed.

Example missed_after_StatFile_of_missing_key :
  elements (missed (snd (StatFile gcs0 "zz" no_faults world0))) = [0%nat]
  ∧ elements (failed (snd (StatFile gcs0 "zz" no_faults world0))) = []
  ∧ elements (borrowed (pool (snd (StatFile gcs0 "zz" no_faults world0)))) = [0%nat].
Proof. repeat split; vm_compute; reflexivity. Qed.

Example next_borrow_after_failure_makes_a_new_handle :
  fst (BorrowObject no_faults (snd (deleteKey gcs0 "b" delete_fails world0))) = Ok 1%nat.
Proof. vm_compute. reflexivity. Qed.

(** * More of gcs.go *)

(** ** What the storage calls leave in the store *)

Lemma NewReader_objects h bucket key f w r w' :
  storage.NewReader h bucket key f w = (r, w') →
  pool w' = pool w ∧ objects w' = objects w ∧ clock w' = clock w ∧ logged w' = logged w.
Proof.
  unfold storage.NewReader, bind, ret. intros H.
  destruct (service_call h call_NewReader f w) as [oe w1] eqn:Hc.
  apply service_call_pool in Hc. destruct oe; [by injection H as <- <-|].
  unfold object_missing in H. destruct (objects w1 !! _); by injection H as <- <-.
Qed.

Lemma Delete_objects h bucket key f w oe w' :
  storage.Delete h bucket key f w = (oe, w') →
  pool w' = pool w ∧ logged w' = logged w
  ∧ match oe with
    | Some e =>
        objects w' = objects w
        ∧ (f call_Delete = None → e = storage_ErrObjectNotExist ∧ objects w !! (bucket, key) = None)
    | None =>
        f call_Delete = None ∧ is_Some (objects w !! (bucket, key))
        ∧ objects w' = delete (bucket, key) (objects w)
    end.
Proof.
  unfold storage.Delete, bind, ret. intros H.
  destruct (service_call h call_Delete f w) as [oe1 w1] eqn:Hc.
  pose proof (service_call_pool _ _ _ _ _ _ Hc) as (Hp & Ho & _ & Hl).
  apply service_call_spec in Hc as (Hf & _ & Hn).
  destruct oe1 as [e1|].
  - injection H as <- <-. split; [done|]. split; [done|]. split; [done|]. congruence.
  - rewrite (Hn eq_refl) in *. destruct (objects w !! (bucket, key)) as [o|] eqn:Hlook;
      injection H as <- <-; cbn; eauto.
Qed.

Lemma CopierRun_objects h sb sk db dk f w r w' :
  storage.CopierRun h sb sk db dk f w = (r, w') →
  pool w' = pool w ∧ logged w' = logged w
  ∧ match r with
    | Err _ => objects w' = objects w
    | Ok _ =>
        ∃ o, objects w !! (sb, sk) = Some o
             ∧ objects w' = <[(db, dk) := mkObject (content o) (storageClass o) (metadata o) (clock w)]>
                              (objects w)
    end.
Proof.
  unfold storage.CopierRun, bind, ret. intros H.
  destruct (service_call h call_CopierRun f w) as [oe1 w1] eqn:Hc.
  pose proof (service_call_pool _ _ _ _ _ _ Hc) as (Hp & Ho & _ & Hl).
  apply service_call_spec in Hc as (Hf & _ & Hn).
  destruct oe1 as [e1|].
  - by injection H as <- <-.
  - rewrite (Hn eq_refl) in *. destruct (objects w !! (sb, sk)) as [o|] eqn:Hlook.
    + injection H as <- <-. cbn. eauto.
    + unfold object_missing in H. by injection H as <- <-.
Qed.


(** ** Strings *)

Lemma string_app_cons x (a b : string) : String x a +:+ b = String x (a +:+ b).
Proof. reflexivity. Qed.

Lemma string_app_assoc (a b c : string) : (a +:+ b) +:+ c = a +:+ b +:+ c.
Proof. induction a as [|x a IH]; [done|]. rewrite !string_app_cons. by f_equal. Qed.

Lemma strip_prefix_app (p r : string) : strip_prefix (p +:+ r) p = Some r.
Proof.
  induction p as [|x p IH]; [by destruct r|]. rewrite string_app_cons. cbn [strip_prefix].
  by rewrite Ascii.eqb_refl.
Qed.

Lemma strip_prefix_Some (s p r : string) : strip_prefix s p = Some r → s = p +:+ r.
Proof.
  revert s. induction p as [|x p IH]; intros s; [destruct s; intros [= <-]; reflexivity|].
  destruct s as [|y s]; [done|]. cbn [strip_prefix].
  destruct (Ascii.eqb x y) eqn:Hxy; [|done].
  apply Ascii.eqb_eq in Hxy as ->. intros ->%IH. by rewrite string_app_cons.
Qed.

Lemma strings_HasPrefix_app (s p : string) :
  strings_HasPrefix s p = true ↔ ∃ r, s = p +:+ r.
Proof.
  unfold strings_HasPrefix. split.
  - destruct (strip_prefix s p) as [r|] eqn:Hs; [|done]. intros _. exists r.
    by apply strip_prefix_Some.
  - intros [r ->]. by rewrite strip_prefix_app.
Qed.

Lemma strings_TrimPrefix_app (p r : string) : strings_TrimPrefix (p +:+ r) p = r.
Proof. unfold strings_TrimPrefix. by rewrite strip_prefix_app. Qed.

(** ** What a listing holds *)

Lemma bucket_objects_lookup objs bucket n o :
  (n, o) ∈ storage.bucket_objects objs bucket ↔ objs !! (bucket, n) = Some o.
Proof.
  unfold storage.bucket_objects. rewrite merge_sort_Permutation, list_elem_of_omap. split.
  - intros ([[b n'] o'] & Hin & Hf). cbn in Hf. case_bool_decide as Hb; [|done].
    injection Hf as <- <-. subst b. by apply elem_of_map_to_list in Hin.
  - intros Hl. exists ((bucket, n), o). split; [by apply elem_of_map_to_list|].
    cbn. by rewrite bool_decide_eq_true_2.
Qed.

(** Every item of a listing is an object under the prefix, or a common
    prefix that extends it. *)
Lemma list_objects_items objs bucket prefix delimiter object :
  object ∈ storage.list_objects objs bucket prefix delimiter →
  (∃ n o, objs !! (bucket, n) = Some o ∧ strings_HasPrefix n prefix = true
          ∧ object = storage.attrs_of n o)
  ∨ (∃ rest, object = storage.mkAttrs "" (prefix +:+ rest) 0 0 ∧ delimiter ≠ "").
Proof.
  unfold storage.list_objects. intros [Hin | Hin]%elem_of_app.
  - left. apply list_elem_of_omap in Hin as ([n o] & Hin & Hf). cbn in Hf.
    destruct (storage.common_prefix prefix delimiter n); [done|]. injection Hf as <-.
    apply list_elem_of_omap in Hin as ([n' o'] & Hin & Hf). cbn in Hf.
    destruct (strings_HasPrefix n' prefix) eqn:Hp; [|done]. injection Hf as -> ->.
    apply bucket_objects_lookup in Hin. eauto.
  - right. apply list_elem_of_fmap in Hin as (p & -> & Hin).
    apply elem_of_remove_dups, list_elem_of_omap in Hin as ([n o] & _ & Hf). cbn in Hf.
    unfold storage.common_prefix in Hf. case_bool_decide as Hd; [done|].
    destruct (strip_prefix n prefix) as [rest|]; [|done].
    destruct (String.index 0 delimiter rest); [|done]. injection Hf as <-. eauto.
Qed.

(** ** What a walk shows its callback *)

(** With the recording callback, a walk has recorded the items of its
    cursor in their order, up to where it stopped. *)
Lemma Walk_loop_collect h rootPath f items :
  ∀ k acc w, ∃ shown,
    shown `prefix_of` items
    ∧ snd (fst (Walk_loop h rootPath collect (storage.mkIterator h items k) acc f w))
      = (acc ++ (Walk_entry rootPath <$> shown))%list.
Proof.
  induction items as [|object items IH]; intros k acc w;
    rewrite Walk_loop_step; unfold storage.Next, bind, ret;
    cbn [storage.it_client storage.it_calls storage.it_items];
    destruct (service_call h (call_Next k) f w) as [[e|] w1].
  - exists []. split; [done|]. rewrite app_nil_r. by destruct (errors_Is e iterator_Done).
  - exists []. split; [done|]. by rewrite app_nil_r.
  - exists []. split; [apply prefix_nil|]. rewrite app_nil_r.
    by destruct (errors_Is e iterator_Done).
  - unfold collect at 1. cbn.
    destruct (IH (S k) (acc ++ [Walk_entry rootPath object])%list w1) as (shown & Hpre & Heq).
    exists (object :: shown). split; [by apply prefix_cons|].
    rewrite Heq. cbn. by rewrite <- app_assoc.
Qed.

Lemma cursor_run_all {A : Type} rootPath (process : A → gcsFile → A * option error) f :
  (∀ k, f (call_Next k) = None) →
  (∀ a file, snd (process a file) = None) →
  ∀ items k acc,
    cursor_run rootPath process f items k acc end_Done
      (foldl (λ a object, fst (process a (Walk_entry rootPath object))) acc items).
Proof.
  intros Hf Hp. induction items as [|object items IH]; intros k acc.
  - by apply run_done.
  - cbn. eapply run_visit; [done | | apply IH].
    destruct (process acc (Walk_entry rootPath object)) as [acc' oe] eqn:Hpr.
    specialize (Hp acc (Walk_entry rootPath object)). rewrite Hpr in Hp. cbn in *. by subst.
Qed.

(** X2: when the cursor does not fail and the callback returns no error,
    Walk shows the callback every item of the listing, once and in the
    order of the cursor, returns nil and puts its handle back on top of the
    idle handles. *)
Theorem Walk_visits_every_item_in_order {A : Type} gcs gcsPath recursive
    (process : A → gcsFile → A * option error) acc f w h w1 :
  BorrowObject f w = (Ok h, w1) →
  (∀ k, f (call_Next k) = None) →
  (∀ a file, snd (process a file) = None) →
  ∃ w', Walk gcs gcsPath recursive process acc f w
        = ((None,
            foldl (λ a object, fst (process a (Walk_entry (Walk_rootPath gcs gcsPath) object)))
              acc
              (storage.list_objects (objects w) (Bucket (Config gcs)) (Walk_prefix gcs gcsPath)
                 (Walk_delimiter recursive))), w')
    ∧ idle (pool w') = h :: idle (pool w1).
Proof.
  intros Hb Hf Hp. unfold Walk, bind. rewrite Hb. unfold storage.Objects.
  apply BorrowObject_Ok in Hb as (Hh & Ho & _). rewrite Ho.
  destruct (Walk_loop_ends h _ _ _ _ _ _ _ _
              (cursor_run_all (Walk_rootPath gcs gcsPath) process f Hf Hp
                 (storage.list_objects (objects w) (Bucket (Config gcs))
                    (Walk_prefix gcs gcsPath) (Walk_delimiter recursive)) 0 acc) w1)
    as (w' & Hw & _ & Hpool).
  exists w'. split; [exact Hw|]. rewrite Hpool, (pool_return_borrowed _ _ Hh). done.
Qed.

Lemma Walk_visits_every_item_in_order_witness :
  ∃ w', Walk gcs0 "/" true collect [] no_faults world0
        = ((None, [mkGcsFile 0 0 "a/x"; mkGcsFile 0 0 "a/y"; mkGcsFile 0 0 "b"]), w')
    ∧ idle (pool w') = [0%nat].
Proof.
  apply (Walk_visits_every_item_in_order gcs0 "/" true collect [] no_faults world0 0%nat
           (snd (BorrowObject no_faults world0))).
  - reflexivity.
  - intros k. reflexivity.
  - intros a file. reflexivity.
Defined.

(** X3: under a root that is not "/", every name Walk shows its callback
    begins with "/": the root is cut off the key, the separator after it is
    not. The root put back before the name gives the key of the item. This
    holds of every entry shown, also when the walk is cut short. *)
Theorem Walk_names_keep_the_separator gcs gcsPath recursive f w :
  Walk_rootPath gcs gcsPath ≠ "/" →
  ∀ file, file ∈ snd (fst (Walk gcs gcsPath recursive collect [] f w)) →
    strings_HasPrefix (name file) "/" = true
    ∧ ∃ object,
        object ∈ storage.list_objects (objects w) (Bucket (Config gcs))
                   (Walk_rootPath gcs gcsPath +:+ "/") (Walk_delimiter recursive)
        ∧ file = Walk_entry (Walk_rootPath gcs gcsPath) object
        ∧ Walk_rootPath gcs gcsPath +:+ name file = listed_key object.
Proof.
  intros Hroot file. unfold Walk, bind.
  destruct (BorrowObject f w) as [[h|e] w1] eqn:Hb; [|cbn; set_solver].
  apply BorrowObject_Ok in Hb as (_ & Ho & _). unfold storage.Objects. rewrite Ho.
  unfold Walk_prefix. rewrite bool_decide_eq_false_2 by done.
  set (root := Walk_rootPath gcs gcsPath).
  destruct (Walk_loop_collect h root f
              (storage.list_objects (objects w) (Bucket (Config gcs)) (root +:+ "/")
                 (Walk_delimiter recursive)) 0 [] w1) as (shown & Hpre & ->).
  rewrite app_nil_l. intros (object & -> & Hin)%list_elem_of_fmap.
  assert (Hitem : object ∈ storage.list_objects (objects w) (Bucket (Config gcs))
                    (root +:+ "/") (Walk_delimiter recursive)).
  { destruct Hpre as [rest ->]. set_solver. }
  assert (Hkey : ∃ rest, listed_key object = root +:+ "/" +:+ rest
                         ∧ name (Walk_entry root object) = "/" +:+ rest).
  { apply list_objects_items in Hitem as [(n & o & _ & Hp & ->) | (rest & -> & _)].
    - apply strings_HasPrefix_app in Hp as [rest ->]. exists rest.
      unfold listed_key, Walk_entry, storage.attrs_of.
      cbn [storage.Prefix storage.Name storage.Size storage.Updated].
      rewrite bool_decide_eq_false_2 by (intros Hx; by apply Hx).
      cbn [name]. by rewrite string_app_assoc, strings_TrimPrefix_app.
    - exists rest. unfold listed_key, Walk_entry.
      cbn [storage.Prefix storage.Name storage.Size storage.Updated].
      rewrite bool_decide_eq_true_2 by (rewrite string_app_assoc; by destruct root).
      cbn [name]. by rewrite string_app_assoc, strings_TrimPrefix_app. }
  destruct Hkey as (rest & Hk & Hn). split.
  - rewrite Hn. apply strings_HasPrefix_app. by exists rest.
  - exists object. split; [done|]. split; [done|]. by rewrite Hn, Hk.
Qed.

Lemma Walk_names_keep_the_separator_witness :
  strings_HasPrefix (name (mkGcsFile 0 0 "/x")) "/" = true
  ∧ ∃ object,
      object ∈ storage.list_objects (objects world0) (Bucket (Config gcs0))
                 (Walk_rootPath gcs0 "a" +:+ "/") (Walk_delimiter true)
      ∧ mkGcsFile 0 0 "/x" = Walk_entry (Walk_rootPath gcs0 "a") object
      ∧ Walk_rootPath gcs0 "a" +:+ name (mkGcsFile 0 0 "/x") = listed_key object.
Proof.
  apply (Walk_names_keep_the_separator gcs0 "a" true no_faults world0).
  - discriminate.
  - vm_compute. apply list_elem_of_here.
Defined.

Lemma foldl_collect rootPath items :
  ∀ acc,
    foldl (λ a object, fst (collect a (Walk_entry rootPath object))) acc items
    = (acc ++ (Walk_entry rootPath <$> items))%list.
Proof.
  induction items as [|object items IH]; intros acc; cbn; [by rewrite app_nil_r|].
  rewrite IH. by rewrite <- app_assoc.
Qed.

Lemma list_objects_flat objs bucket prefix object :
  object ∈ storage.list_objects objs bucket prefix ""
  ↔ ∃ n o, objs !! (bucket, n) = Some o ∧ strings_HasPrefix n prefix = true
           ∧ object = storage.attrs_of n o.
Proof.
  split.
  - intros [H | (rest & _ & Hd)]%list_objects_items; done.
  - intros (n & o & Hl & Hp & ->). unfold storage.list_objects.
    apply elem_of_app. left. apply list_elem_of_omap. exists (n, o). split; [|done].
    apply list_elem_of_omap. exists (n, o). split; [by apply bucket_objects_lookup|].
    cbn. by rewrite Hp.
Qed.

(** X4: a recursive Walk whose cursor does not fail shows its callback the
    objects of the bucket whose key begins with the prefix of the walk, each
    as a file with the size and the time of the object and the key cut by
    the root, and nothing else: no directory entry. *)
Theorem Walk_recursive_shows_the_objects gcs gcsPath f w h w1 :
  BorrowObject f w = (Ok h, w1) →
  (∀ k, f (call_Next k) = None) →
  ∃ visited w',
    Walk gcs gcsPath true collect [] f w = ((None, visited), w')
    ∧ ∀ file,
        file ∈ visited
        ↔ ∃ n o,
            objects w !! (Bucket (Config gcs), n) = Some o
            ∧ strings_HasPrefix n (Walk_prefix gcs gcsPath) = true
            ∧ file = mkGcsFile (Z.of_nat (length (content o))) (updated o)
                       (strings_TrimPrefix n (Walk_rootPath gcs gcsPath)).
Proof.
  intros Hb Hf. unfold Walk, bind. rewrite Hb. unfold storage.Objects.
  apply BorrowObject_Ok in Hb as (Hh & Ho & _). rewrite Ho.
  destruct (Walk_loop_ends h _ _ _ _ _ _ _ _
              (cursor_run_all (Walk_rootPath gcs gcsPath) collect f Hf (λ _ _, eq_refl)
                 (storage.list_objects (objects w) (Bucket (Config gcs))
                    (Walk_prefix gcs gcsPath) (Walk_delimiter true)) 0 []) w1)
    as (w' & Hw & _).
  eexists _, w'. split; [exact Hw|].
  intros file. rewrite foldl_collect, app_nil_l, list_elem_of_fmap. cbn [Walk_delimiter negb].
  split.
  - intros (object & -> & (n & o & Hl & Hp & ->)%list_objects_flat).
    exists n, o. done.
  - intros (n & o & Hl & Hp & ->). exists (storage.attrs_of n o). split; [done|].
    apply list_objects_flat. eauto.
Qed.

Lemma Walk_recursive_shows_the_objects_witness :
  ∃ visited w',
    Walk gcs0 "a" true collect [] no_faults world0 = ((None, visited), w')
    ∧ ∀ file,
        file ∈ visited
        ↔ ∃ n o,
            objects world0 !! ("bkt", n) = Some o
            ∧ strings_HasPrefix n "a/" = true
            ∧ file = mkGcsFile (Z.of_nat (length (content o))) (updated o)
                       (strings_TrimPrefix n "a").
Proof.
  apply (Walk_recursive_shows_the_objects gcs0 "a" no_faults world0 0%nat
           (snd (BorrowObject no_faults world0))).
  - reflexivity.
  - intros k. reflexivity.
Defined.

(** ** PutFile, when the service does or does not fail *)

Lemma PutFile_writer_fields gcs h key :
  storage.wr_client (PutFile_writer gcs h key) = h
  ∧ storage.wr_bucket (PutFile_writer gcs h key) = Bucket (Config gcs)
  ∧ storage.wr_name (PutFile_writer gcs h key) = path_Join [Path (Config gcs); key]
  ∧ storage.StorageClass (PutFile_writer gcs h key) = StorageClass (Config gcs)
  ∧ storage.Metadata (PutFile_writer gcs h key) = ObjectLabels (Config gcs)
  ∧ storage.wr_sent (PutFile_writer gcs h key) = []
  ∧ storage.wr_err (PutFile_writer gcs h key) = None.
Proof.
  unfold PutFile_writer. case_bool_decide as Hl; cbn; repeat split; try done.
  destruct (ObjectLabels (Config gcs)); [done | cbn in Hl; lia].
Qed.

Lemma write_chunk_ok buf dst written f w :
  storage.wr_err dst = None →
  f (call_Write (storage.wr_writes dst)) = None →
  ∃ dst1,
    write_chunk storage.Write buf dst written f w
    = (((written + Z.of_nat (length buf), None), dst1), w)
    ∧ storage.wr_err dst1 = None
    ∧ storage.wr_sent dst1 = (storage.wr_sent dst ++ buf)%list
    ∧ same_target dst dst1.
Proof.
  intros Herr Hf.
  assert (HW : storage.Write dst buf f w
               = (((Z.of_nat (length buf), None),
                   storage.mkWriter (storage.wr_client dst) (storage.wr_bucket dst)
                     (storage.wr_name dst) (storage.StorageClass dst) (storage.Metadata dst)
                     (storage.wr_sent dst ++ buf)%list (S (storage.wr_writes dst)) None), w)).
  { unfold storage.Write. rewrite Herr. unfold bind, service_call. by rewrite Hf. }
  unfold write_chunk, bind, ret. case_bool_decide as Hnr.
  - rewrite HW. rewrite !bool_decide_eq_false_2 by lia. cbn.
    rewrite bool_decide_eq_false_2 by (intros Hne; by apply Hne).
    eexists. split; [reflexivity|]. done.
  - destruct buf; [|cbn in Hnr; lia]. exists dst. rewrite app_nil_r, Z.add_0_r. done.
Qed.

(** When no Write fails, the copy has written every byte the input held,
    counted them, and returns the error the input ended with, nil for
    io.EOF. *)
Lemma copy_loop_without_write_faults cap f src :
  (∀ k, f (call_Write k) = None) →
  ∀ dst written w, storage.wr_err dst = None →
  ∃ dst',
    copy_loop storage.Write cap src dst written f w
    = (((written + Z.of_nat (length (r_data src)),
         if error_eqb (r_end src) io_EOF then None else Some (r_end src)), dst'), w)
    ∧ storage.wr_err dst' = None
    ∧ storage.wr_sent dst' = (storage.wr_sent dst ++ r_data src)%list
    ∧ same_target dst dst'.
Proof.
  intros Hf. remember (length (r_data src)) as m eqn:Hm. revert src Hm.
  induction m as [m IH] using lt_wf_ind. intros src -> dst written w Herr.
  rewrite copy_loop_step.
  destruct (Reader_Read cap src) as [[buf er] src'] eqn:Hr.
  destruct (write_chunk_ok buf dst written f w Herr (Hf _)) as (dst1 & -> & Herr1 & Hs1 & Ht1).
  pose proof (Reader_Read_data _ _ _ _ _ Hr) as (Hd & Hend & Her).
  destruct er as [er|].
  - destruct Her as [-> Hnil]. rewrite Hnil in Hd. symmetry in Hd.
    apply app_eq_nil in Hd as [-> _]. rewrite Hnil. cbn [length].
    exists dst1. rewrite Z.add_0_r in *. rewrite app_nil_r in *. done.
  - apply Reader_Read_progress in Hr as Hlt.
    destruct (IH _ Hlt src' eq_refl dst1 (written + Z.of_nat (length buf)) w Herr1)
      as (dst' & Hc & Herr' & Hs' & Ht').
    exists dst'. split; [|split; [done|split]].
    + rewrite Hc, Hend, Hd, length_app, Nat2Z.inj_add, Z.add_assoc. done.
    + by rewrite Hs', Hs1, Hd, <- app_assoc.
    + by eapply same_target_trans.
Qed.

(** What PutFile does when neither a Write nor the Close fails. *)
Lemma PutFile_service_ok gcs key r f w h w1 :
  BorrowObject f w = (Ok h, w1) →
  (∀ k, f (call_Write k) = None) →
  f call_Close = None →
  ∃ w', PutFile gcs key r f w
        = (if error_eqb (r_end r) io_EOF then None else Some (r_end r), w')
    ∧ objects w'
      = <[(Bucket (Config gcs), path_Join [Path (Config gcs); key])
          := mkObject (r_data r) (StorageClass (Config gcs)) (ObjectLabels (Config gcs)) (clock w)]>
          (objects w)
    ∧ idle (pool w') = h :: idle (pool w1)
    ∧ logged w' = logged w.
Proof.
  intros Hb Hf Hclose. rewrite (PutFile_borrowed _ _ _ _ _ _ _ Hb).
  destruct (PutFile_writer_fields gcs h key) as (Hcl & Hbk & Hnm & Hsc & Hmd & Hsent & Herr).
  unfold io_CopyBuffer.
  destruct (copy_loop_without_write_faults (512 * 1024) f r Hf (PutFile_writer gcs h key) 0 w1 Herr)
    as (writer & -> & Herr' & Hsent' & (_ & Hbk' & Hnm' & Hsc' & Hmd')).
  eexists. split; [reflexivity|].
  assert (HC : storage.Close writer f w1
               = (None, store_object (storage.wr_bucket writer) (storage.wr_name writer)
                          (mkObject (storage.wr_sent writer) (storage.StorageClass writer)
                             (storage.Metadata writer) 0) w1)).
  { unfold storage.Close. rewrite Herr'. unfold bind, service_call. by rewrite Hclose. }
  unfold PutFile_deferred, bind. rewrite HC. unfold ReturnObject, with_pool, store_object.
  apply BorrowObject_Ok in Hb as (Hh & Ho & Hc & Hl & _). cbn.
  rewrite (pool_return_borrowed _ _ Hh). cbn.
  rewrite <- Hbk', <- Hnm', <- Hsc', <- Hmd', Hsent', Hbk, Hnm, Hsc, Hmd, Hsent, Ho, Hc, Hl.
  done.
Qed.

(** X5: when the input ends with io.EOF and neither a Write nor the Close
    fails, PutFile returns nil and the bucket holds, under the root joined
    with the key, an object with exactly the bytes of the input, the
    configured storage class and the configured labels, in the place of
    whatever was there; the handle is idle again. *)
Theorem PutFile_stores_the_input gcs key r f w h w1 :
  BorrowObject f w = (Ok h, w1) →
  r_end r = io_EOF →
  (∀ k, f (call_Write k) = None) →
  f call_Close = None →
  ∃ w', PutFile gcs key r f w = (None, w')
    ∧ objects w'
      = <[(Bucket (Config gcs), path_Join [Path (Config gcs); key])
          := mkObject (r_data r) (StorageClass (Config gcs)) (ObjectLabels (Config gcs)) (clock w)]>
          (objects w)
    ∧ idle (pool w') = h :: idle (pool w1).
Proof.
  intros Hb Hend Hf Hclose.
  destruct (PutFile_service_ok gcs key r f w h w1 Hb Hf Hclose) as (w' & Hp & Ho & Hi & _).
  rewrite Hend in Hp. exists w'. done.
Qed.

Lemma PutFile_stores_the_input_witness :
  ∃ w', PutFile gcs0 "b" (mkReader [x6e; x65; x77] 2 io_EOF) no_faults
          (Connect gcs0 (three_keys [] [] [x6f; x6c; x64]) 5) = (None, w')
    ∧ objects w'
      = <[("bkt", "b") := mkObject [x6e; x65; x77] "STANDARD" [] 5]>
          (three_keys [] [] [x6f; x6c; x64])
    ∧ idle (pool w') = [0%nat].
Proof.
  apply (PutFile_stores_the_input gcs0 "b" (mkReader [x6e; x65; x77] 2 io_EOF) no_faults
           (Connect gcs0 (three_keys [] [] [x6f; x6c; x64]) 5) 0%nat
           (snd (BorrowObject no_faults (Connect gcs0 (three_keys [] [] [x6f; x6c; x64]) 5)))).
  - reflexivity.
  - reflexivity.
  - intros k. reflexivity.
  - reflexivity.
Defined.

(** X6: when the input fails after delivering its bytes, and neither a Write
    nor the Close fails, PutFile returns the error of the input, and yet the
    deferred Close has finalized the upload: the bucket holds an object with
    the bytes read before the error, and the handle is idle again. *)
Theorem PutFile_input_error_leaves_an_object gcs key r f w h w1 :
  BorrowObject f w = (Ok h, w1) →
  error_eqb (r_end r) io_EOF = false →
  (∀ k, f (call_Write k) = None) →
  f call_Close = None →
  ∃ w', PutFile gcs key r f w = (Some (r_end r), w')
    ∧ (content <$> objects w' !! (Bucket (Config gcs), path_Join [Path (Config gcs); key]))
      = Some (r_data r)
    ∧ idle (pool w') = h :: idle (pool w1).
Proof.
  intros Hb Hend Hf Hclose.
  destruct (PutFile_service_ok gcs key r f w h w1 Hb Hf Hclose) as (w' & Hp & Ho & Hi & _).
  rewrite Hend in Hp. exists w'. split; [done|]. split; [|done].
  by rewrite Ho, lookup_insert_eq.
Qed.

Lemma PutFile_input_error_leaves_an_object_witness :
  ∃ w', PutFile gcs0 "c" (mkReader [x68; x69] 1 (backend_error "disk read")) no_faults world0
        = (Some (backend_error "disk read"), w')
    ∧ (content <$> objects w' !! ("bkt", "c")) = Some [x68; x69]
    ∧ idle (pool w') = [0%nat].
Proof.
  apply (PutFile_input_error_leaves_an_object gcs0 "c"
           (mkReader [x68; x69] 1 (backend_error "disk read")) no_faults world0 0%nat
           (snd (BorrowObject no_faults world0))).
  - reflexivity.
  - reflexivity.
  - intros k. reflexivity.
  - reflexivity.
Defined.

(** The copy returns the error its write stream has failed with. *)
Lemma copy_loop_failed_stream cap f src :
  ∀ dst written w n err dst' w' e,
  copy_loop storage.Write cap src dst written f w = (((n, err), dst'), w') →
  storage.wr_err dst = None →
  storage.wr_err dst' = Some e →
  err = Some e.
Proof.
  remember (length (r_data src)) as m eqn:Hm. revert src Hm.
  induction m as [m IH] using lt_wf_ind.
  intros src -> dst written w n err dst' w' e Hres Herr Herr'.
  rewrite copy_loop_step in Hres.
  destruct (Reader_Read cap src) as [[buf er] src'] eqn:Hr.
  destruct (write_chunk storage.Write buf dst written f w) as [[[written' ew] dst1] w1] eqn:Hw.
  assert (Hstep : match ew with
                  | Some e1 => storage.wr_err dst1 = Some e1
                  | None => storage.wr_err dst1 = None
                  end).
  { unfold write_chunk, bind, ret in Hw.
    case_bool_decide as Hnr; [|by injection Hw as <- <- <- <-].
    destruct (storage.Write dst buf f w) as [[[nw e1] dst2] w2] eqn:HW.
    assert (HW' : match e1 with
                  | Some x => storage.wr_err dst2 = Some x
                  | None => storage.wr_err dst2 = None ∧ nw = Z.of_nat (length buf)
                  end).
    { unfold storage.Write in HW. rewrite Herr in HW. unfold bind in HW.
      destruct (service_call (storage.wr_client dst) (call_Write (storage.wr_writes dst)) f w)
        as [[e2|] w3]; by injection HW as <- <- <- <-. }
    destruct e1 as [e1|].
    - destruct (bool_decide (nw < 0) || bool_decide (Z.of_nat (length buf) < nw));
        by injection Hw as <- <- <- <-.
    - destruct HW' as [HW' ->].
      rewrite !bool_decide_eq_false_2 in Hw by lia. cbn in Hw.
      rewrite bool_decide_eq_false_2 in Hw by (intros Hne; by apply Hne).
      by injection Hw as <- <- <- <-. }
  destruct ew as [e1|].
  - injection Hres as <- <- <- <-. congruence.
  - destruct er as [er|]; [injection Hres as <- <- <- <-; congruence|].
    apply Reader_Read_progress in Hr.
    by apply (IH _ Hr src' eq_refl _ _ _ _ _ _ _ _ Hres Hstep Herr').
Qed.

(** X7: when the upload fails in a Write, PutFile returns the error of that
    Write, invalidates the handle and stores nothing. *)
Theorem PutFile_failed_upload gcs key r f w h w1 n err writer w2 e :
  BorrowObject f w = (Ok h, w1) →
  io_CopyBuffer storage.Write (PutFile_writer gcs h key) r (512 * 1024) f w1
  = (((n, err), writer), w2) →
  storage.wr_err writer = Some e →
  ∃ w', PutFile gcs key r f w = (Some e, w')
    ∧ objects w' = objects w
    ∧ h ∈ destroyed (pool w') ∧ idle (pool w') = idle (pool w1).
Proof.
  intros Hb Hcopy Hwe. rewrite (PutFile_borrowed _ _ _ _ _ _ _ Hb), Hcopy.
  destruct (PutFile_writer_fields gcs h key) as (_ & _ & _ & _ & _ & _ & Herr).
  rewrite (copy_loop_failed_stream _ _ _ _ _ _ _ _ _ _ _ Hcopy Herr Hwe).
  eexists. split; [reflexivity|].
  unfold PutFile_deferred, bind, storage.Close, ret. rewrite Hwe. cbn.
  apply copy_loop_world in Hcopy as (_ & (Hp & Ho & _) & _).
  apply BorrowObject_Ok in Hb as (Hh & Ho1 & _).
  rewrite Hp, Ho, Ho1, (pool_invalidate_borrowed _ _ Hh). cbn.
  split; [done|]. split; [set_solver | done].
Qed.

Lemma PutFile_failed_upload_witness :
  ∃ w', PutFile gcs0 "c" (mkReader [x68; x69] 0 io_EOF) first_Write_fails world0
        = (Some (backend_error "503"), w')
    ∧ objects w' = objects world0
    ∧ 0%nat ∈ destroyed (pool w')
    ∧ idle (pool w') = idle (pool (snd (BorrowObject first_Write_fails world0))).
Proof.
  apply (PutFile_failed_upload gcs0 "c" (mkReader [x68; x69] 0 io_EOF) first_Write_fails world0
           0%nat (snd (BorrowObject first_Write_fails world0)) 0 (Some (backend_error "503"))
           (storage.mkWriter 0%nat "bkt" "c" "STANDARD" [] [] 1 (Some (backend_error "503")))
           (mark_failed 0%nat (snd (BorrowObject first_Write_fails world0)))
           (backend_error "503")).
  - reflexivity.
  - vm_compute. reflexivity.
  - reflexivity.
Defined.

(** ** Operations that fail *)

(** X8: when the pool gives no handle, each of the six operations returns the
    error of the pool, CopyObject with a count of 0 and Walk without a call
    of its callback, writes one error line to the log and does nothing
    else: no call reaches the service and the pool is as it was. *)
Theorem operations_without_a_handle gcs f w e w1 :
  BorrowObject f w = (Err e, w1) →
  let w' := add_log (log_Error ("can't get client connection from pool: " +:+ error_string e)) w in
  (∀ (A : Type) gcsPath recursive (process : A → gcsFile → A * option error) acc,
      Walk gcs gcsPath recursive process acc f w = ((Some e, acc), w'))
  ∧ (∀ key, GetFileReader gcs key f w = (Err e, w'))
  ∧ (∀ key r, PutFile gcs key r f w = (Some e, w'))
  ∧ (∀ key, StatFile gcs key f w = (Err e, w'))
  ∧ (∀ key, deleteKey gcs key f w = (Some e, w'))
  ∧ (∀ srcBucket srcKey dstKey,
      CopyObject gcs srcBucket srcKey dstKey f w = ((0, Some e), w')).
Proof.
  intros Hb. pose proof (BorrowObject_Err _ _ _ _ Hb) as ->. cbn zeta.
  repeat split; intros;
    unfold Walk, GetFileReader, PutFile, StatFile, deleteKey, CopyObject, bind;
    by rewrite Hb.
Qed.

Lemma operations_without_a_handle_witness :
  let w' := add_log (log_Error "can't get client connection from pool: dial") world0 in
  (∀ (A : Type) gcsPath recursive (process : A → gcsFile → A * option error) acc,
      Walk gcs0 gcsPath recursive process acc NewClient_fails world0 = ((Some (backend_error "dial"), acc), w'))
  ∧ (∀ key, GetFileReader gcs0 key NewClient_fails world0 = (Err (backend_error "dial"), w'))
  ∧ (∀ key r, PutFile gcs0 key r NewClient_fails world0 = (Some (backend_error "dial"), w'))
  ∧ (∀ key, StatFile gcs0 key NewClient_fails world0 = (Err (backend_error "dial"), w'))
  ∧ (∀ key, deleteKey gcs0 key NewClient_fails world0 = (Some (backend_error "dial"), w'))
  ∧ (∀ srcBucket srcKey dstKey,
      CopyObject gcs0 srcBucket srcKey dstKey NewClient_fails world0
      = ((0, Some (backend_error "dial")), w')).
Proof.
  apply (operations_without_a_handle gcs0 NewClient_fails world0 (backend_error "dial") world0).
  reflexivity.
Defined.

Lemma deleteKey_borrowed gcs key f w h w1 :
  BorrowObject f w = (Ok h, w1) →
  deleteKey gcs key f w
  = let '(err, w2) := storage.Delete h (Bucket (Config gcs)) key f w1 in
    match err with
    | Some err => (Some err, with_pool (pool_invalidate h (pool w2)) w2)
    | None => (None, with_pool (pool_return h (pool w2)) w2)
    end.
Proof.
  intros Hb. unfold deleteKey, bind. rewrite Hb.
  by destruct (storage.Delete _ _ _ f w1) as [[e|] w2].
Qed.

(** X9: a deleteKey that returns nil has found an object under the key in the
    configured bucket, the key taken as it is given, and has removed that
    object and no other; it has borrowed a handle and left it on top of the
    idle handles. *)
Theorem deleteKey_removes_exactly_the_key gcs key f w w' :
  deleteKey gcs key f w = (None, w') →
  is_Some (objects w !! (Bucket (Config gcs), key))
  ∧ objects w' = delete (Bucket (Config gcs), key) (objects w)
  ∧ ∃ h w1, BorrowObject f w = (Ok h, w1) ∧ idle (pool w') = h :: idle (pool w1).
Proof.
  intros H. destruct (BorrowObject f w) as [[h|e] w1] eqn:Hb.
  - rewrite (deleteKey_borrowed _ _ _ _ _ _ Hb) in H.
    destruct (storage.Delete _ _ _ f w1) as [[e|] w2] eqn:Hd; [discriminate|].
    injection H as <-.
    apply Delete_objects in Hd as (Hp & _ & _ & Hs & Ho).
    apply BorrowObject_Ok in Hb as Hb'. destruct Hb' as (Hh & Ho1 & _).
    rewrite <- Ho1. split; [done|]. split; [done|].
    exists h, w1. split; [done|]. cbn. rewrite Hp, (pool_return_borrowed _ _ Hh). done.
  - unfold deleteKey, bind in H. rewrite Hb in H. discriminate.
Qed.

Lemma deleteKey_removes_exactly_the_key_witness :
  is_Some (objects world0 !! ("bkt", "a/y"))
  ∧ objects (snd (deleteKey gcs0 "a/y" no_faults world0)) = delete ("bkt", "a/y") (objects world0)
  ∧ ∃ h w1, BorrowObject no_faults world0 = (Ok h, w1)
            ∧ idle (pool (snd (deleteKey gcs0 "a/y" no_faults world0))) = h :: idle (pool w1).
Proof.
  apply (deleteKey_removes_exactly_the_key gcs0 "a/y" no_faults world0
           (snd (deleteKey gcs0 "a/y" no_faults world0))).
  vm_compute. reflexivity.
Defined.

(** X10: a deleteKey that returns an error has removed nothing. *)
Theorem deleteKey_error_keeps_the_store gcs key f w e w' :
  deleteKey gcs key f w = (Some e, w') →
  objects w' = objects w.
Proof.
  intros H. destruct (BorrowObject f w) as [[h|e1] w1] eqn:Hb.
  - rewrite (deleteKey_borrowed _ _ _ _ _ _ Hb) in H.
    destruct (storage.Delete _ _ _ f w1) as [[e2|] w2] eqn:Hd; [|discriminate].
    injection H as _ <-.
    apply Delete_objects in Hd as (_ & _ & Ho & _).
    apply BorrowObject_Ok in Hb as (_ & Ho1 & _). cbn. by rewrite Ho, Ho1.
  - unfold deleteKey, bind in H. rewrite Hb in H.
    apply BorrowObject_Err in Hb as ->. by injection H as _ <-.
Qed.

Lemma deleteKey_error_keeps_the_store_witness :
  objects (snd (deleteKey gcs0 "b" delete_fails world0)) = objects world0.
Proof.
  apply (deleteKey_error_keeps_the_store gcs0 "b" delete_fails world0 (backend_error "503")
           (snd (deleteKey gcs0 "b" delete_fails world0))).
  vm_compute. reflexivity.
Defined.

(** X11: a CopyObject that returns an error reports 0 bytes and has stored
    nothing. *)
Theorem CopyObject_error_reports_zero gcs srcBucket srcKey dstKey f w n e w' :
  CopyObject gcs srcBucket srcKey dstKey f w = ((n, Some e), w') →
  n = 0 ∧ objects w' = objects w.
Proof.
  intros H. unfold CopyObject, bind in H.
  destruct (BorrowObject f w) as [[h|e1] w1] eqn:Hb.
  - apply BorrowObject_Ok in Hb as (_ & Ho1 & _).
    destruct (storage.Attrs _ _ _ f w1) as [[attrs|e2] w2] eqn:Ha.
    + apply Attrs_pool in Ha as (_ & Ho2 & _).
      destruct (storage.CopierRun _ _ _ _ _ f w2) as [[a|e3] w3] eqn:Hc; [discriminate|].
      apply CopierRun_objects in Hc as (_ & _ & Ho3). cbn in H.
      injection H as <- _ <-. cbn. split; [done|]. by rewrite Ho3, Ho2, Ho1.
    + apply Attrs_pool in Ha as (_ & Ho2 & _). cbn in H.
      injection H as <- _ <-. cbn. split; [done|]. by rewrite Ho2, Ho1.
  - apply BorrowObject_Err in Hb as ->. cbn in H. by injection H as <- _ <-.
Qed.

Lemma CopyObject_error_reports_zero_witness :
  fst (fst (CopyObject gcs0 "bkt" "nowhere" "c" no_faults world0)) = 0
  ∧ objects (snd (CopyObject gcs0 "bkt" "nowhere" "c" no_faults world0)) = objects world0.
Proof.
  apply (CopyObject_error_reports_zero gcs0 "bkt" "nowhere" "c" no_faults world0
           (fst (fst (CopyObject gcs0 "bkt" "nowhere" "c" no_faults world0)))
           storage_ErrObjectNotExist
           (snd (CopyObject gcs0 "bkt" "nowhere" "c" no_faults world0))).
  vm_compute. reflexivity.
Defined.

(** X12: an object that is not there. When no call fails otherwise,
    GetFileReader, DeleteFile and CopyObject answer a missing object with
    the error of the storage client, ErrObjectNotExist, as it is, not with
    ErrNotFound, and they invalidate the handle. *)
Theorem missing_object_is_reported_as_it_is gcs key srcBucket srcKey dstKey f w h w1 :
  BorrowObject f w = (Ok h, w1) →
  objects w !! (Bucket (Config gcs), path_Join [Path (Config gcs); key]) = None →
  objects w !! (srcBucket, srcKey) = None →
  f call_NewReader = None → f call_Delete = None → f call_Attrs = None →
  (∃ w', GetFileReader gcs key f w = (Err storage_ErrObjectNotExist, w')
         ∧ h ∈ destroyed (pool w') ∧ idle (pool w') = idle (pool w1))
  ∧ (∃ w', DeleteFile gcs key f w = (Some storage_ErrObjectNotExist, w')
         ∧ h ∈ destroyed (pool w') ∧ idle (pool w') = idle (pool w1))
  ∧ (∃ w', CopyObject gcs srcBucket srcKey dstKey f w = ((0, Some storage_ErrObjectNotExist), w')
         ∧ h ∈ destroyed (pool w') ∧ idle (pool w') = idle (pool w1)).
Proof.
  intros Hb Hkey Hsrc HfR HfD HfA.
  apply BorrowObject_Ok in Hb as Hb'. destruct Hb' as (Hh & Ho1 & _).
  rewrite <- Ho1 in Hkey, Hsrc.
  split; [|split].
  - unfold GetFileReader, bind. rewrite Hb.
    unfold storage.NewReader, bind, service_call. rewrite HfR, Hkey.
    unfold object_missing. eexists. split; [reflexivity|]. cbn.
    rewrite (pool_invalidate_borrowed _ _ Hh). cbn. split; [set_solver | done].
  - unfold DeleteFile. rewrite (deleteKey_borrowed _ _ _ _ _ _ Hb).
    unfold storage.Delete, bind, service_call. rewrite HfD, Hkey.
    eexists. split; [reflexivity|]. cbn.
    rewrite (pool_invalidate_borrowed _ _ Hh). cbn. split; [set_solver | done].
  - unfold CopyObject, bind. rewrite Hb.
    unfold storage.Attrs, bind, service_call. rewrite HfA, Hsrc.
    unfold object_missing. eexists. split; [reflexivity|]. cbn.
    rewrite (pool_invalidate_borrowed _ _ Hh). cbn. split; [set_solver | done].
Qed.

Lemma missing_object_is_reported_as_it_is_witness :
  (∃ w', GetFileReader gcs0 "zz" no_faults world0 = (Err storage_ErrObjectNotExist, w')
         ∧ 0%nat ∈ destroyed (pool w') ∧ idle (pool w') = [])
  ∧ (∃ w', DeleteFile gcs0 "zz" no_faults world0 = (Some storage_ErrObjectNotExist, w')
         ∧ 0%nat ∈ destroyed (pool w') ∧ idle (pool w') = [])
  ∧ (∃ w', CopyObject gcs0 "other" "zz" "c" no_faults world0
           = ((0, Some storage_ErrObjectNotExist), w')
         ∧ 0%nat ∈ destroyed (pool w') ∧ idle (pool w') = []).
Proof.
  apply (missing_object_is_reported_as_it_is gcs0 "zz" "other" "zz" "c" no_faults world0 0%nat
           (snd (BorrowObject no_faults world0))).
  - reflexivity.
  - vm_compute. reflexivity.
  - vm_compute. reflexivity.
  - reflexivity.
  - reflexivity.
  - reflexivity.
Defined.

(** ** One operation after another *)

Lemma BorrowObject_idle f w h rest :
  idle (pool w) = h :: rest →
  BorrowObject f w
  = (Ok h, with_pool (mkPool rest ({[h]} ∪ borrowed (pool w)) (destroyed (pool w))
                        (created (pool w)) (MaxTotal (pool w))) w).
Proof. intros Hi. unfold BorrowObject. by rewrite Hi. Qed.

(** A PutFile that returns nil, when the close did not fail, has stored the
    input and put its handle back. *)
Lemma PutFile_nil_stored gcs key r f w w1 :
  PutFile gcs key r f w = (None, w1) →
  f call_Close = None →
  ∃ h w0, BorrowObject f w = (Ok h, w0)
    ∧ objects w1
      = <[(Bucket (Config gcs), path_Join [Path (Config gcs); key])
          := mkObject (r_data r) (StorageClass (Config gcs)) (ObjectLabels (Config gcs)) (clock w)]>
          (objects w)
    ∧ idle (pool w1) = h :: idle (pool w0).
Proof.
  intros H Hclose. destruct (BorrowObject f w) as [[h|e] w0] eqn:Hb.
  - rewrite (PutFile_borrowed _ _ _ _ _ _ _ Hb) in H.
    destruct (io_CopyBuffer _ _ _ _ f w0) as [[[n err] writer] w2] eqn:Hcopy.
    injection H as -> <-. unfold io_CopyBuffer in Hcopy.
    destruct (PutFile_writer_fields gcs h key) as (Hcl & Hbk & Hnm & Hsc & Hmd & Hsent & Herr).
    pose proof (copy_loop_sends_all _ _ _ _ _ _ _ _ _ Hcopy Herr) as (Hsent' & Herr' & _).
    apply copy_loop_world in Hcopy as ((_ & Hbk' & Hnm' & Hsc' & Hmd') & _ & _ & Hw).
    rewrite (Hw Herr') in *.
    assert (HC : storage.Close writer f w0
                 = (None, store_object (storage.wr_bucket writer) (storage.wr_name writer)
                            (mkObject (storage.wr_sent writer) (storage.StorageClass writer)
                               (storage.Metadata writer) 0) w0)).
    { unfold storage.Close. rewrite Herr'. unfold bind, service_call. by rewrite Hclose. }
    exists h, w0. split; [done|].
    unfold PutFile_deferred, bind. rewrite HC. unfold ReturnObject, with_pool, store_object.
    apply BorrowObject_Ok in Hb as (Hh & Ho & Hc & _). cbn.
    rewrite (pool_return_borrowed _ _ Hh). cbn.
    rewrite <- Hbk', <- Hnm', <- Hsc', <- Hmd', Hsent', Hbk, Hnm, Hsc, Hmd, Hsent, Ho, Hc.
    done.
  - unfold PutFile, bind in H. rewrite Hb in H. discriminate.
Qed.

(** StatFile with an idle handle at hand and no failure of the attributes
    fetch. *)
Lemma StatFile_idle gcs key f w h rest :
  idle (pool w) = h :: rest →
  f call_Attrs = None →
  ∃ w', StatFile gcs key f w
        = (match objects w !! (Bucket (Config gcs), path_Join [Path (Config gcs); key]) with
           | Some o => Ok (mkGcsFile (Z.of_nat (length (content o))) (updated o)
                             (path_Join [Path (Config gcs); key]))
           | None => Err ErrNotFound
           end, w').
Proof.
  intros Hi Hf. unfold StatFile, bind. rewrite (BorrowObject_idle f w h rest Hi).
  unfold storage.Attrs, bind, service_call. rewrite Hf. cbn.
  destruct (objects w !! _) as [o|]; cbn; eauto.
Qed.

(** X13: after a PutFile that returned nil and whose close did not fail,
    StatFile on the same key, when its attributes fetch does not fail,
    reports the number of bytes of the input, the time of the store at the
    upload, and as name the key under the root, not the key it was given. *)
Theorem PutFile_then_StatFile gcs key r f w w1 f' :
  PutFile gcs key r f w = (None, w1) →
  f call_Close = None →
  f' call_Attrs = None →
  ∃ w2, StatFile gcs key f' w1
        = (Ok (mkGcsFile (Z.of_nat (length (r_data r))) (clock w)
                 (path_Join [Path (Config gcs); key])), w2).
Proof.
  intros Hput Hclose Hattrs.
  destruct (PutFile_nil_stored _ _ _ _ _ _ Hput Hclose) as (h & w0 & _ & Ho & Hi).
  destruct (StatFile_idle gcs key f' w1 h _ Hi Hattrs) as (w2 & Hs).
  exists w2. by rewrite Hs, Ho, lookup_insert_eq.
Qed.

Lemma PutFile_then_StatFile_witness :
  ∃ w2, StatFile (mkGCS (mkGCSConfig "bkt" "backups" "disks" "STANDARD" [] 1)) "shadow/data.bin" no_faults
          (snd (PutFile (mkGCS (mkGCSConfig "bkt" "backups" "disks" "STANDARD" [] 1))
                  "shadow/data.bin" (mkReader [x68; x69] 1 io_EOF) no_faults world0))
        = (Ok (mkGcsFile 2 0 "backups/shadow/data.bin"), w2).
Proof.
  apply (PutFile_then_StatFile (mkGCS (mkGCSConfig "bkt" "backups" "disks" "STANDARD" [] 1))
           "shadow/data.bin" (mkReader [x68; x69] 1 io_EOF) no_faults world0
           (snd (PutFile (mkGCS (mkGCSConfig "bkt" "backups" "disks" "STANDARD" [] 1))
                   "shadow/data.bin" (mkReader [x68; x69] 1 io_EOF) no_faults world0))
           no_faults).
  - vm_compute. reflexivity.
  - reflexivity.
  - reflexivity.
Defined.

(** X14: after a PutFile that returned nil and whose close did not fail,
    DeleteFile on the same key, when the delete call does not fail, returns
    nil and leaves the store without an object under that key and otherwise
    as it was before the upload; StatFile on the key then answers
    ErrNotFound. *)
Theorem PutFile_DeleteFile_StatFile gcs key r f w w1 f' f'' :
  PutFile gcs key r f w = (None, w1) →
  f call_Close = None →
  f' call_Delete = None →
  f'' call_Attrs = None →
  ∃ w2 w3,
    DeleteFile gcs key f' w1 = (None, w2)
    ∧ objects w2 = delete (Bucket (Config gcs), path_Join [Path (Config gcs); key]) (objects w)
    ∧ StatFile gcs key f'' w2 = (Err ErrNotFound, w3).
Proof.
  intros Hput Hclose Hdel Hattrs.
  destruct (PutFile_nil_stored _ _ _ _ _ _ Hput Hclose) as (h & w0 & _ & Ho & Hi).
  pose proof (BorrowObject_idle f' w1 h _ Hi) as Hb.
  assert (Hd : ∃ w2, DeleteFile gcs key f' w1 = (None, w2)
                 ∧ objects w2 = delete (Bucket (Config gcs), path_Join [Path (Config gcs); key]) (objects w)
                 ∧ idle (pool w2) = h :: idle (pool w0)).
  { unfold DeleteFile. rewrite (deleteKey_borrowed _ _ _ _ _ _ Hb).
    unfold storage.Delete, bind, service_call. rewrite Hdel. cbn.
    rewrite Ho, lookup_insert_eq. eexists. split; [reflexivity|]. cbn.
    rewrite Ho, delete_insert_eq. split; [done|].
    rewrite pool_return_borrowed by (cbn; set_solver). done. }
  destruct Hd as (w2 & Hd & Ho2 & Hi2).
  destruct (StatFile_idle gcs key f'' w2 h _ Hi2 Hattrs) as (w3 & Hs).
  exists w2, w3. split; [done|]. split; [done|].
  by rewrite Hs, Ho2, lookup_delete_eq.
Qed.

Lemma PutFile_DeleteFile_StatFile_witness :
  ∃ w2 w3,
    DeleteFile gcs0 "c" no_faults
      (snd (PutFile gcs0 "c" (mkReader [x68; x69] 1 io_EOF) no_faults world0)) = (None, w2)
    ∧ objects w2 = delete ("bkt", "c") (objects world0)
    ∧ StatFile gcs0 "c" no_faults w2 = (Err ErrNotFound, w3).
Proof.
  apply (PutFile_DeleteFile_StatFile gcs0 "c" (mkReader [x68; x69] 1 io_EOF) no_faults world0
           (snd (PutFile gcs0 "c" (mkReader [x68; x69] 1 io_EOF) no_faults world0))
           no_faults no_faults).
  - vm_compute. reflexivity.
  - reflexivity.
  - reflexivity.
  - reflexivity.
Defined.

(** A CopyObject that succeeds has stored the copy and put its handle
    back. *)
Lemma CopyObject_nil_stored gcs srcBucket srcKey dstKey f w n w1 :
  CopyObject gcs srcBucket srcKey dstKey f w = ((n, None), w1) →
  ∃ h w0 o, BorrowObject f w = (Ok h, w0)
    ∧ objects w !! (srcBucket, srcKey) = Some o
    ∧ objects w1
      = <[(Bucket (Config gcs), path_Join [ObjectDiskPath (Config gcs); dstKey])
          := mkObject (content o) (storageClass o) (metadata o) (clock w)]> (objects w)
    ∧ idle (pool w1) = h :: idle (pool w0).
Proof.
  intros H. unfold CopyObject, bind in H.
  destruct (BorrowObject f w) as [[h|e1] w0] eqn:Hb; [|discriminate].
  apply BorrowObject_Ok in Hb as Hb'. destruct Hb' as (Hh & Ho1 & Hc1 & _).
  destruct (storage.Attrs _ _ _ f w0) as [[attrs|e2] w2] eqn:Ha; [|discriminate].
  apply Attrs_pool in Ha as (Hp2 & Ho2 & Hc2 & _).
  destruct (storage.CopierRun _ _ _ _ _ f w2) as [[a|e3] w3] eqn:Hc; [|discriminate].
  apply CopierRun_objects in Hc as (Hp3 & _ & (o & Hlook & Ho3)).
  cbn in H. injection H as _ <-. cbn.
  exists h, w0, o. split; [done|].
  rewrite Ho2, Ho1 in Hlook. split; [done|].
  rewrite Ho3, Ho2, Ho1, Hc2, Hc1. split; [done|].
  rewrite Hp3, Hp2, (pool_return_borrowed _ _ Hh). done.
Qed.

(** X15: CopyObject and DeleteFileFromObjectDiskBackup resolve a key under the
    same root: after a CopyObject that succeeded, the delete of its
    destination key, when the delete call does not fail, returns nil and
    leaves the store without the copy and otherwise as it was before the
    copy. *)
Theorem CopyObject_then_DeleteFileFromObjectDiskBackup gcs srcBucket srcKey dstKey f w n w1 f' :
  CopyObject gcs srcBucket srcKey dstKey f w = ((n, None), w1) →
  f' call_Delete = None →
  ∃ w2, DeleteFileFromObjectDiskBackup gcs dstKey f' w1 = (None, w2)
    ∧ objects w2
      = delete (Bucket (Config gcs), path_Join [ObjectDiskPath (Config gcs); dstKey]) (objects w).
Proof.
  intros Hcopy Hdel.
  destruct (CopyObject_nil_stored _ _ _ _ _ _ _ _ Hcopy) as (h & w0 & o & _ & _ & Ho & Hi).
  pose proof (BorrowObject_idle f' w1 h _ Hi) as Hb.
  unfold DeleteFileFromObjectDiskBackup. rewrite (deleteKey_borrowed _ _ _ _ _ _ Hb).
  unfold storage.Delete, bind, service_call. rewrite Hdel. cbn.
  rewrite Ho, lookup_insert_eq. eexists. split; [reflexivity|]. cbn.
  by rewrite Ho, delete_insert_eq.
Qed.

Lemma CopyObject_then_DeleteFileFromObjectDiskBackup_witness :
  ∃ w2, DeleteFileFromObjectDiskBackup gcs0 "store/b" no_faults
          (snd (CopyObject gcs0 "bkt" "b" "store/b" no_faults world0)) = (None, w2)
    ∧ objects w2 = delete ("bkt", "disks/store/b") (objects world0).
Proof.
  apply (CopyObject_then_DeleteFileFromObjectDiskBackup gcs0 "bkt" "b" "store/b" no_faults world0 0
           (snd (CopyObject gcs0 "bkt" "b" "store/b" no_faults world0)) no_faults).
  - vm_compute. reflexivity.
  - reflexivity.
Defined.

(** ** The pool between the operations *)

Lemma PutFile_deferred_pool h writer f w :
  pool (snd (PutFile_deferred h writer f w)) = pool_return h (pool w)
  ∨ pool (snd (PutFile_deferred h writer f w)) = pool_invalidate h (pool w).
Proof.
  unfold PutFile_deferred, bind.
  destruct (storage.Close writer f w) as [[e|] w1] eqn:HC; apply Close_spec in HC.
  - destruct HC as ((Hp & _) & _). right. cbn. by rewrite Hp.
  - destruct HC as (_ & _ & ->). left. done.
Qed.

(** How an operation leaves the pool: as it was, when no handle could be
    borrowed; else with the borrowed handle returned or invalidated; or,
    with the handle still lent, after a call on it found an object
    missing. *)
Lemma step_pool gcs w w' :
  step gcs w w' →
  pool w' = pool w
  ∨ ∃ f h w1, BorrowObject f w = (Ok h, w1)
      ∧ (pool w' = pool_return h (pool w1)
         ∨ pool w' = pool_invalidate h (pool w1)
         ∨ (pool w' = pool w1 ∧ h ∈ missed w')).
Proof.
  destruct 1 as [A gcsPath recursive process acc f w | key f w | key r f w | key f w
                 | key f w | srcBucket srcKey dstKey f w];
    destruct (BorrowObject f w) as [[h|e] w1] eqn:Hb.
  - right. exists f, h, w1. split; [done|]. unfold Walk, bind. rewrite Hb. unfold storage.Objects.
    destruct (cursor_run_total (Walk_rootPath gcs gcsPath) process f
                (storage.list_objects (objects w1) (Bucket (Config gcs))
                   (Walk_prefix gcs gcsPath) (Walk_delimiter recursive)) 0 acc)
      as (r & acc' & Hrun).
    destruct (Walk_loop_ends h _ _ _ _ _ _ _ _ Hrun w1) as (w' & -> & _ & Hp).
    cbn. destruct r; auto.
  - left. unfold Walk, bind. rewrite Hb. by apply BorrowObject_Err in Hb as ->.
  - right. exists f, h, w1. split; [done|]. unfold GetFileReader, bind. rewrite Hb.
    destruct (storage.NewReader _ _ _ f w1) as [[rd|e] w2] eqn:Hr;
      apply NewReader_objects in Hr as (Hp & _); cbn; rewrite Hp; auto.
  - left. unfold GetFileReader, bind. rewrite Hb. by apply BorrowObject_Err in Hb as ->.
  - right. exists f, h, w1. split; [done|]. rewrite (PutFile_borrowed _ _ _ _ _ _ _ Hb).
    destruct (io_CopyBuffer _ _ _ _ f w1) as [[[n err] writer] w2] eqn:Hcopy.
    apply copy_loop_world in Hcopy as (_ & (Hp & _) & _). cbn [snd].
    destruct (PutFile_deferred_pool h writer f w2) as [-> | ->]; rewrite Hp; auto.
  - left. unfold PutFile, bind. rewrite Hb. by apply BorrowObject_Err in Hb as ->.
  - right. exists f, h, w1. split; [done|]. unfold StatFile, bind. rewrite Hb.
    destruct (storage.Attrs _ _ _ f w1) as [[a|e] w2] eqn:Ha.
    + apply Attrs_pool in Ha as (Hp & _). cbn. rewrite Hp. auto.
    + pose proof (Attrs_pool _ _ _ _ _ _ _ Ha) as (Hp & _).
      destruct (errors_Is e storage_ErrObjectNotExist) eqn:His.
      * right. right. cbn. split; [done|]. by eapply Attrs_missing_marked.
      * cbn. rewrite Hp. auto.
  - left. unfold StatFile, bind. rewrite Hb. by apply BorrowObject_Err in Hb as ->.
  - right. exists f, h, w1. split; [done|]. rewrite (deleteKey_borrowed _ _ _ _ _ _ Hb).
    destruct (storage.Delete _ _ _ f w1) as [[e|] w2] eqn:Hd;
      apply Delete_objects in Hd as (Hp & _); cbn; rewrite Hp; auto.
  - left. unfold deleteKey, bind. rewrite Hb. by apply BorrowObject_Err in Hb as ->.
  - right. exists f, h, w1. split; [done|]. unfold CopyObject, bind. rewrite Hb.
    destruct (storage.Attrs _ _ _ f w1) as [[a|e] w2] eqn:Ha;
      apply Attrs_pool in Ha as (Hp & _).
    + destruct (storage.CopierRun _ _ _ _ _ f w2) as [[c|e] w3] eqn:Hc;
        apply CopierRun_objects in Hc as (Hp3 & _); cbn; rewrite Hp3, Hp; auto.
    + cbn. rewrite Hp. auto.
  - left. unfold CopyObject, bind. rewrite Hb. by apply BorrowObject_Err in Hb as ->.
Qed.

Lemma BorrowObject_pool f w h w1 :
  BorrowObject f w = (Ok h, w1) →
  borrowed (pool w1) = {[h]} ∪ borrowed (pool w)
  ∧ MaxTotal (pool w1) = MaxTotal (pool w)
  ∧ (idle (pool w) = h :: idle (pool w1)
     ∨ (idle (pool w) = [] ∧ idle (pool w1) = [] ∧ can_create (pool w) = true
        ∧ h = created (pool w))).
Proof.
  unfold BorrowObject. intros H.
  destruct (idle (pool w)) as [|h' rest] eqn:Hi.
  - destruct (can_create (pool w)) eqn:Hc; [|discriminate].
    destruct (f call_NewClient); [discriminate|].
    injection H as <- <-. cbn. auto 10.
  - injection H as <- <-. cbn. auto.
Qed.

Lemma steps_borrowed_missed gcs w w' :
  rtc (step gcs) w w' →
  settled w → borrowed (pool w) ⊆ missed w →
  borrowed (pool w') ⊆ missed w'.
Proof.
  induction 1 as [w | w w1 w' Hstep _ IH]; [done|].
  intros Hs Hsub. pose proof (step_settled _ _ _ Hstep Hs) as (Hs1 & _ & Hg).
  apply IH; [done|].
  destruct (step_pool _ _ _ Hstep) as [-> | (f & h & w0 & Hb & Hend)]; [set_solver|].
  apply BorrowObject_pool in Hb as Hb'. destruct Hb' as (HB & _).
  assert (Hh : h ∈ borrowed (pool w0)) by set_solver.
  destruct Hend as [-> | [-> | [-> Hm]]].
  - rewrite (pool_return_borrowed _ _ Hh). cbn. set_solver.
  - rewrite (pool_invalidate_borrowed _ _ Hh). cbn. set_solver.
  - set_solver.
Qed.

(** X16: every operation ends the borrow it began, whatever fails: with the
    handle lent to it, Walk, GetFileReader, PutFile, deleteKey and
    CopyObject leave the pool as ReturnObject or InvalidateObject on that
    handle makes it, on every path; so does StatFile, except where it
    answers ErrNotFound to a missing object and leaves the pool as the
    borrow made it, the handle still lent. Hence, between the operations, a
    handle is lent only if a call on it found an object missing. *)
Theorem lent_handles_met_a_missing_object gcs w :
  reachable gcs w →
  borrowed (pool w) ⊆ missed w
  ∧ ∀ f h w1, BorrowObject f w = (Ok h, w1) →
      h ∈ borrowed (pool w1)
      ∧ (∀ (A : Type) gcsPath recursive (process : A → gcsFile → A * option error) acc,
           borrow_ended h w1 (snd (Walk gcs gcsPath recursive process acc f w)))
      ∧ (∀ key, borrow_ended h w1 (snd (GetFileReader gcs key f w)))
      ∧ (∀ key r, borrow_ended h w1 (snd (PutFile gcs key r f w)))
      ∧ (∀ key,
           borrow_ended h w1 (snd (StatFile gcs key f w))
           ∨ (fst (StatFile gcs key f w) = Err ErrNotFound
              ∧ pool (snd (StatFile gcs key f w)) = pool w1
              ∧ h ∈ missed (snd (StatFile gcs key f w))))
      ∧ (∀ key, borrow_ended h w1 (snd (deleteKey gcs key f w)))
      ∧ (∀ srcBucket srcKey dstKey,
           borrow_ended h w1 (snd (CopyObject gcs srcBucket srcKey dstKey f w))).
Proof.
  intros (objs & now & Hsteps).
  destruct (steps_settled _ _ _ Hsteps (Connect_settled _ _ _)) as [Hs _].
  split; [apply (steps_borrowed_missed _ _ _ Hsteps); [apply Connect_settled | done]|].
  intros f h w1 Hb. unfold borrow_ended.
  split; [by apply BorrowObject_destroyed in Hb as (_ & Hh)|].
  split; [|split; [|split; [|split; [|split]]]].
  - intros A gcsPath recursive process acc.
    destruct (Walk gcs gcsPath recursive process acc f w) as [[oe acc'] w'] eqn:H. cbn [snd].
    rewrite (Walk_ends _ _ _ _ _ _ _ _ _ _ _ _ Hb H). destruct oe; auto.
  - intros key. destruct (GetFileReader gcs key f w) as [rd w'] eqn:H. cbn [snd].
    rewrite (GetFileReader_ends _ _ _ _ _ _ _ _ Hb H). destruct rd; auto.
  - intros key r. destruct (PutFile gcs key r f w) as [oe w'] eqn:H. cbn [snd].
    destruct (PutFile_ends _ _ _ _ _ _ _ _ _ Hs Hb H) as [Hp | (Hp & _)]; auto.
  - intros key. destruct (StatFile gcs key f w) as [rd w'] eqn:H. cbn [fst snd].
    pose proof (StatFile_ends _ _ _ _ _ _ _ _ Hb H) as He.
    destruct rd as [file|e]; [auto|].
    destruct He as [He | (-> & He & Hm)]; [auto | by right].
  - intros key. destruct (deleteKey gcs key f w) as [oe w'] eqn:H. cbn [snd].
    rewrite (deleteKey_ends _ _ _ _ _ _ _ _ Hb H). destruct oe; auto.
  - intros srcBucket srcKey dstKey.
    destruct (CopyObject gcs srcBucket srcKey dstKey f w) as [[n oe] w'] eqn:H. cbn [snd].
    rewrite (CopyObject_ends _ _ _ _ _ _ _ _ _ _ _ Hb H). destruct oe; auto.
Qed.

Lemma lent_handles_met_a_missing_object_witness :
  borrowed (pool (snd (StatFile gcs0 "zz" no_faults world0)))
  ⊆ missed (snd (StatFile gcs0 "zz" no_faults world0))
  ∧ (∀ key, borrow_ended 0%nat (snd (BorrowObject no_faults world0))
              (snd (deleteKey gcs0 key no_faults world0)))
  ∧ (∀ key,
       borrow_ended 0%nat (snd (BorrowObject no_faults world0))
         (snd (StatFile gcs0 key no_faults world0))
       ∨ (fst (StatFile gcs0 key no_faults world0) = Err ErrNotFound
          ∧ pool (snd (StatFile gcs0 key no_faults world0))
            = pool (snd (BorrowObject no_faults world0))
          ∧ 0%nat ∈ missed (snd (StatFile gcs0 key no_faults world0)))).
Proof.
  split.
  - apply (lent_handles_met_a_missing_object gcs0).
    exists (three_keys [] [] []), 0. apply rtc_once. apply step_StatFile.
  - destruct (lent_handles_met_a_missing_object gcs0 world0) as [_ Hends].
    { exists (three_keys [] [] []), 0. apply rtc_refl. }
    destruct (Hends no_faults 0%nat (snd (BorrowObject no_faults world0)) eq_refl)
      as (_ & _ & _ & _ & HStatFile & HdeleteKey & _).
    split; [exact HdeleteKey | exact HStatFile].
Defined.

Lemma size_insert_le (h : handle) (B : gset handle) :
  (stdpp.base.size ({[h]} ∪ B) ≤ S (stdpp.base.size B))%nat.
Proof.
  rewrite size_union_alt, size_singleton.
  assert (stdpp.base.size (B ∖ {[h]}) ≤ stdpp.base.size B)%nat
    by (apply subseteq_size; set_solver).
  lia.
Qed.

Lemma size_remove (h : handle) (B : gset handle) :
  h ∈ B → S (stdpp.base.size (B ∖ {[h]})) = stdpp.base.size B.
Proof.
  intros Hh. rewrite size_difference by set_solver. rewrite size_singleton.
  assert (stdpp.base.size B ≠ 0%nat); [|lia].
  intros H0. apply size_empty_inv in H0. set_solver.
Qed.

Lemma steps_live gcs w w' :
  rtc (step gcs) w w' →
  (0 ≤ MaxTotal (pool w))%Z → (live_handles (pool w) ≤ MaxTotal (pool w))%Z →
  MaxTotal (pool w') = MaxTotal (pool w) ∧ (live_handles (pool w') ≤ MaxTotal (pool w))%Z.
Proof.
  induction 1 as [w | w w1 w' Hstep _ IH]; [done|].
  intros H0 Hlive.
  assert (H1 : MaxTotal (pool w1) = MaxTotal (pool w)
               ∧ (live_handles (pool w1) ≤ MaxTotal (pool w))%Z).
  { destruct (step_pool _ _ _ Hstep) as [-> | (f & h & w0 & Hb & Hend)]; [done|].
    apply BorrowObject_pool in Hb as (HB & HM & Hi).
    assert (Hh : h ∈ borrowed (pool w0)) by set_solver.
    assert (Hl0 : (live_handles (pool w0) ≤ MaxTotal (pool w))%Z).
    { unfold live_handles in *. rewrite HB. pose proof (size_insert_le h (borrowed (pool w))).
      destruct Hi as [Hi | (Hi & Hi0 & Hc & _)].
      - rewrite Hi in Hlive. cbn [length] in Hlive. lia.
      - rewrite Hi0. unfold can_create in Hc. rewrite Hi in Hc, Hlive. cbn [length] in *.
        apply orb_true_iff in Hc as [Hc | Hc]; apply bool_decide_eq_true in Hc; lia. }
    unfold live_handles in *.
    destruct Hend as [-> | [-> | [-> Hm]]].
    - rewrite (pool_return_borrowed _ _ Hh). cbn.
      pose proof (size_remove h _ Hh). split; [done|]. lia.
    - rewrite (pool_invalidate_borrowed _ _ Hh). cbn.
      pose proof (size_remove h _ Hh). split; [done|]. lia.
    - done. }
  destruct H1 as [HM1 Hl1]. rewrite <- HM1 in *. by apply IH.
Qed.

(** X17: the bound of the pool holds. With a ClientPoolSize that is not
    negative, after any sequence of operations, whatever failed in them,
    the handles that are idle or lent are at most ClientPoolSize. *)
Theorem pool_never_exceeds_ClientPoolSize gcs w :
  reachable gcs w →
  (0 ≤ ClientPoolSize (Config gcs))%Z →
  (live_handles (pool w) ≤ ClientPoolSize (Config gcs))%Z.
Proof.
  intros (objs & now & Hsteps) H0.
  by apply (steps_live _ _ _ Hsteps).
Qed.

Lemma pool_never_exceeds_ClientPoolSize_witness :
  (live_handles (pool (snd (StatFile gcs0 "zz" no_faults world0))) ≤ 1)%Z.
Proof.
  apply (pool_never_exceeds_ClientPoolSize gcs0).
  - exists (three_keys [] [] []), 0. apply rtc_once. apply step_StatFile.
  - cbn. lia.
Defined.

(** ** StatFile on missing objects, again and again *)

Lemma StatFile_missing_fresh gcs key f w :
  idle (pool w) = [] →
  can_create (pool w) = true →
  f call_NewClient = None → f call_Attrs = None →
  objects w !! (Bucket (Config gcs), path_Join [Path (Config gcs); key]) = None →
  StatFile gcs key f w
  = (Err ErrNotFound,
     mark_missed (created (pool w))
       (with_pool (mkPool [] ({[created (pool w)]} ∪ borrowed (pool w)) (destroyed (pool w))
                     (S (created (pool w))) (MaxTotal (pool w))) w)).
Proof.
  intros Hi Hc HfN HfA Hlook.
  assert (HA : ∀ h w1, objects w1 = objects w →
            storage.Attrs h (Bucket (Config gcs)) (path_Join [Path (Config gcs); key]) f w1
            = (Err storage_ErrObjectNotExist, mark_missed h w1)).
  { intros h w1 Ho. unfold storage.Attrs, bind, service_call. by rewrite HfA, Ho, Hlook. }
  unfold StatFile, bind, BorrowObject. rewrite Hi, Hc, HfN. by rewrite HA.
Qed.

Lemma StatFile_each_missing gcs f keys :
  f call_NewClient = None → f call_Attrs = None →
  ∀ w,
  idle (pool w) = [] →
  (∀ h, h ∈ borrowed (pool w) → (h < created (pool w))%nat) →
  (Z.of_nat (stdpp.base.size (borrowed (pool w))) + Z.of_nat (length keys) = MaxTotal (pool w))%Z →
  (∀ key, key ∈ keys →
     objects w !! (Bucket (Config gcs), path_Join [Path (Config gcs); key]) = None) →
  ∃ w', StatFile_each gcs keys f w = (replicate (length keys) (Err ErrNotFound), w')
    ∧ objects w' = objects w
    ∧ idle (pool w') = []
    ∧ Z.of_nat (stdpp.base.size (borrowed (pool w'))) = MaxTotal (pool w').
Proof.
  intros HfN HfA. induction keys as [|key keys IH]; intros w Hi Hfresh Hsize Hmiss.
  - exists w. cbn [length] in Hsize. rewrite Z.add_0_r in Hsize. done.
  - cbn [length] in Hsize. cbn [StatFile_each]. unfold bind.
    rewrite (StatFile_missing_fresh gcs key f w Hi); [| |done|done|].
    + set (w1 := mark_missed _ _).
      assert (Hnew : created (pool w) ∉ borrowed (pool w)).
      { intros Hin. apply Hfresh in Hin. lia. }
      destruct (IH w1) as (w' & Heach & Ho & Hi' & Hsz).
      * done.
      * cbn. intros h [->%elem_of_singleton | Hin%Hfresh]%elem_of_union; lia.
      * cbn. rewrite size_union by set_solver. rewrite size_singleton. lia.
      * intros key' Hkey'. apply (Hmiss key'). set_solver.
      * exists w'. rewrite Heach. done.
    + unfold can_create. rewrite Hi. cbn [length].
      apply orb_true_iff. right. apply bool_decide_eq_true. lia.
    + apply Hmiss. set_solver.
Qed.

(** X18: a pool used up by StatFile. After Connect, with a ClientPoolSize of
    n, n calls of StatFile on keys without an object, when no call fails
    otherwise, all answer ErrNotFound and leave the store as it was; after
    them no handle is idle and none can be created, so that the pool has
    nothing to lend to the operation that follows, whichever it is. *)
Theorem missing_StatFile_uses_up_the_pool gcs objs now keys f :
  Z.of_nat (length keys) = ClientPoolSize (Config gcs) →
  (∀ key, key ∈ keys →
     objs !! (Bucket (Config gcs), path_Join [Path (Config gcs); key]) = None) →
  f call_NewClient = None → f call_Attrs = None →
  ∃ w', StatFile_each gcs keys f (Connect gcs objs now)
        = (replicate (length keys) (Err ErrNotFound), w')
    ∧ objects w' = objs
    ∧ idle (pool w') = [] ∧ can_create (pool w') = false
    ∧ ∀ f', BorrowObject f' w' = (Err context_DeadlineExceeded, w').
Proof.
  intros Hlen Hmiss HfN HfA.
  destruct (StatFile_each_missing gcs f keys HfN HfA (Connect gcs objs now))
    as (w' & Heach & Ho & Hi & Hsz).
  { done. }
  { cbn. set_solver. }
  { cbn [Connect pool borrowed MaxTotal]. rewrite size_empty. lia. }
  { done. }
  assert (Hc : can_create (pool w') = false).
  { unfold can_create. rewrite Hi. cbn [length].
    apply orb_false_iff. split; apply bool_decide_eq_false; lia. }
  exists w'. split; [done|]. split; [done|]. split; [done|]. split; [done|].
  intros f'. unfold BorrowObject. by rewrite Hi, Hc.
Qed.

Lemma missing_StatFile_uses_up_the_pool_witness :
  ∃ w', StatFile_each (mkGCS (mkGCSConfig "bkt" "" "disks" "STANDARD" [] 2)) ["p"; "q"] no_faults
          (Connect (mkGCS (mkGCSConfig "bkt" "" "disks" "STANDARD" [] 2)) (three_keys [] [] []) 0)
        = ([Err ErrNotFound; Err ErrNotFound], w')
    ∧ objects w' = three_keys [] [] []
    ∧ idle (pool w') = [] ∧ can_create (pool w') = false
    ∧ ∀ f', BorrowObject f' w' = (Err context_DeadlineExceeded, w').
Proof.
  apply (missing_StatFile_uses_up_the_pool (mkGCS (mkGCSConfig "bkt" "" "disks" "STANDARD" [] 2))
           (three_keys [] [] []) 0 ["p"; "q"] no_faults).
  - reflexivity.
  - intros key Hkey. apply list_elem_of_In in Hkey.
    destruct Hkey as [<- | [<- | []]]; vm_compute; reflexivity.
  - reflexivity.
  - reflexivity.
Defined.

(** ** Connect: how the client authenticates *)

(** X19: the options Connect builds say at most once how to authenticate, and
    always switch the telemetry off. With an endpoint configured they say
    WithoutAuthentication and carry no credentials, whatever credentials
    the configuration holds; without one they never say
    WithoutAuthentication and set no endpoint. *)
Theorem Connect_authenticates_at_most_once {N : Type} DecodeString
    (NewClient : list (ClientOption N) → result (RoundTripper N)) cfg clientOptions :
  Connect_clientOptions DecodeString NewClient cfg = options_ready clientOptions →
  WithTelemetryDisabled ∈ clientOptions
  ∧ (length (List.filter is_authentication clientOptions) ≤ 1)%nat
  ∧ (Endpoint cfg ≠ "" →
       List.filter is_authentication clientOptions = [WithoutAuthentication]
       ∧ WithEndpoint (Endpoint cfg) ∈ clientOptions)
  ∧ (Endpoint cfg = "" →
       List.filter is_authentication clientOptions = List.filter is_credentials clientOptions
       ∧ ∀ url, WithEndpoint url ∉ clientOptions).
Proof.
  unfold Connect_clientOptions. intros H.
  repeat case_bool_decide;
    repeat match type of H with
           | context [DecodeString ?s] => destruct (DecodeString s) as [d ?]
           | context [Debug cfg] => destruct (Debug cfg)
           | context [strings_HasPrefix ?a ?b] => destruct (strings_HasPrefix a b)
           | context [NewClient ?l] => destruct (NewClient l)
           end;
    try discriminate; injection H as <-; cbn;
    (split; [set_solver|]); (split; [lia|]);
    (split; [intros ? | intros ?]); try done;
    split; try done; try set_solver.
Qed.

Lemma Connect_authenticates_at_most_once_witness :
  WithTelemetryDisabled ∈ emulator_options
  ∧ (length (List.filter is_authentication emulator_options) ≤ 1)%nat
  ∧ (Endpoint emulator_config ≠ "" →
       List.filter is_authentication emulator_options = [WithoutAuthentication]
       ∧ WithEndpoint (Endpoint emulator_config) ∈ emulator_options)
  ∧ (Endpoint emulator_config = "" →
       List.filter is_authentication emulator_options
       = List.filter is_credentials emulator_options
       ∧ ∀ url, WithEndpoint url ∉ emulator_options).
Proof.
  apply (Connect_authenticates_at_most_once (λ s, (s, None))
           (λ _, Ok counting_transport) emulator_config).
  vm_compute. reflexivity.
Defined.

(** ** What the diagnostic transport writes *)

Lemma string_app_nil_l (s : string) : "" +:+ s = s.
Proof. reflexivity. Qed.

Lemma string_app_nil_r (s : string) : s +:+ "" = s.
Proof. induction s as [|x s IH]; [done|]. rewrite string_app_cons. by f_equal. Qed.

Lemma foldl_lines (h : string) (vs : list string) :
  ∀ msg, foldl (λ msg v, msg +:+ h +:+ ": " +:+ v +:+ newline) msg vs
         = msg +:+ foldl (λ msg v, msg +:+ h +:+ ": " +:+ v +:+ newline) "" vs.
Proof.
  induction vs as [|v vs IH]; intros msg; cbn [foldl].
  - by rewrite string_app_nil_r.
  - rewrite IH, (IH ("" +:+ _)), string_app_nil_l, string_app_assoc. done.
Qed.

Lemma header_lines_app msg header :
  header_lines msg header = msg +:+ header_lines "" header.
Proof.
  unfold header_lines. revert msg. induction header as [|hv header IH]; intros msg; cbn [foldl].
  - by rewrite string_app_nil_r.
  - rewrite IH, (IH (foldl _ "" _)), (foldl_lines hv.1 hv.2 msg), string_app_assoc. done.
Qed.

Lemma foldl_lines_has (h : string) (vs : list string) v :
  v ∈ vs →
  ∃ before after,
    foldl (λ msg v, msg +:+ h +:+ ": " +:+ v +:+ newline) "" vs
    = before +:+ h +:+ ": " +:+ v +:+ newline +:+ after.
Proof.
  induction vs as [|a vs IH]; [by intros ?%elem_of_nil|].
  intros [-> | Hin]%elem_of_cons; cbn [foldl]; rewrite foldl_lines, string_app_nil_l.
  - exists "", (foldl (λ msg v, msg +:+ h +:+ ": " +:+ v +:+ newline) "" vs).
    rewrite string_app_nil_l, !string_app_assoc. done.
  - destruct (IH Hin) as (before & after & ->).
    exists ((h +:+ ": " +:+ a +:+ newline) +:+ before), after.
    by rewrite !string_app_assoc.
Qed.

Lemma header_lines_has msg header h vs v :
  (h, vs) ∈ header → v ∈ vs →
  ∃ before after, header_lines msg header = before +:+ h +:+ ": " +:+ v +:+ newline +:+ after.
Proof.
  intros Hh Hv. revert msg. induction header as [|hv header IH]; [by apply elem_of_nil in Hh|].
  intros msg. apply elem_of_cons in Hh as [<- | Hin].
  - unfold header_lines. cbn [foldl]. fold (header_lines (foldl
      (λ msg v, msg +:+ (h, vs).1 +:+ ": " +:+ v +:+ newline) msg (h, vs).2) header).
    rewrite header_lines_app. cbn [fst snd]. rewrite foldl_lines.
    destruct (foldl_lines_has h vs v Hv) as (before & after & ->).
    exists (msg +:+ before), (after +:+ header_lines "" header).
    by rewrite !string_app_assoc.
  - unfold header_lines. cbn [foldl]. by apply IH.
Qed.

(** X20: the diagnostic transport writes every value of every header of the
    request to the log as it is, the name, a colon and the value on a line
    of their own, in the first entry it adds; nothing is left out or
    masked, an Authorization header no more than another. *)
Theorem RoundTrip_logs_every_header_value {N : Type} (t : debugGCSTransport N) r net log h vs v :
  fst (base t r net) ≠ (None, None) →
  (h, vs) ∈ Request.Header r →
  v ∈ vs →
  ∃ before after rest,
    RoundTrip t r net log
    = Some (base t r net,
            (log ++ log_Info (before +:+ h +:+ ": " +:+ v +:+ newline +:+ after) :: rest)%list).
Proof.
  intros Hbase Hh Hv. unfold RoundTrip.
  destruct (header_lines_has
              (">>> [GCS_REQUEST] >>> " +:+ Request.Method r +:+ " " +:+ Request.URL r +:+ newline)
              (Request.Header r) h vs v Hh Hv) as (before & after & ->).
  exists before, after.
  destruct (base t r net) as [[resp [e|]] net'].
  - eexists. by rewrite <- app_assoc.
  - destruct resp as [rs|]; [|done]. eexists. by rewrite <- app_assoc.
Qed.

Lemma RoundTrip_logs_every_header_value_witness :
  ∃ before after rest,
    RoundTrip (mkDebugGCSTransport counting_transport) signed_request 0%nat []
    = Some (counting_transport signed_request 0%nat,
            ([] ++ log_Info (before +:+ "Authorization" +:+ ": " +:+ "Bearer ya29.token"
                              +:+ newline +:+ after) :: rest)%list).
Proof.
  apply (RoundTrip_logs_every_header_value (mkDebugGCSTransport counting_transport)
           signed_request 0%nat [] "Authorization" ["Bearer ya29.token"] "Bearer ya29.token").
  - vm_compute. discriminate.
  - vm_compute. set_solver.
  - set_solver.
Defined.

(** ** A walk that is not recursive *)

Lemma index_slash_split (rest : string) :
  ∀ i, String.index 0 "/" rest = Some i →
  ∃ d tail, rest = d +:+ "/" +:+ tail
            ∧ String.substring 0 (i + String.length "/") rest = d +:+ "/"
            ∧ String.index 0 "/" d = None.
Proof.
  induction rest as [|b rest IH]; intros i Hi; [discriminate|].
  cbn [String.index] in Hi. destruct (String.prefix "/" (String b rest)) eqn:Hp.
  - injection Hi as <-. cbn [String.prefix] in Hp.
    destruct (ascii_dec "/" b) as [<-|]; [|discriminate].
    exists "", rest. split; [done|]. split; [by destruct rest | done].
  - destruct (String.index 0 "/" rest) as [i'|] eqn:Hi'; [|discriminate].
    injection Hi as <-. destruct (IH i' eq_refl) as (d & tail & -> & Hsub & Hd).
    exists (String b d), tail. rewrite !string_app_cons. split; [done|].
    split.
    + cbn [Nat.add String.substring]. f_equal. rewrite <- string_app_cons. exact Hsub.
    + cbn [String.index]. rewrite Hd.
      cbn [String.prefix] in Hp |- *.
      destruct (ascii_dec "/" b); [|done]. by destruct d.
Qed.

(** With the delimiter "/", a listing holds the objects right under the
    prefix, and for the objects further down the directory they are in. *)
Lemma list_objects_children objs bucket prefix object :
  object ∈ storage.list_objects objs bucket prefix "/" →
  (∃ rest o, objs !! (bucket, prefix +:+ rest) = Some o
             ∧ String.index 0 "/" rest = None
             ∧ object = storage.attrs_of (prefix +:+ rest) o)
  ∨ (∃ d tail o, objs !! (bucket, prefix +:+ d +:+ "/" +:+ tail) = Some o
                 ∧ String.index 0 "/" d = None
                 ∧ object = storage.mkAttrs "" (prefix +:+ d +:+ "/") 0 0).
Proof.
  unfold storage.list_objects. intros [Hin | Hin]%elem_of_app.
  - left. apply list_elem_of_omap in Hin as ([n o] & Hin & Hf). cbn in Hf.
    destruct (storage.common_prefix prefix "/" n) eqn:Hc; [done|]. injection Hf as <-.
    apply list_elem_of_omap in Hin as ([n' o'] & Hin & Hf). cbn in Hf.
    destruct (strings_HasPrefix n' prefix) eqn:Hp; [|done]. injection Hf as -> ->.
    apply bucket_objects_lookup in Hin.
    apply strings_HasPrefix_app in Hp as [rest ->]. exists rest, o.
    split; [done|]. split; [|done].
    unfold storage.common_prefix in Hc. rewrite bool_decide_eq_false_2 in Hc by done.
    rewrite strip_prefix_app in Hc. by destruct (String.index 0 "/" rest).
  - right. apply list_elem_of_fmap in Hin as (p & -> & Hin).
    apply elem_of_remove_dups, list_elem_of_omap in Hin as ([n o] & Hin & Hc). cbn in Hc.
    apply list_elem_of_omap in Hin as ([n' o'] & Hin & Hf). cbn in Hf.
    destruct (strings_HasPrefix n' prefix) eqn:Hp; [|done]. injection Hf as -> ->.
    apply bucket_objects_lookup in Hin.
    apply strings_HasPrefix_app in Hp as [rest ->].
    unfold storage.common_prefix in Hc. rewrite bool_decide_eq_false_2 in Hc by done.
    rewrite strip_prefix_app in Hc.
    destruct (String.index 0 "/" rest) as [i|] eqn:Hi; [|done].
    destruct (index_slash_split rest i Hi) as (d & tail & Hrest & Hsub & Hd).
    rewrite Hsub in Hc. injection Hc as <-. subst rest.
    exists d, tail, o. done.
Qed.

(** X21: a Walk that is not recursive never goes below the first level.
    Under a root that is not "/", every entry it shows its callback is
    either a file for an object whose key has no "/" after the prefix of
    the walk, with the size and the time of that object, or a directory for
    the first segment of the key of some object further down, with a name
    that ends with "/", no size and no time. *)
Theorem Walk_flat_shows_the_first_level gcs gcsPath f w :
  Walk_rootPath gcs gcsPath ≠ "/" →
  ∀ file, file ∈ snd (fst (Walk gcs gcsPath false collect [] f w)) →
    (∃ rest o,
        objects w !! (Bucket (Config gcs), Walk_rootPath gcs gcsPath +:+ "/" +:+ rest) = Some o
        ∧ String.index 0 "/" rest = None
        ∧ file = mkGcsFile (Z.of_nat (length (content o))) (updated o) ("/" +:+ rest))
    ∨ (∃ d tail o,
        objects w !! (Bucket (Config gcs), Walk_rootPath gcs gcsPath +:+ "/" +:+ d +:+ "/" +:+ tail)
        = Some o
        ∧ String.index 0 "/" d = None
        ∧ file = mkGcsFile 0 0 ("/" +:+ d +:+ "/")).
Proof.
  intros Hroot file. unfold Walk, bind.
  destruct (BorrowObject f w) as [[h|e] w1] eqn:Hb; [|cbn; set_solver].
  apply BorrowObject_Ok in Hb as (_ & Ho & _). unfold storage.Objects. rewrite Ho.
  unfold Walk_prefix. rewrite bool_decide_eq_false_2 by done.
  set (root := Walk_rootPath gcs gcsPath).
  destruct (Walk_loop_collect h root f
              (storage.list_objects (objects w) (Bucket (Config gcs)) (root +:+ "/")
                 (Walk_delimiter false)) 0 [] w1) as (shown & Hpre & ->).
  rewrite app_nil_l. intros (object & -> & Hin)%list_elem_of_fmap.
  assert (Hitem : object ∈ storage.list_objects (objects w) (Bucket (Config gcs))
                    (root +:+ "/") "/").
  { destruct Hpre as [more Hmore]. change (Walk_delimiter false) with "/" in Hmore.
    rewrite Hmore. set_solver. }
  apply list_objects_children in Hitem
    as [(rest & o & Hl & Hi & ->) | (d & tail & o & Hl & Hi & ->)].
  - left. exists rest, o. rewrite string_app_assoc in Hl. split; [done|]. split; [done|].
    unfold Walk_entry, storage.attrs_of.
    cbn [storage.Prefix storage.Name storage.Size storage.Updated].
    rewrite bool_decide_eq_false_2 by (intros Hx; by apply Hx).
    by rewrite string_app_assoc, strings_TrimPrefix_app.
  - right. exists d, tail, o. rewrite string_app_assoc in Hl. split; [done|]. split; [done|].
    unfold Walk_entry. cbn [storage.Prefix storage.Name storage.Size storage.Updated].
    rewrite bool_decide_eq_true_2 by (rewrite string_app_assoc; by destruct root).
    by rewrite string_app_assoc, strings_TrimPrefix_app.
Qed.

Lemma Walk_flat_shows_the_first_level_witness :
  (∃ rest o,
      objects (Connect gcs0 (three_keys [] [x68; x69] []) 7) !! (Bucket (Config gcs0), Walk_rootPath gcs0 "a" +:+ "/" +:+ rest) = Some o
      ∧ String.index 0 "/" rest = None
      ∧ mkGcsFile 2 0 "/y" = mkGcsFile (Z.of_nat (length (content o))) (updated o) ("/" +:+ rest))
  ∨ (∃ d tail o,
      objects (Connect gcs0 (three_keys [] [x68; x69] []) 7) !! (Bucket (Config gcs0), Walk_rootPath gcs0 "a" +:+ "/" +:+ d +:+ "/" +:+ tail)
      = Some o
      ∧ String.index 0 "/" d = None
      ∧ mkGcsFile 2 0 "/y" = mkGcsFile 0 0 ("/" +:+ d +:+ "/")).
Proof.
  apply (Walk_flat_shows_the_first_level gcs0 "a" no_faults
           (Connect gcs0 (three_keys [] [x68; x69] []) 7)).
  - discriminate.
  - vm_compute. apply list_elem_of_further, list_elem_of_here.
Defined.
